(** * peernet: the room session engine, its wire codec and its command loop

    A shallow embedding of the chat room of package [pkg] (ChatRoom,
    JoinChatRoom, publishLoop, subscribeLoop, Exit, UpdateUser) and of
    [pkg/ui.go] (the input handler, handleEvents, processCommand, switchRoom), together
    with the part of Go's [unicode/utf8] and [encoding/json] that the
    three-string envelope [chatMessage] exercises; and of peer discovery
    ([pkg/connect.go]: AdvertiseConnect, AnnounceConnect, generateCID,
    handlePeerDiscovery) with the choice of its method in [main.go].

    Go strings and byte slices are byte sequences: a Go [string] is a Rocq
    [string], a Go [[]byte] is a [list ascii]. *)

From Stdlib Require Import Ascii String NArith List Lia Bool.
From stdpp Require Import gmap strings list.

Open Scope N_scope.

(** ** Bytes *)

Definition bytes := list ascii.

Definition code (c : ascii) : N := N_of_ascii c.
Definition byte_of (n : N) : ascii := ascii_of_N n.

(** The double quote and the backslash, by code. *)
Definition dq : ascii := "034"%char.
Definition bsl : ascii := "092"%char.

(** [[]byte(s)] and [string(b)]. *)
Definition bytes_of (s : string) : bytes := list_ascii_of_string s.
Definition string_of (b : bytes) : string := string_of_list_ascii b.

(** ** unicode/utf8 *)
Module utf8.

Definition RuneError : N := 0xFFFD.
Definition RuneSelf : N := 0x80.
Definition MaxRune : N := 0x10FFFF.
Definition UTFMax : nat := 4.

Definition surrogateMin : N := 0xD800.
Definition surrogateMax : N := 0xDFFF.

Definition locb : N := 0x80.
Definition hicb : N := 0xBF.

Definition maskx : N := 0x3F.
Definition mask2 : N := 0x1F.
Definition mask3 : N := 0x0F.
Definition mask4 : N := 0x07.

Definition t2 : N := 0xC0.
Definition t3 : N := 0xE0.
Definition t4 : N := 0xF0.
Definition tx : N := 0x80.

Definition rune2Max : N := 0x7FF.
Definition rune3Max : N := 0xFFFF.

(** The table [first] with [acceptRanges] resolved: for a lead byte of a
    multi-byte sequence, the sequence length and the range accepted for the
    second byte; [None] for ASCII and for bytes that start no sequence. *)
Definition first (p0 : N) : option (nat * N * N) :=
  if p0 <? 0xC2 then None
  else if p0 <? 0xE0 then Some (2%nat, locb, hicb)
  else if p0 =? 0xE0 then Some (3%nat, 0xA0, hicb)
  else if p0 <? 0xED then Some (3%nat, locb, hicb)
  else if p0 =? 0xED then Some (3%nat, locb, 0x9F)
  else if p0 <? 0xF0 then Some (3%nat, locb, hicb)
  else if p0 =? 0xF0 then Some (4%nat, 0x90, hicb)
  else if p0 <? 0xF4 then Some (4%nat, locb, hicb)
  else if p0 =? 0xF4 then Some (4%nat, locb, 0x8F)
  else None.

Definition cont (b : N) : bool := (locb <=? b) && (b <=? hicb).

(** The rune assembled from the payload bits of two, three and four bytes. *)
Definition dec2 (p0 b1 : N) : N :=
  N.lor (N.shiftl (N.land p0 mask2) 6) (N.land b1 maskx).

Definition dec3 (p0 b1 b2 : N) : N :=
  N.lor (N.lor (N.shiftl (N.land p0 mask3) 12) (N.shiftl (N.land b1 maskx) 6))
        (N.land b2 maskx).

Definition dec4 (p0 b1 b2 b3 : N) : N :=
  N.lor (N.lor (N.lor (N.shiftl (N.land p0 mask4) 18)
                      (N.shiftl (N.land b1 maskx) 12))
               (N.shiftl (N.land b2 maskx) 6))
        (N.land b3 maskx).

(** [utf8.DecodeRune]: the rune at the head of [p] and its width in bytes;
    [(RuneError, 0)] on empty input, [(RuneError, 1)] on a byte that starts
    no well-formed sequence. *)
Definition DecodeRune (p : bytes) : N * nat :=
  match p with
  | [] => (RuneError, 0%nat)
  | c0 :: p1 =>
    match first (code c0) with
    | None => if code c0 <? RuneSelf then (code c0, 1%nat) else (RuneError, 1%nat)
    | Some (sz, lo, hi) =>
      match p1 with
      | [] => (RuneError, 1%nat)
      | c1 :: p2 =>
        if (code c1 <? lo) || (hi <? code c1) then (RuneError, 1%nat)
        else if (sz <=? 2)%nat then (dec2 (code c0) (code c1), 2%nat)
        else
          match p2 with
          | [] => (RuneError, 1%nat)
          | c2 :: p3 =>
            if negb (cont (code c2)) then (RuneError, 1%nat)
            else if (sz <=? 3)%nat then
              (dec3 (code c0) (code c1) (code c2), 3%nat)
            else
              match p3 with
              | [] => (RuneError, 1%nat)
              | c3 :: _ =>
                if negb (cont (code c3)) then (RuneError, 1%nat)
                else (dec4 (code c0) (code c1) (code c2) (code c3), 4%nat)
              end
          end
      end
    end
  end.

(** The low eight bits, as Go's [byte(r)] conversion takes them. *)
Definition lowbyte (n : N) : N := N.land n 0xFF.

Definition encode3 (r : N) : bytes :=
  [ byte_of (N.lor t3 (lowbyte (N.shiftr r 12)));
    byte_of (N.lor tx (N.land (lowbyte (N.shiftr r 6)) maskx));
    byte_of (N.lor tx (N.land (lowbyte r) maskx)) ].

(** [utf8.AppendRune] to an empty slice: the UTF-8 encoding of [r], the
    encoding of [RuneError] when [r] is a surrogate or out of range. *)
Definition EncodeRune (r : N) : bytes :=
  if r <=? 0x7F then [byte_of r]
  else if r <=? rune2Max then
    [ byte_of (N.lor t2 (lowbyte (N.shiftr r 6)));
      byte_of (N.lor tx (N.land (lowbyte r) maskx)) ]
  else if (MaxRune <? r) || ((surrogateMin <=? r) && (r <=? surrogateMax)) then
    encode3 RuneError
  else if r <=? rune3Max then encode3 r
  else
    [ byte_of (N.lor t4 (lowbyte (N.shiftr r 18)));
      byte_of (N.lor tx (N.land (lowbyte (N.shiftr r 12)) maskx));
      byte_of (N.lor tx (N.land (lowbyte (N.shiftr r 6)) maskx));
      byte_of (N.lor tx (N.land (lowbyte r) maskx)) ].

(** One position is ill-formed when it decodes to [(RuneError, 1)]. *)
Definition illformed (d : N * nat) : bool :=
  (fst d =? RuneError) && (snd d =? 1)%nat.

(** [utf8.Valid]: every position decodes to a well-formed rune. *)
Fixpoint valid_loop (fuel : nat) (p : bytes) : bool :=
  match fuel with
  | O => match p with [] => true | _ => false end
  | S fuel' =>
    match p with
    | [] => true
    | c :: _ =>
      let d := DecodeRune p in
      if illformed d then false else valid_loop fuel' (skipn (snd d) p)
    end
  end.

Definition Valid (p : bytes) : bool := valid_loop (length p) p.
Definition ValidString (s : string) : bool := Valid (bytes_of s).

(** The text coerced to well-formed UTF-8: every byte that starts no
    well-formed sequence becomes the encoding of [RuneError]. *)
Fixpoint coerce_loop (fuel : nat) (p : bytes) : bytes :=
  match fuel with
  | O => []
  | S fuel' =>
    match p with
    | [] => []
    | _ :: _ =>
      let d := DecodeRune p in
      if illformed d then EncodeRune RuneError ++ coerce_loop fuel' (skipn (snd d) p)
      else firstn (snd d) p ++ coerce_loop fuel' (skipn (snd d) p)
    end
  end.

Definition coerce (s : string) : string :=
  string_of (coerce_loop (length (bytes_of s)) (bytes_of s)).

End utf8.

(** ** The wire envelope and the diagnostic record *)

(** [chatMessage]: a single chat message, with the JSON keys [message],
    [senderid] and [sendername]. *)
Record chatMessage := mkChatMessage {
  Message : string;
  SenderID : string;
  SenderName : string
}.

(** [chatLog]: a log entry for the chat room. *)
Record chatLog := mkChatLog {
  Prefix : string;
  Msg : string
}.

#[global] Instance chatMessage_eq_dec : EqDecision chatMessage.
Proof. solve_decision. Defined.

#[global] Instance chatLog_eq_dec : EqDecision chatLog.
Proof. solve_decision. Defined.

(** The zero value of [var chatMsg chatMessage]. *)
Definition zeroMessage : chatMessage := mkChatMessage "" "" "".

(** The message with its three strings coerced to well-formed UTF-8. *)
Definition coerced (m : chatMessage) : chatMessage :=
  mkChatMessage (utf8.coerce (Message m)) (utf8.coerce (SenderID m))
                (utf8.coerce (SenderName m)).

(** ** encoding/json, as far as [chatMessage] reaches it *)
Module json.

Import utf8.

Notation "'let?' p ':=' a 'in' b" :=
  (match a with Some p => b | None => None end)
  (at level 10, p pattern, a at level 200, b at level 200, only parsing).

Definition isb (c : ascii) (n : N) : bool := code c =? n.

(** *** Encoding *)

Definition hex : bytes := bytes_of "0123456789abcdef".
Definition hexdigit (n : N) : ascii := nth (N.to_nat n) hex "0"%char.

(** [htmlSafeSet]: the ASCII bytes that [Marshal] copies unescaped. *)
Definition htmlSafeSet (b : N) : bool :=
  (0x20 <=? b) && negb (b =? 0x22) && negb (b =? 0x5C)
  && negb (b =? 0x3C) && negb (b =? 0x3E) && negb (b =? 0x26).

(** The escape written for an ASCII byte outside [htmlSafeSet]. Backspace
    and form feed are written with their short escapes, as current
    releases do; older ones wrote [\u0008] and [\u000c], which unquote to
    the same bytes. *)
Definition escapeByte (c : ascii) : bytes :=
  let b := code c in
  if (b =? 0x5C) || (b =? 0x22) then [bsl; c]
  else if b =? 0x08 then [bsl; "b"%char]
  else if b =? 0x0C then [bsl; "f"%char]
  else if b =? 0x0A then [bsl; "n"%char]
  else if b =? 0x0D then [bsl; "r"%char]
  else if b =? 0x09 then [bsl; "t"%char]
  else [bsl; "u"%char; "0"%char; "0"%char;
        hexdigit (N.shiftr b 4); hexdigit (N.land b 0xF)].

Definition ufffd : bytes := bsl :: bytes_of "ufffd".
Definition u202 : bytes := bsl :: bytes_of "u202".

(** The body of [appendString] with [escapeHTML] set, between the quotes. *)
Fixpoint appendString_loop (fuel : nat) (src : bytes) : bytes :=
  match fuel with
  | O => []
  | S fuel' =>
    match src with
    | [] => []
    | b :: rest =>
      if code b <? RuneSelf then
        (if htmlSafeSet (code b) then [b] else escapeByte b)
          ++ appendString_loop fuel' rest
      else
        let d := DecodeRune (firstn UTFMax src) in
        if illformed d then
          ufffd ++ appendString_loop fuel' (skipn (snd d) src)
        else if (fst d =? 0x2028) || (fst d =? 0x2029) then
          u202 ++ [hexdigit (N.land (fst d) 0xF)]
               ++ appendString_loop fuel' (skipn (snd d) src)
        else
          firstn (snd d) src ++ appendString_loop fuel' (skipn (snd d) src)
    end
  end.

Definition appendString (src : bytes) : bytes :=
  dq :: appendString_loop (length src) src ++ [dq].

(** A key as the encoder caches it: quoted, followed by the colon. *)
Definition nameEscHTML (name : string) : bytes :=
  dq :: bytes_of name ++ [dq; ":"%char].

(** [json.Marshal] of a [chatMessage]: the three fields in declaration
    order. A struct of strings never fails to encode. *)
Definition encode (m : chatMessage) : bytes :=
  "{"%char :: nameEscHTML "message" ++ appendString (bytes_of (Message m))
  ++ ","%char :: nameEscHTML "senderid" ++ appendString (bytes_of (SenderID m))
  ++ ","%char :: nameEscHTML "sendername" ++ appendString (bytes_of (SenderName m))
  ++ ["}"%char].

Inductive jsonError :=
| SyntaxError
| UnmarshalTypeError (value : string).

Definition Marshal (m : chatMessage) : bytes * option jsonError :=
  (encode m, None).

(** *** Scanning *)

Definition isSpace (c : ascii) : bool :=
  isb c 0x20 || isb c 0x09 || isb c 0x0D || isb c 0x0A.

Fixpoint skip_ws (s : bytes) : bytes :=
  match s with
  | c :: t => if isSpace c then skip_ws t else s
  | [] => []
  end.

Definition isDigit (c : ascii) : bool := (0x30 <=? code c) && (code c <=? 0x39).

Definition hexval (c : ascii) : option N :=
  let b := code c in
  if (0x30 <=? b) && (b <=? 0x39) then Some (b - 0x30)
  else if (0x61 <=? b) && (b <=? 0x66) then Some (b - 0x61 + 10)
  else if (0x41 <=? b) && (b <=? 0x46) then Some (b - 0x41 + 10)
  else None.

Definition cons_lit (l : bytes) (r : option (bytes * bytes)) : option (bytes * bytes) :=
  let? (lit, rest) := r in Some (l ++ lit, rest).

(** The scanner inside a string literal, after the opening quote: the raw
    body up to the closing quote, and what follows it. Control characters
    and escapes other than the nine of JSON are rejected. *)
Fixpoint scan_string (s : bytes) : option (bytes * bytes) :=
  match s with
  | [] => None
  | c :: t =>
    if isb c 0x22 then Some ([], t)
    else if isb c 0x5C then
      match t with
      | [] => None
      | e :: t1 =>
        if isb e 0x62 || isb e 0x66 || isb e 0x6E || isb e 0x72 || isb e 0x74
           || isb e 0x5C || isb e 0x2F || isb e 0x22
        then cons_lit [c; e] (scan_string t1)
        else if isb e 0x75 then
          match t1 with
          | h1 :: h2 :: h3 :: h4 :: t2 =>
            match hexval h1, hexval h2, hexval h3, hexval h4 with
            | Some _, Some _, Some _, Some _ =>
              cons_lit [c; e; h1; h2; h3; h4] (scan_string t2)
            | _, _, _, _ => None
            end
          | _ => None
          end
        else None
      end
    else if code c <? 0x20 then None
    else cons_lit [c] (scan_string t)
  end.

Fixpoint scan_digits (s : bytes) : bytes * bytes :=
  match s with
  | c :: t =>
    if isDigit c then let '(ds, r) := scan_digits t in (c :: ds, r) else ([], s)
  | [] => ([], [])
  end.

(** The number grammar of the scanner's states [stateNeg] to [stateE0]. *)
Definition scan_number (s : bytes) : option (bytes * bytes) :=
  let '(sign, s1) :=
    match s with
    | c :: t => if isb c 0x2D then ([c], t) else ([], s)
    | [] => ([], s)
    end in
  let? (int, s2) :=
    match s1 with
    | c :: t =>
      if isb c 0x30 then Some ([c], t)
      else if isDigit c then let '(ds, r) := scan_digits t in Some (c :: ds, r)
      else None
    | [] => None
    end in
  let? (frac, s3) :=
    match s2 with
    | c :: t =>
      if isb c 0x2E then
        match scan_digits t with
        | ([], _) => None
        | (ds, r) => Some (c :: ds, r)
        end
      else Some ([], s2)
    | [] => Some ([], s2)
    end in
  let? (exp, s4) :=
    match s3 with
    | c :: t =>
      if isb c 0x65 || isb c 0x45 then
        let '(sg, t1) :=
          match t with
          | c1 :: t' => if isb c1 0x2B || isb c1 0x2D then ([c1], t') else ([], t)
          | [] => ([], t)
          end in
        match scan_digits t1 with
        | ([], _) => None
        | (ds, r) => Some (c :: sg ++ ds, r)
        end
      else Some ([], s3)
    | [] => Some ([], s3)
    end in
  Some (sign ++ int ++ frac ++ exp, s4).

(** [s] starts with the bytes of [lit]: what follows them. *)
Fixpoint scan_literal (lit s : bytes) : option bytes :=
  match lit, s with
  | [], _ => Some s
  | l :: lit', c :: s' => if Ascii.eqb l c then scan_literal lit' s' else None
  | _ :: _, [] => None
  end.

(** *** Unquoting *)

(** [getu4]: the code unit of a [\uXXXX] escape at the head of [s]. *)
Definition getu4 (s : bytes) : option N :=
  match s with
  | b :: u :: h1 :: h2 :: h3 :: h4 :: _ =>
    if isb b 0x5C && isb u 0x75 then
      let? v1 := hexval h1 in let? v2 := hexval h2 in let? v3 := hexval h3 in let? v4 := hexval h4 in
      Some (((v1 * 16 + v2) * 16 + v3) * 16 + v4)
    else None
  | _ => None
  end.

Definition surr1 : N := 0xD800.
Definition surr2 : N := 0xDC00.
Definition surr3 : N := 0xE000.
Definition surrSelf : N := 0x10000.

(** [utf16.IsSurrogate] and [utf16.DecodeRune]; a missing second escape
    stands for Go's [-1]. *)
Definition IsSurrogate (r : N) : bool := (surr1 <=? r) && (r <? surr3).

Definition utf16_DecodeRune (r1 : N) (r2 : option N) : N :=
  match r2 with
  | Some r2 =>
    if (surr1 <=? r1) && (r1 <? surr2) && (surr2 <=? r2) && (r2 <? surr3)
    then N.lor (N.shiftl (r1 - surr1) 10) (r2 - surr2) + surrSelf
    else RuneError
  | None => RuneError
  end.

(** The single-character escapes [unquoteBytes] accepts. *)
Definition unescape (e : ascii) : option ascii :=
  if isb e 0x22 || isb e 0x5C || isb e 0x2F || isb e 0x27 then Some e
  else if isb e 0x62 then Some (byte_of 0x08)
  else if isb e 0x66 then Some (byte_of 0x0C)
  else if isb e 0x6E then Some (byte_of 0x0A)
  else if isb e 0x72 then Some (byte_of 0x0D)
  else if isb e 0x74 then Some (byte_of 0x09)
  else None.

(** [unquoteBytes] on the body of a literal: escapes are resolved, and every
    position is coerced to well-formed UTF-8. *)
Fixpoint unquote_loop (fuel : nat) (s : bytes) : option bytes :=
  match fuel with
  | O => match s with [] => Some [] | _ => None end
  | S fuel' =>
    match s with
    | [] => Some []
    | c :: r1 =>
      if isb c 0x5C then
        match r1 with
        | [] => None
        | e :: r2 =>
          match unescape e with
          | Some x => let? out := unquote_loop fuel' r2 in Some (x :: out)
          | None =>
            if isb e 0x75 then
              let? rr := getu4 s in
              let r6 := skipn 6 s in
              if IsSurrogate rr then
                let dec := utf16_DecodeRune rr (getu4 r6) in
                if negb (dec =? RuneError) then
                  let? out := unquote_loop fuel' (skipn 6 r6) in
                  Some (EncodeRune dec ++ out)
                else
                  let? out := unquote_loop fuel' r6 in
                  Some (EncodeRune RuneError ++ out)
              else
                let? out := unquote_loop fuel' r6 in
                Some (EncodeRune rr ++ out)
            else None
          end
        end
      else if isb c 0x22 || (code c <? 0x20) then None
      else if code c <? RuneSelf then
        let? out := unquote_loop fuel' r1 in Some (c :: out)
      else
        let d := DecodeRune s in
        let? out := unquote_loop fuel' (skipn (snd d) s) in
        Some (EncodeRune (fst d) ++ out)
    end
  end.

Definition unquote (raw : bytes) : option bytes :=
  unquote_loop (length raw) raw.

(** *** Values *)

#[warnings="-register-all"] Inductive value :=
| VNull
| VBool (b : bool)
| VNumber (lit : bytes)
| VString (s : bytes)
| VArray (elems : list value)
| VObject (members : list (bytes * value)).

Definition maxNestingDepth : N := 10000.

(** One JSON value at the head of [s] and what follows it. [depth] counts
    the containers already open; [fuel] bounds the number of calls. *)
Fixpoint parse_value (fuel : nat) (depth : N) (s : bytes) {struct fuel}
  : option (value * bytes) :=
  match fuel with
  | O => None
  | S f =>
    match skip_ws s with
    | [] => None
    | c :: t =>
      if isb c 0x7B then
        if maxNestingDepth <? depth + 1 then None
        else
          match skip_ws t with
          | [] => None
          | c1 :: t1 =>
            if isb c1 0x7D then Some (VObject [], t1)
            else let? (ms, r) := parse_members f (depth + 1) t in Some (VObject ms, r)
          end
      else if isb c 0x5B then
        if maxNestingDepth <? depth + 1 then None
        else
          match skip_ws t with
          | [] => None
          | c1 :: t1 =>
            if isb c1 0x5D then Some (VArray [], t1)
            else let? (es, r) := parse_elements f (depth + 1) t in Some (VArray es, r)
          end
      else if isb c 0x22 then
        let? (raw, r) := scan_string t in
        let? str := unquote raw in
        Some (VString str, r)
      else if isb c 0x74 then
        let? r := scan_literal (bytes_of "rue") t in Some (VBool true, r)
      else if isb c 0x66 then
        let? r := scan_literal (bytes_of "alse") t in Some (VBool false, r)
      else if isb c 0x6E then
        let? r := scan_literal (bytes_of "ull") t in Some (VNull, r)
      else if isb c 0x2D || isDigit c then
        let? (lit, r) := scan_number (c :: t) in Some (VNumber lit, r)
      else None
    end
  end

with parse_members (fuel : nat) (depth : N) (s : bytes) {struct fuel}
  : option (list (bytes * value) * bytes) :=
  match fuel with
  | O => None
  | S f =>
    match skip_ws s with
    | [] => None
    | q :: t =>
      if isb q 0x22 then
        let? (raw, r1) := scan_string t in
        let? key := unquote raw in
        match skip_ws r1 with
        | [] => None
        | colon :: r2 =>
          if isb colon 0x3A then
            let? (v, r3) := parse_value f depth r2 in
            match skip_ws r3 with
            | [] => None
            | sep :: r4 =>
              if isb sep 0x2C then
                let? (ms, r5) := parse_members f depth r4 in Some ((key, v) :: ms, r5)
              else if isb sep 0x7D then Some ([(key, v)], r4)
              else None
            end
          else None
        end
      else None
    end
  end

with parse_elements (fuel : nat) (depth : N) (s : bytes) {struct fuel}
  : option (list value * bytes) :=
  match fuel with
  | O => None
  | S f =>
    let? (v, r1) := parse_value f depth s in
    match skip_ws r1 with
    | [] => None
    | sep :: r2 =>
      if isb sep 0x2C then
        let? (es, r3) := parse_elements f depth r2 in Some (v :: es, r3)
      else if isb sep 0x5D then Some ([v], r2)
      else None
    end
  end.

(** [checkValid]: the whole input is one value between optional spaces.
    Of two calls that follow each other one consumes a byte, so twice the
    length of the input bounds the depth of the calls. *)
Definition parse (data : bytes) : option value :=
  let? (v, rest) := parse_value (2 * length data + 2) 0 data in
  match skip_ws rest with
  | [] => Some v
  | _ :: _ => None
  end.

(** *** Storing into the struct *)

Inductive field := FMessage | FSenderID | FSenderName.

Definition fieldName (f : field) : string :=
  match f with
  | FMessage => "message"
  | FSenderID => "senderid"
  | FSenderName => "sendername"
  end.

Definition allFields : list field := [FMessage; FSenderID; FSenderName].

Definition upper (c : ascii) : ascii :=
  if (0x61 <=? code c) && (code c <=? 0x7A) then byte_of (code c - 0x20) else c.

(** [foldName]: ASCII letters to upper case; the long s (U+017F) and the
    Kelvin sign (U+212A), the two other runes whose case orbit holds an
    ASCII letter, to [S] and [K]. Keys reach it unquoted, hence well-formed,
    so their encodings are matched as byte patterns. *)
Fixpoint foldName (s : bytes) : bytes :=
  match s with
  | [] => []
  | c :: t =>
    if code c <? RuneSelf then upper c :: foldName t
    else
      match t with
      | c1 :: t1 =>
        if isb c 0xC5 && isb c1 0xBF then "S"%char :: foldName t1
        else
          match t1 with
          | c2 :: t2 =>
            if isb c 0xE2 && isb c1 0x84 && isb c2 0xAA then "K"%char :: foldName t2
            else c :: foldName t
          | [] => c :: foldName t
          end
      | [] => [c]
      end
  end.

Definition bytes_eqb (a b : bytes) : bool := bool_decide (a = b).

(** The field a key selects: by exact name first, then by folded name. *)
Definition lookupField (key : bytes) : option field :=
  match find (fun f => bytes_eqb (bytes_of (fieldName f)) key) allFields with
  | Some f => Some f
  | None =>
    find (fun f => bytes_eqb (foldName (bytes_of (fieldName f))) (foldName key))
         allFields
  end.

Definition setField (f : field) (s : string) (m : chatMessage) : chatMessage :=
  match f with
  | FMessage => mkChatMessage s (SenderID m) (SenderName m)
  | FSenderID => mkChatMessage (Message m) s (SenderName m)
  | FSenderName => mkChatMessage (Message m) (SenderID m) s
  end.

Definition kindName (v : value) : string :=
  match v with
  | VNull => "null"
  | VBool _ => "bool"
  | VNumber _ => "number"
  | VString _ => "string"
  | VArray _ => "array"
  | VObject _ => "object"
  end.

Definition saveError (saved : option jsonError) (e : jsonError) : option jsonError :=
  match saved with
  | Some _ => saved
  | None => Some e
  end.

(** A value stored into a string field: a string is assigned, [null] leaves
    the field alone, anything else is a type error that is saved while
    decoding goes on. *)
Definition storeString (f : field) (v : value) (st : chatMessage * option jsonError)
  : chatMessage * option jsonError :=
  match v with
  | VString s => (setField f (string_of s) (fst st), snd st)
  | VNull => st
  | _ => (fst st, saveError (snd st) (UnmarshalTypeError (kindName v)))
  end.

(** [decodeState.object]: members in order, unknown keys skipped. *)
Definition object (members : list (bytes * value)) (st : chatMessage * option jsonError)
  : chatMessage * option jsonError :=
  fold_left
    (fun st kv =>
       match lookupField (fst kv) with
       | Some f => storeString f (snd kv) st
       | None => st
       end)
    members st.

(** [json.Unmarshal(data, &v)] for [v : chatMessage]: the value left in [v]
    and the error returned. *)
Definition Unmarshal (data : bytes) (v : chatMessage) : chatMessage * option jsonError :=
  match parse data with
  | None => (v, Some SyntaxError)
  | Some (VObject members) => object members (v, None)
  | Some VNull => (v, None)
  | Some other => (v, Some (UnmarshalTypeError (kindName other)))
  end.

End json.

(** ** The network substrate (go-libp2p-pubsub, as the chat room uses it) *)

(** A [peer.ID] is a Go string; an [error] is taken by its message. *)
Definition peerID := string.
Definition error := string.

Inductive result (A : Type) :=
| Ok (a : A)
| Err (e : error).
Arguments Ok {A} a.
Arguments Err {A} e.

(** What the session engine consumes from the host and its PubSub router.
    The router keeps its own state [Net]; topics and subscriptions are
    handles into it. Whether a call succeeds is the substrate's business,
    so every operation is a parameter of the development. *)
Record Substrate := {
  Net : Type;
  Topic : Type;
  Subscription : Type;
  HostID : Net -> peerID;
  Pretty : peerID -> string;
  Join : string -> Net -> result Topic * Net;
  Subscribe : Topic -> Net -> result Subscription * Net;
  Publish : Topic -> bytes -> Net -> option error * Net;
  ListPeers : Topic -> Net -> list peerID;
  Cancel : Subscription -> Net -> Net;
  Close : Topic -> Net -> option error * Net
}.

(** The calls made on the substrate, in order. *)
Inductive call :=
| CJoin (topic : string)
| CSubscribe
| CPublish (data : bytes)
| CCancel
| CClose.

(** ** Channels *)

(** Every channel of the program is made with [make(chan T, 1)]. *)
Definition capacity : nat := 1.

Record chan (A : Type) := mkChan {
  buf : list A;
  closed : bool
}.
Arguments mkChan {A} buf closed.
Arguments buf {A} c.
Arguments closed {A} c.

Definition make {A} : chan A := mkChan [] false.

Inductive sendResult (A : Type) :=
| Sent (c : chan A)
| WouldBlock
| SendOnClosed.
Arguments Sent {A} c.
Arguments WouldBlock {A}.
Arguments SendOnClosed {A}.

(** [c <- v] with no receiver waiting: the value is buffered when there is
    room, the sender parks when there is none, and a closed channel
    panics. *)
Definition send {A} (v : A) (c : chan A) : sendResult A :=
  if closed c then SendOnClosed
  else if (length (buf c) <? capacity)%nat then Sent (mkChan (buf c ++ [v]) false)
  else WouldBlock.

(** [<-c] as a case of a [select] that is ready: the head of the buffer,
    or the zero value when the channel is closed and empty; [None] when the
    case cannot fire. *)
Definition recv {A} (zero : A) (c : chan A) : option (A * chan A) :=
  match buf c with
  | x :: rest => Some (x, mkChan rest (closed c))
  | [] => if closed c then Some (zero, c) else None
  end.

(** ** The receive loop (subscribeLoop) *)

(** What [psSub.Next] hands back: an error, or a message with the peer it
    was received from and its payload. *)
Inductive nextResult :=
| NextErr
| NextMsg (ReceivedFrom : peerID) (Data : bytes).

(** What one pass through the [select] meets: the context already done, or
    the result of the blocking read. *)
Inductive observation :=
| CtxDone
| Next (r : nextResult).

(** What a loop does to its channels, in order. The loops are producers
    whose consumer is another goroutine, so a send that finds the buffer
    full only waits. *)
Inductive emission :=
| ToLogs (l : chatLog)
| ToInbound (m : chatMessage)
| CloseInbound.

#[global] Instance emission_eq_dec : EqDecision emission.
Proof. solve_decision. Defined.

(** One pass of the loop body for the session whose local identity is
    [self]: what the pass sends and closes, in order, and whether the loop
    goes on once all of it is done. Whether a send goes through is decided
    on the channels of the room, by [emit] below. *)
Definition subscribePass (self : peerID) (o : observation) : list emission * bool :=
  match o with
  | CtxDone => ([CloseInbound], false)
  | Next NextErr =>
    ([ToLogs (mkChatLog "suberr" "subscription closed"); CloseInbound], false)
  | Next (NextMsg from data) =>
    if bool_decide (from = self) then ([], true)
    else
      match json.Unmarshal data zeroMessage with
      | (_, Some _) => ([ToLogs (mkChatLog "suberr" "failed to unmarshal JSON")], true)
      | (chatMsg, None) => ([ToInbound chatMsg], true)
      end
  end.

(** The loop over what it meets: the emissions, and whether it is still
    running when the script ends. *)
Fixpoint subscribeLoop (self : peerID) (script : list observation)
  : list emission * bool :=
  match script with
  | [] => ([], true)
  | o :: rest =>
    let '(out, go_on) := subscribePass self o in
    if go_on then
      let '(out', running) := subscribeLoop self rest in (out ++ out', running)
    else (out, false)
  end.

Definition deliveries (tr : list emission) : list chatMessage :=
  omap (fun e => match e with ToInbound m => Some m | _ => None end) tr.

Definition logged (tr : list emission) : list chatLog :=
  omap (fun e => match e with ToLogs l => Some l | _ => None end) tr.

Definition closings (tr : list emission) : nat :=
  length (filter (fun e => e = CloseInbound) tr).

(** ** The command line (ui.go, createInputField) *)

(** [UICommand]: a user input command. *)
Record UICommand := mkUICommand {
  CommandType : string;
  Argument : string
}.

Inductive Key := KeyEnter | KeyOther.

(** [strings.HasPrefix]. *)
Definition HasPrefix (s pre : string) : bool := String.prefix pre s.

(** The text before the first space and, when there is one, the text after
    it. *)
Fixpoint cut_space (s : string) : string * option string :=
  match s with
  | EmptyString => (EmptyString, None)
  | String c t =>
    if Ascii.eqb c " "%char then (EmptyString, Some t)
    else let '(a, b) := cut_space t in (String c a, b)
  end.

(** [strings.SplitN(s, " ", 2)]. *)
Definition SplitN2 (s : string) : list string :=
  match cut_space s with
  | (a, None) => [a]
  | (a, Some b) => [a; b]
  end.

(** Where the done-handler of the input field sends a line. *)
Inductive routed :=
| Ignored
| ToCmdInputs (cmd : UICommand)
| ToMsgInputs (line : string).

(** The function given to [SetDoneFunc], on the text of the field. *)
Definition inputDone (key : Key) (line : string) : routed :=
  match key with
  | KeyEnter =>
    if (0 <? String.length line)%nat then
      if HasPrefix line "/" then
        let cmdParts := SplitN2 line in
        let arg :=
          if (1 <? length cmdParts)%nat then nth 1 cmdParts EmptyString
          else EmptyString in
        ToCmdInputs (mkUICommand (nth 0 cmdParts EmptyString) arg)
      else ToMsgInputs line
    else Ignored
  | KeyOther => Ignored
  end.

(** ** The session engine and the event loop over one shared state *)

(** The topic of a room: [fmt.Sprintf("room-peerchat-%s", roomName)]. *)
Definition topicName (roomName : string) : string :=
  ("room-peerchat-" ++ roomName)%string.

Section Engine.

Context {S : Substrate}.

(** [ChatRoom]: a PubSub-based chat room. The context and its cancel
    function are the flag [psDone]; [Host] is the one host of the process,
    whose state is the [net] of the world below. *)
Record ChatRoom := mkChatRoom {
  Inbound : chan chatMessage;
  Outbound : chan string;
  Logs : chan chatLog;
  RoomName : string;
  UserName : string;
  selfID : peerID;
  psDone : bool;
  psTopic : Topic S;
  psSub : Subscription S
}.

(** A [*ChatRoom]: the index of the room in the heap. *)
Definition ref := nat.

Inductive goroutine :=
| GoSubscribeLoop (cr : ref)
| GoPublishLoop (cr : ref).

(** Updates handed to [QueueUpdateDraw], in order. *)
Inductive draw :=
| DrawClear
| DrawTitle
| DrawMessage (self : bool) (sender message : string)
| DrawLog (l : chatLog)
| DrawPeers.

(** [UI]: the pointer to the active room, the label of the input field,
    the queued updates and whether [App.Stop] was called. *)
Record UI := mkUI {
  ui_ChatRoom : ref;
  InputLabel : string;
  draws : list draw;
  stopped : bool
}.

Record World := mkWorld {
  net : Net S;
  calls : list call;
  heap : list ChatRoom;
  spawned : list goroutine;
  ui : UI
}.

(** How a call made by the goroutine of [handleEvents] ends: it returns; or
    it parks on a send to the [Logs] or [Outbound] channel of a room; or it
    panics. *)
Inductive parkedOn :=
| OnLogs (cr : ref) (l : chatLog)
| OnOutbound (cr : ref) (msg : string).

Inductive outcome (A : Type) :=
| Done (a : A) (w : World)
| Parked (on : parkedOn) (w : World)
| Panic (w : World).
Arguments Done {A} a w.
Arguments Parked {A} on w.
Arguments Panic {A} w.

Definition world_of {A} (o : outcome A) : World :=
  match o with
  | Done _ w => w
  | Parked _ w => w
  | Panic w => w
  end.

Definition M (A : Type) := World -> outcome A.

Definition ret {A} (a : A) : M A := fun w => Done a w.

Definition bind {A B} (m : M A) (k : A -> M B) : M B :=
  fun w =>
    match m w with
    | Done a w' => k a w'
    | Parked on w' => Parked on w'
    | Panic w' => Panic w'
    end.

Notation "x <- m ;; k" := (bind m (fun x => k))
  (at level 100, m at next level, right associativity).
Notation "m ;;; k" := (bind m (fun _ => k))
  (at level 100, right associativity).

Definition get : M World := fun w => Done w w.
Definition put (w : World) : M unit := fun _ => Done tt w.
Definition modify (f : World -> World) : M unit := fun w => Done tt (f w).

Definition set_net (n : Net S) (w : World) : World :=
  mkWorld n (calls w) (heap w) (spawned w) (ui w).
Definition log_call (c : call) (w : World) : World :=
  mkWorld (net w) (calls w ++ [c]) (heap w) (spawned w) (ui w).
Definition set_heap (h : list ChatRoom) (w : World) : World :=
  mkWorld (net w) (calls w) h (spawned w) (ui w).
Definition spawn (g : goroutine) (w : World) : World :=
  mkWorld (net w) (calls w) (heap w) (spawned w ++ [g]) (ui w).
Definition set_ui (u : UI) (w : World) : World :=
  mkWorld (net w) (calls w) (heap w) (spawned w) u.

(** Dereferencing a room; a reference outside the heap is a nil
    dereference. *)
Definition deref (cr : ref) : M ChatRoom :=
  fun w => match heap w !! cr with Some r => Done r w | None => Panic w end.

Definition store (cr : ref) (r : ChatRoom) : M unit :=
  modify (fun w => set_heap (<[cr := r]> (heap w)) w).

(** *** The chat room *)

Definition set_UserName (name : string) (r : ChatRoom) : ChatRoom :=
  mkChatRoom (Inbound r) (Outbound r) (Logs r) (RoomName r) name (selfID r)
             (psDone r) (psTopic r) (psSub r).
Definition set_psDone (r : ChatRoom) : ChatRoom :=
  mkChatRoom (Inbound r) (Outbound r) (Logs r) (RoomName r) (UserName r) (selfID r)
             true (psTopic r) (psSub r).
Definition set_Logs (c : chan chatLog) (r : ChatRoom) : ChatRoom :=
  mkChatRoom (Inbound r) (Outbound r) c (RoomName r) (UserName r) (selfID r)
             (psDone r) (psTopic r) (psSub r).
Definition set_Inbound (c : chan chatMessage) (r : ChatRoom) : ChatRoom :=
  mkChatRoom c (Outbound r) (Logs r) (RoomName r) (UserName r) (selfID r)
             (psDone r) (psTopic r) (psSub r).
Definition set_Outbound (c : chan string) (r : ChatRoom) : ChatRoom :=
  mkChatRoom (Inbound r) c (Logs r) (RoomName r) (UserName r) (selfID r)
             (psDone r) (psTopic r) (psSub r).

(** [JoinChatRoom]: creates and returns a new ChatRoom instance. *)
Definition JoinChatRoom (username roomName : string) : M (result ref) :=
  fun w =>
    let '(joined, n1) := Join S (topicName roomName) (net w) in
    let w1 := log_call (CJoin (topicName roomName)) (set_net n1 w) in
    match joined with
    | Err err => Done (Err err) w1
    | Ok topic =>
      let '(subscribed, n2) := Subscribe S topic (net w1) in
      let w2 := log_call CSubscribe (set_net n2 w1) in
      match subscribed with
      | Err err => Done (Err err) w2
      | Ok sub =>
        let chatRoom :=
          mkChatRoom make make make roomName username (HostID S (net w2))
                     false topic sub in
        let cr := length (heap w2) in
        let w3 := set_heap (heap w2 ++ [chatRoom]) w2 in
        Done (Ok cr) (spawn (GoPublishLoop cr) (spawn (GoSubscribeLoop cr) w3))
      end
    end.

(** [Exit]: cancels the subscription and closes the topic; the deferred
    [psCancel] runs last. *)
Definition Exit (cr : ref) : M unit :=
  r <- deref cr ;;
  modify (fun w => log_call CCancel (set_net (Cancel S (psSub r) (net w)) w)) ;;;
  modify (fun w => log_call CClose (set_net (snd (Close S (psTopic r) (net w))) w)) ;;;
  r' <- deref cr ;;
  store cr (set_psDone r').

(** [UpdateUser]: updates the username for the chat room user. *)
Definition UpdateUser (cr : ref) (newUsername : string) : M unit :=
  r <- deref cr ;;
  store cr (set_UserName newUsername r).

(** [PeerList]. *)
Definition PeerList (cr : ref) : M (list peerID) :=
  r <- deref cr ;;
  w <- get ;;
  ret (ListPeers S (psTopic r) (net w)).

(** What one pass through the [select] of [publishLoop] meets. *)
Inductive pubObservation :=
| PubCtxDone
| Dequeued (message : string).

(** The envelope built for a dequeued text, from the room as it is then. *)
Definition envelope (r : ChatRoom) (message : string) : chatMessage :=
  mkChatMessage message (Pretty S (selfID r)) (UserName r).

(** One pass of [publishLoop] for room [cr]: the emissions and whether the
    loop goes on. *)
Definition publishPass (cr : ref) (o : pubObservation) : M (list emission * bool) :=
  match o with
  | PubCtxDone => ret ([], false)
  | Dequeued message =>
    r <- deref cr ;;
    let chatMsg := envelope r message in
    match json.Marshal chatMsg with
    | (_, Some _) => ret ([ToLogs (mkChatLog "puberr" "failed to marshal JSON")], true)
    | (msgBytes, None) =>
      w <- get ;;
      let '(err, n) := Publish S (psTopic r) msgBytes (net w) in
      put (log_call (CPublish msgBytes) (set_net n w)) ;;;
      match err with
      | Some _ => ret ([ToLogs (mkChatLog "puberr" "failed to publish message")], true)
      | None => ret ([], true)
      end
    end
  end.

Fixpoint publishLoop (cr : ref) (script : list pubObservation)
  : M (list emission * bool) :=
  match script with
  | [] => ret ([], true)
  | o :: rest =>
    p <- publishPass cr o ;;
    if snd p then
      q <- publishLoop cr rest ;;
      ret (fst p ++ fst q, snd q)
    else ret (fst p, false)
  end.

(** *** The UI (ui.go) *)

(** [ui.Logs <- l], sent by the goroutine of [handleEvents]. *)
Definition sendLog (l : chatLog) : M unit :=
  fun w =>
    let cr := ui_ChatRoom (ui w) in
    match heap w !! cr with
    | None => Panic w
    | Some r =>
      match send l (Logs r) with
      | Sent c => Done tt (set_heap (<[cr := set_Logs c r]> (heap w)) w)
      | WouldBlock => Parked (OnLogs cr l) w
      | SendOnClosed => Panic w
      end
    end.

(** [ui.Outbound <- msg]. *)
Definition sendOutbound (msg : string) : M unit :=
  fun w =>
    let cr := ui_ChatRoom (ui w) in
    match heap w !! cr with
    | None => Panic w
    | Some r =>
      match send msg (Outbound r) with
      | Sent c => Done tt (set_heap (<[cr := set_Outbound c r]> (heap w)) w)
      | WouldBlock => Parked (OnOutbound cr msg) w
      | SendOnClosed => Panic w
      end
    end.

Definition queueDraw (d : draw) : M unit :=
  modify (fun w =>
    set_ui (mkUI (ui_ChatRoom (ui w)) (InputLabel (ui w)) (draws (ui w) ++ [d])
                 (stopped (ui w))) w).

Definition setLabel (l : string) : M unit :=
  modify (fun w =>
    set_ui (mkUI (ui_ChatRoom (ui w)) l (draws (ui w)) (stopped (ui w))) w).

Definition setChatRoom (cr : ref) : M unit :=
  modify (fun w =>
    set_ui (mkUI cr (InputLabel (ui w)) (draws (ui w)) (stopped (ui w))) w).

Definition stopApp : M unit :=
  modify (fun w =>
    set_ui (mkUI (ui_ChatRoom (ui w)) (InputLabel (ui w)) (draws (ui w)) true) w).

Definition current : M ref := fun w => Done (ui_ChatRoom (ui w)) w.

(** [Close]: stops the UI and leaves the chat room. *)
Definition UI_Close : M unit :=
  cr <- current ;;
  r <- deref cr ;;
  store cr (set_psDone r) ;;;
  stopApp.

(** [switchRoom]: switches the chat room. The one-second sleep is not
    modelled. *)
Definition switchRoom (roomName : string) : M unit :=
  sendLog (mkChatLog "info" ("switching to room '" ++ roomName ++ "'")) ;;;
  cr <- current ;;
  r <- deref cr ;;
  joined <- JoinChatRoom (UserName r) roomName ;;
  match joined with
  | Err err => sendLog (mkChatLog "error" ("could not switch rooms: " ++ err))
  | Ok newChatRoom =>
    Exit cr ;;;
    setChatRoom newChatRoom ;;;
    queueDraw DrawClear ;;;
    queueDraw DrawTitle
  end.

(** [processCommand]: interprets and executes user commands. *)
Definition processCommand (cmd : UICommand) : M unit :=
  if String.eqb (CommandType cmd) "/exit" then UI_Close
  else if String.eqb (CommandType cmd) "/clear" then queueDraw DrawClear
  else if String.eqb (CommandType cmd) "/room" then
    if String.eqb (Argument cmd) "" then
      sendLog (mkChatLog "error" "missing room name")
    else switchRoom (Argument cmd)
  else if String.eqb (CommandType cmd) "/user" then
    if String.eqb (Argument cmd) "" then
      sendLog (mkChatLog "error" "missing username")
    else
      cr <- current ;;
      UpdateUser cr (Argument cmd) ;;;
      r <- deref cr ;;
      setLabel (UserName r ++ " > ")
  else
    sendLog (mkChatLog "error" ("unsupported command: " ++ CommandType cmd)).

(** [displayMessage], [displayLog] and [updatePeerBox] queue an update of
    the display. *)
Definition displayMessage (self : bool) (sender message : string) : M unit :=
  queueDraw (DrawMessage self sender message).
Definition displayLog (l : chatLog) : M unit := queueDraw (DrawLog l).
Definition updatePeerBox : M unit := queueDraw DrawPeers.

(** [<-ui.Inbound] and [<-ui.Logs], on the room the UI points to. *)
Definition recvInbound : M (option chatMessage) :=
  fun w =>
    let cr := ui_ChatRoom (ui w) in
    match heap w !! cr with
    | None => Panic w
    | Some r =>
      match recv zeroMessage (Inbound r) with
      | Some (m, c) => Done (Some m) (set_heap (<[cr := set_Inbound c r]> (heap w)) w)
      | None => Done None w
      end
    end.

Definition recvLogs : M (option chatLog) :=
  fun w =>
    let cr := ui_ChatRoom (ui w) in
    match heap w !! cr with
    | None => Panic w
    | Some r =>
      match recv (mkChatLog "" "") (Logs r) with
      | Some (l, c) => Done (Some l) (set_heap (<[cr := set_Logs c r]> (heap w)) w)
      | None => Done None w
      end
    end.

(** The case of the [select] of [handleEvents] that fires. *)
Inductive fired :=
| FromMsgInputs (msg : string)
| FromCmdInputs (cmd : UICommand)
| FromInbound
| FromLogs
| FromTicker
| FromDone.

(** One pass of [handleEvents]: whether the loop goes on. *)
Definition handlePass (f : fired) : M bool :=
  match f with
  | FromMsgInputs msg =>
    sendOutbound msg ;;;
    cr <- current ;;
    r <- deref cr ;;
    displayMessage true (UserName r) msg ;;;
    ret true
  | FromCmdInputs cmd =>
    processCommand cmd ;;;
    ret true
  | FromInbound =>
    got <- recvInbound ;;
    match got with
    | Some msg => displayMessage false (SenderName msg) (Message msg)
    | None => ret tt
    end ;;;
    ret true
  | FromLogs =>
    got <- recvLogs ;;
    match got with
    | Some log => displayLog log
    | None => ret tt
    end ;;;
    ret true
  | FromTicker =>
    updatePeerBox ;;;
    ret true
  | FromDone => ret false
  end.

(** [handleEvents]: processes user inputs, logs, and peer updates. *)
Fixpoint handleEvents (script : list fired) : M bool :=
  match script with
  | [] => ret true
  | f :: rest =>
    go_on <- handlePass f ;;
    if go_on then handleEvents rest else ret false
  end.

(** A committed line, from the done-handler of the input field to the pass
    of the event loop that takes it. *)
Definition onLine (line : string) : M bool :=
  match inputDone KeyEnter line with
  | Ignored => ret true
  | ToCmdInputs cmd => handlePass (FromCmdInputs cmd)
  | ToMsgInputs msg => handlePass (FromMsgInputs msg)
  end.

(** A room with nothing pending between the event loop and the loops of
    the session: the log channel and the outbound channel are open and
    empty, as they are whenever no other goroutine has raced ahead of the
    event loop. *)
Definition drained (r : ChatRoom) : Prop :=
  Logs r = make /\ Outbound r = make.

End Engine.

Arguments ChatRoom S : clear implicits.
Arguments World S : clear implicits.
Arguments Done {S A} a w.
Arguments Parked {S A} on w.
Arguments Panic {S A} w.
Arguments world_of {S A} o.

(** ** A substrate to run the engine on

    A router in the manner of go-libp2p-pubsub, reduced to the names of the
    topics that are joined: joining a topic twice is refused, and a closed
    topic takes no subscription and no publication. *)
Definition joinedTo (t : string) (n : list string) : bool :=
  existsb (String.eqb t) n.

Definition pubsub : Substrate := {|
  Net := list string;
  Topic := string;
  Subscription := string;
  HostID := fun _ => "QmLocal";
  Pretty := fun id => id;
  Join := fun t n =>
    if joinedTo t n then (Err "topic already exists", n) else (Ok t, t :: n);
  Subscribe := fun t n =>
    if joinedTo t n then (Ok t, n) else (Err "this Topic is closed", n);
  Publish := fun t _ n =>
    if joinedTo t n then (None, n) else (Some "this Topic is closed", n);
  ListPeers := fun _ _ => [];
  Cancel := fun _ n => n;
  Close := fun t n => (None, filter (fun t' => negb (String.eqb t t')) n)
|}.

(** The same router while it shuts down: a topic can still be joined, but
    takes no subscription. *)
Definition pubsubClosing : Substrate := {|
  Net := list string;
  Topic := string;
  Subscription := string;
  HostID := fun _ => "QmLocal";
  Pretty := fun id => id;
  Join := Join pubsub;
  Subscribe := fun _ n => (Err "pubsub is closing", n);
  Publish := Publish pubsub;
  ListPeers := fun _ _ => [];
  Cancel := fun _ n => n;
  Close := Close pubsub
|}.

(** The world after [main] has joined [roomName] as [username] and built
    the UI. *)
Definition NewUI (cr : ref) (username : string) : UI :=
  mkUI cr (username ++ " > ") [] false.

Definition boot (username roomName : string) : World pubsub :=
  world_of (JoinChatRoom username roomName
              (mkWorld (S := pubsub) [] [] [] [] (NewUI 0%nat username))).

(** A byte that is not ASCII. *)
Definition high (c : ascii) : bool := utf8.RuneSelf <=? code c.

(** ** Which JSON values decode into the envelope *)

(** The values a string field takes without a type error: a string, which
    is assigned, and [null], which leaves the field alone. *)
Definition storable (v : json.value) : bool :=
  match v with
  | json.VString _ | json.VNull => true
  | _ => false
  end.

(** The JSON values [Unmarshal] stores into a [chatMessage] without error:
    [null], and an object whose members under a key of the struct are
    storable. *)
Definition acceptable (v : json.value) : Prop :=
  match v with
  | json.VNull => True
  | json.VObject members =>
    Forall (fun kv => json.lookupField (fst kv) = None \/ storable (snd kv) = true) members
  | _ => False
  end.

Import utf8 json.

(** The decoder, read as a relation: the shape of the input, the rune and
    the width. *)
Inductive decoded : bytes -> N -> nat -> Prop :=
| dec_empty : decoded [] RuneError 0
| dec_ascii c t : code c < RuneSelf -> decoded (c :: t) (code c) 1
| dec_bad c t : RuneSelf <= code c -> decoded (c :: t) RuneError 1
| dec_two c0 c1 t lo hi :
    first (code c0) = Some (2%nat, lo, hi) ->
    (code c1 <? lo) || (hi <? code c1) = false ->
    decoded (c0 :: c1 :: t) (dec2 (code c0) (code c1)) 2
| dec_three c0 c1 c2 t lo hi :
    first (code c0) = Some (3%nat, lo, hi) ->
    (code c1 <? lo) || (hi <? code c1) = false ->
    cont (code c2) = true ->
    decoded (c0 :: c1 :: c2 :: t) (dec3 (code c0) (code c1) (code c2)) 3
| dec_four c0 c1 c2 c3 t lo hi :
    first (code c0) = Some (4%nat, lo, hi) ->
    (code c1 <? lo) || (hi <? code c1) = false ->
    cont (code c2) = true ->
    cont (code c3) = true ->
    decoded (c0 :: c1 :: c2 :: c3 :: t)
            (dec4 (code c0) (code c1) (code c2) (code c3)) 4.

(** The coerced text of a string, as bytes. *)
Definition coerced_bytes (s : string) : bytes :=
  coerce_loop (length (bytes_of s)) (bytes_of s).

(** The escaped text of a string, between its quotes. *)
Definition body (s : string) : bytes :=
  appendString_loop (length (bytes_of s)) (bytes_of s).

(** ** Sample data *)

Definition hello : chatMessage := mkChatMessage "hello" "QmRemote" "bob".

Definition forged : chatMessage := mkChatMessage "hi" "QmLocal" "mallory".

Definition accented : chatMessage :=
  mkChatMessage
    (string_of (bytes_of "caf" ++ [byte_of 0xC3; byte_of 0xA9; dq; bsl; byte_of 0x0A]
                ++ bytes_of " <b>&" ++ map byte_of [0xE2; 0x80; 0xA8; 0xF0; 0x9F; 0x98; 0x80]))
    "QmRemote" "bob".

Definition illformedName : chatMessage :=
  mkChatMessage "hi" "QmRemote" (string_of [byte_of 0xFF]).

(** A JSON object of another protocol: [{"text":7}]. *)
Definition strangerPayload : bytes :=
  "{"%char :: dq :: bytes_of "text" ++ dq :: bytes_of ":7}".

Definition lobby : World pubsub := boot "alice" "lobby".

Definition lobbyRoom : ChatRoom pubsub :=
  mkChatRoom (S := pubsub) make make make "lobby" "alice" "QmLocal" false
             "room-peerchat-lobby" "room-peerchat-lobby".

(** The same world once the receive loop has returned and closed the
    inbound channel. *)
Definition lobbyEnded : World pubsub :=
  set_heap [set_Inbound (mkChan [] true) lobbyRoom] lobby.

(** The lobby while an entry of the receive loop waits in the log channel. *)
Definition lobbyLogged : World pubsub :=
  set_heap [set_Logs (mkChan [mkChatLog "suberr" "failed to unmarshal JSON"] false)
                     lobbyRoom] lobby.


(** A process on the closing router that has no room yet. *)
Definition closing : World pubsubClosing :=
  mkWorld (S := pubsubClosing) [] [] [] [] (NewUI 0%nat "alice").

(** ** The loops, the display and the event loop, further *)


(** The peer-to-peer envelopes a receive loop reads, each with the peer
    it was received from. *)
Definition received (from : peerID) (m : chatMessage) : observation :=
  Next (NextMsg from (json.encode m)).

(** The line feed that ends a line written to a text view. *)
Definition lf : string := String "010"%char EmptyString.

(** [pretty[len(pretty)-8:]]: the last eight bytes; on a shorter string
    the slice bounds are out of range and the expression panics. *)
Definition shortID (pretty : string) : option string :=
  if (String.length pretty <? 8)%nat then None
  else Some (string_of (skipn (String.length pretty - 8) (bytes_of pretty))).

Section Further.

Context {S : Substrate}.

(** The function [updatePeerBox] hands to [QueueUpdateDraw], on the peers
    it ranges over: the text written to the cleared peer box, [None] when
    the slice expression panics. *)
Fixpoint peerBoxText (peers : list peerID) : option string :=
  match peers with
  | [] => Some EmptyString
  | peer :: rest =>
    match shortID (Pretty S peer) with
    | None => None
    | Some short =>
      match peerBoxText rest with
      | None => None
      | Some text => Some ("[yellow]" ++ short ++ "[-]" ++ lf ++ text)%string
      end
    end
  end.

(** The same function when it runs: the peers are those of the room the
    UI points to then. *)
Definition drawPeers : @M S (option string) :=
  bind current (fun cr => bind (PeerList cr) (fun peers => ret (peerBoxText peers))).

(** [message := <-cr.Outbound], the case of the select of [publishLoop]
    that fires when a text waits in the outbound channel: the text is taken
    out of the channel and the pass runs on it. With nothing to receive the
    case does not fire. *)
Definition publishTurn (cr : ref) : @M S (option (list emission * bool)) :=
  bind (deref cr) (fun r =>
    match recv EmptyString (Outbound r) with
    | Some (message, c) =>
      bind (store cr (set_Outbound c r)) (fun _ =>
      bind (publishPass cr (Dequeued message)) (fun out => ret (Some out)))
    | None => ret None
    end).

(** *** The sends of the receive loop on the channels of its room *)

(** How far a loop gets with what it emits: through all of it; or parked on
    a send that finds its channel full, until another goroutine receives
    from that channel; or into a panic, on a send on a closed channel or
    the close of a closed channel. *)
Inductive emitted :=
| Completed (r : ChatRoom S)
| Waiting (e : emission) (r : ChatRoom S)
| Crashed (r : ChatRoom S).

(** The emissions of a loop, in order, on the channels of its room as long
    as no other goroutine receives: [cr.Logs <- l], [cr.Inbound <- m] and
    [close(cr.Inbound)]. *)
Fixpoint emit (tr : list emission) (r : ChatRoom S) : emitted :=
  match tr with
  | [] => Completed r
  | ToLogs l :: rest =>
    match send l (Logs r) with
    | Sent c => emit rest (set_Logs c r)
    | WouldBlock => Waiting (ToLogs l) r
    | SendOnClosed => Crashed r
    end
  | ToInbound m :: rest =>
    match send m (Inbound r) with
    | Sent c => emit rest (set_Inbound c r)
    | WouldBlock => Waiting (ToInbound m) r
    | SendOnClosed => Crashed r
    end
  | CloseInbound :: rest =>
    if closed (Inbound r) then Crashed r
    else emit rest (set_Inbound (mkChan (buf (Inbound r)) true) r)
  end.

(** *** What the event loop relies on, and what it keeps *)

(** The UI points to a room of the heap, and the two channels the event
    loop sends on are open in every room. *)
Definition sound (w : World S) : Prop :=
  (ui_ChatRoom (ui w) < length (heap w))%nat
  /\ Forall (fun r => closed (Logs r) = false /\ closed (Outbound r) = false) (heap w).

(** A reference that points to a room of the heap. *)
Definition allocated (cr : ref) (w : World S) : Prop :=
  (cr < length (heap w))%nat.

(** The assertion that holds of every world. *)
Definition any : World S -> Prop := fun _ => True.

(** From a sound world in which [P] holds, [m] does not panic; it leaves a
    sound world, in which, when [m] returns, no room has gone and [Q] holds
    of the result. *)
Definition triple {A} (P : World S -> Prop) (m : @M S A)
           (Q : A -> World S -> Prop) : Prop :=
  forall w, sound w -> P w ->
    match m w with
    | Done a w' => sound w' /\ (length (heap w) <= length (heap w'))%nat /\ Q a w'
    | Parked _ w' => sound w'
    | Panic _ => False
    end.

(** [w'] keeps the rooms of [w]: every room is still where it was, with
    its name, identity, topic and subscription, with each channel closed
    or open as it was, and cancelled if it was. *)
Definition keeps (w w' : World S) : Prop :=
  forall i x, heap w !! i = Some x ->
    exists y, heap w' !! i = Some y
      /\ RoomName y = RoomName x /\ selfID y = selfID x
      /\ psTopic y = psTopic x /\ psSub y = psSub x
      /\ closed (Inbound y) = closed (Inbound x)
      /\ closed (Outbound y) = closed (Outbound x)
      /\ closed (Logs y) = closed (Logs x)
      /\ (psDone x = true -> psDone y = true).

(** [m] keeps the rooms of the world it starts from, however it ends. *)
Definition keeping {A} (m : @M S A) : Prop :=
  forall w, keeps w (world_of (m w)).

End Further.

(** ** Peer discovery (connect.go) and the choice of its method (main.go) *)

Definition SERVICE : string := "peernet".

(** [peer.AddrInfo]. *)
Record AddrInfo := mkAddrInfo {
  ID : peerID;
  Addrs : list string
}.

#[global] Instance AddrInfo_eq_dec : EqDecision AddrInfo.
Proof. solve_decision. Defined.

(** What discovery consumes from the host, the DHT and the routing
    discovery, and from the hashing libraries. [Dht] is their state; a
    channel of peers is the list of what it yields before it is closed. *)
Record Routing := {
  Dht : Type;
  Cid : Type;
  Undef : Cid;
  Sum256 : bytes -> bytes;
  multihash_Encode : bytes -> N -> result bytes;
  NewCidV1 : N -> bytes -> Cid;
  NodeID : Dht -> peerID;
  Advertise : string -> Dht -> result N * Dht;
  FindPeers : string -> Dht -> result (list AddrInfo) * Dht;
  Provide : Cid -> bool -> Dht -> option error * Dht;
  FindProvidersAsync : Cid -> nat -> Dht -> list AddrInfo * Dht;
  Connect : AddrInfo -> Dht -> option error * Dht
}.

(** [multihash.SHA2_256] and [cid.Raw]. *)
Definition SHA2_256 : N := 0x12.
Definition Raw : N := 0x55.

Section Discovery.

Context {R : Routing}.

(** The calls made on the network, in order. *)
Inductive dcall :=
| DAdvertise (ns : string)
| DFindPeers (ns : string)
| DProvide (c : Cid R)
| DFindProviders (c : Cid R)
| DConnect (peer : AddrInfo).

(** [PeerNetwork], by its state: the network, the calls made on it, and
    the peer channels handed to a started [handlePeerDiscovery]. *)
Record PeerNetwork := mkPeerNetwork {
  dht : Dht R;
  dcalls : list dcall;
  discoveries : list (list AddrInfo)
}.

Definition called (c : dcall) (d : Dht R) (p : PeerNetwork) : PeerNetwork :=
  mkPeerNetwork d (dcalls p ++ [c]) (discoveries p).

Definition discovering (peerChan : list AddrInfo) (p : PeerNetwork) : PeerNetwork :=
  mkPeerNetwork (dht p) (dcalls p) (discoveries p ++ [peerChan]).

(** [generateCID]: the CID of a name, from its SHA-256 digest wrapped as a
    multihash. *)
Definition generateCID (name : string) : Cid R * option error :=
  let hash := Sum256 R (bytes_of name) in
  let finalHash := [byte_of 0x12; byte_of 0x20] ++ hash in
  match multihash_Encode R finalHash SHA2_256 with
  | Err err => (Undef R, Some err)
  | Ok multiHash => (NewCidV1 R Raw multiHash, None)
  end.

(** [AdvertiseConnect]: advertises the service and connects to peers. The
    five-second sleep is not modelled. *)
Definition AdvertiseConnect (p : PeerNetwork) : option error * PeerNetwork :=
  let '(advertised, d1) := Advertise R SERVICE (dht p) in
  let p1 := called (DAdvertise SERVICE) d1 p in
  match advertised with
  | Err err => (Some err, p1)
  | Ok ttl =>
    let '(found, d2) := FindPeers R SERVICE (dht p1) in
    let p2 := called (DFindPeers SERVICE) d2 p1 in
    match found with
    | Err err => (Some err, p2)
    | Ok peerChan => (None, discovering peerChan p2)
    end
  end.

(** [AnnounceConnect]: announces the service CID and connects to peers. *)
Definition AnnounceConnect (p : PeerNetwork) : option error * PeerNetwork :=
  match generateCID SERVICE with
  | (_, Some err) => (Some err, p)
  | (cidValue, None) =>
    let '(failed, d1) := Provide R cidValue true (dht p) in
    let p1 := called (DProvide cidValue) d1 p in
    match failed with
    | Some err => (Some err, p1)
    | None =>
      let '(peerChan, d2) := FindProvidersAsync R cidValue 0%nat (dht p1) in
      (None, discovering peerChan (called (DFindProviders cidValue) d2 p1))
    end
  end.

(** [handlePeerDiscovery]: connects to the discovered peers, as the channel
    yields them. *)
Fixpoint handlePeerDiscovery (peerChan : list AddrInfo) (p : PeerNetwork) : PeerNetwork :=
  match peerChan with
  | [] => p
  | peer :: rest =>
    if bool_decide (ID peer <> NodeID R (dht p)) then
      handlePeerDiscovery rest (called (DConnect peer) (snd (Connect R peer (dht p))) p)
    else handlePeerDiscovery rest p
  end.

(** [connectToPeers] of [main]: peer discovery by the method named on the
    command line. *)
Definition connectToPeers (p2pHost : PeerNetwork) (discoveryMethod : string)
  : option error * PeerNetwork :=
  if String.eqb discoveryMethod "announce" then (None, snd (AnnounceConnect p2pHost))
  else if String.eqb discoveryMethod "advertise" then (None, snd (AdvertiseConnect p2pHost))
  else (None, snd (AdvertiseConnect p2pHost)).

(** The peers dialed, in order. *)
Definition dialed (cs : list dcall) : list AddrInfo :=
  omap (fun c => match c with DConnect peer => Some peer | _ => None end) cs.

End Discovery.

Arguments dcall R : clear implicits.
Arguments PeerNetwork R : clear implicits.

(** A network to run discovery on: the state is the list of the peers the
    host is connected to; the rendezvous yields the host itself among the
    peers it finds, and one peer that cannot be reached. *)
Definition kadPeers : list AddrInfo :=
  [mkAddrInfo "QmRemote" []; mkAddrInfo "QmLocal" []; mkAddrInfo "QmGone" [];
   mkAddrInfo "QmRemote" []].

Definition kad : Routing := {|
  Dht := list peerID;
  Cid := bytes;
  Undef := [];
  Sum256 := fun _ => repeat (byte_of 0) 32%nat;
  multihash_Encode := fun buf c => Ok (byte_of c :: byte_of (N.of_nat (length buf)) :: buf);
  NewCidV1 := fun codec mh => byte_of 1 :: byte_of codec :: mh;
  NodeID := fun _ => "QmLocal";
  Advertise := fun _ d => (Ok 10800, d);
  FindPeers := fun _ d => (Ok kadPeers, d);
  Provide := fun _ _ d => (None, d);
  FindProvidersAsync := fun _ _ d => (kadPeers, d);
  Connect := fun peer d =>
    if String.eqb (ID peer) "QmGone" then (Some "dial backoff", d)
    else (None, ID peer :: d)
|}.

(** The same network with no route to the rendezvous. *)
Definition kadOffline : Routing := {|
  Dht := list peerID;
  Cid := bytes;
  Undef := [];
  Sum256 := Sum256 kad;
  multihash_Encode := multihash_Encode kad;
  NewCidV1 := NewCidV1 kad;
  NodeID := fun _ => "QmLocal";
  Advertise := fun _ d => (Err "failed to find any peer in table", d);
  FindPeers := fun _ d => (Ok [], d);
  Provide := fun _ _ d => (Some "failed to find any peer in table", d);
  FindProvidersAsync := fun _ _ d => ([], d);
  Connect := Connect kad
|}.

Definition fresh (R : Routing) (d : Dht R) : PeerNetwork R :=
  mkPeerNetwork (R := R) d [] [].

(** ** More sample data *)

(** The room [lobby] as the switch to [den] leaves it: its context is
    cancelled and the entry of the switch waits in its log channel. *)
Definition lobbyLeft : ChatRoom pubsub :=
  set_psDone (set_Logs (mkChan [mkChatLog "info" "switching to room 'den'"] false)
                       lobbyRoom).


(** An evening at the keyboard: a message, a rename, a switch that fails
    on the room already joined. *)
Definition evening : list fired :=
  [FromMsgInputs "hi"; FromTicker; FromCmdInputs (mkUICommand "/user" "bob"); FromLogs;
   FromInbound; FromCmdInputs (mkUICommand "/room" "den"); FromLogs;
   FromCmdInputs (mkUICommand "/room" "den"); FromDone].

(** The router of [pubsub] with two peers on every topic. *)
Definition pubsubPeers : Substrate := {|
  Net := list string;
  Topic := string;
  Subscription := string;
  HostID := HostID pubsub;
  Pretty := fun id => id;
  Join := Join pubsub;
  Subscribe := Subscribe pubsub;
  Publish := Publish pubsub;
  ListPeers := fun _ _ =>
    ["QmYyQSo1c1Ym7orWxLYvCrM2EmxFTANf8wXmmE7DWjhx5N";
     "QmcZf59bWwK5XFi76CZX8cbJ4BhTzzA3gU1ZjYZcYW3dwt"];
  Cancel := Cancel pubsub;
  Close := Close pubsub
|}.

Definition lobbyPeers : World pubsubPeers :=
  world_of (JoinChatRoom "alice" "lobby"
              (mkWorld (S := pubsubPeers) [] [] [] [] (NewUI 0%nat "alice"))).

(** An envelope with one more member, [{"message":"hi","likes":[1,2]}], and
    one whose text is a number, [{"sendername":"bob","message":5}]. *)
Definition extendedPayload : bytes :=
  "{"%char :: dq :: bytes_of "message" ++ dq :: ":"%char :: dq :: bytes_of "hi"
  ++ dq :: ","%char :: dq :: bytes_of "likes" ++ dq :: bytes_of ":[1,2]}".

Definition mistypedPayload : bytes :=
  "{"%char :: dq :: bytes_of "sendername" ++ dq :: ":"%char :: dq :: bytes_of "bob"
  ++ dq :: ","%char :: dq :: bytes_of "message" ++ dq :: bytes_of ":5}".

(** A router on which closing a topic fails. *)
Definition pubsubStuck : Substrate := {|
  Net := list string;
  Topic := string;
  Subscription := string;
  HostID := HostID pubsub;
  Pretty := fun id => id;
  Join := Join pubsub;
  Subscribe := Subscribe pubsub;
  Publish := Publish pubsub;
  ListPeers := ListPeers pubsub;
  Cancel := Cancel pubsub;
  Close := fun _ n => (Some "cannot close topic: outstanding event handlers or subscriptions", n)
|}.

Definition lobbyStuck : World pubsubStuck :=
  world_of (JoinChatRoom "alice" "lobby"
              (mkWorld (S := pubsubStuck) [] [] [] [] (NewUI 0%nat "alice"))).

(** * Properties *)

(** ** UTF-8: encoding what was decoded *)

Lemma byte_of_code c : byte_of (code c) = c.
Proof. apply ascii_N_embedding. Qed.

Lemma code_byte_of n : n < 256 -> code (byte_of n) = n.
Proof. apply N_ascii_embedding. Qed.

Lemma code_lt c : code c < 256.
Proof. apply N_ascii_bounded. Qed.

(** *** Bit operations on disjoint fields are arithmetic *)

Lemma land_disjoint x y k : y < 2 ^ k -> N.land (x * 2 ^ k) y = 0.
Proof.
  intros Hy. apply N.bits_inj. intros n. rewrite N.land_spec, N.bits_0.
  destruct (N.lt_ge_cases n k) as [Hn|Hn].
  - now rewrite N.mul_pow2_bits_low.
  - destruct (N.eq_dec y 0) as [->|Hy0]; [now rewrite N.bits_0, andb_false_r |].
    rewrite (N.bits_above_log2 y n), andb_false_r; [reflexivity |].
    apply N.lt_le_trans with k; [|assumption].
    apply N.log2_lt_pow2; [lia | assumption].
Qed.

Lemma lor_low x y k : y < 2 ^ k -> N.lor (x * 2 ^ k) y = x * 2 ^ k + y.
Proof.
  intros Hy. pose proof (land_disjoint x y k Hy) as H.
  rewrite <- N.lxor_lor by assumption. symmetry. now apply N.add_nocarry_lxor.
Qed.

Lemma div_add_low q rem m : rem < m -> (q * m + rem) / m = q.
Proof. intros H. symmetry. apply (N.div_unique _ _ _ rem); lia. Qed.

Lemma mod_add_low q rem m : rem < m -> (q * m + rem) mod m = rem.
Proof. intros H. symmetry. apply (N.mod_unique _ _ q); lia. Qed.

Lemma land_low v k q x : v = q * 2 ^ k + x -> x < 2 ^ k -> N.land v (N.ones k) = x.
Proof. intros -> Hx. rewrite N.land_ones. now apply mod_add_low. Qed.

(** The payload of a continuation byte and of the three kinds of lead. *)
Lemma payload_cont b : cont b = true -> N.land b maskx = b - 0x80 /\ b - 0x80 < 64.
Proof.
  unfold cont, locb, hicb. intros H. apply andb_true_iff in H as [H1 H2].
  apply N.leb_le in H1, H2. split; [|lia].
  apply (land_low b 6 2); [change (2 ^ 6) with 64; lia | change (2 ^ 6) with 64; lia].
Qed.

Lemma payload_lead p0 k q :
  q * 2 ^ k <= p0 -> p0 < q * 2 ^ k + 2 ^ k ->
  N.land p0 (N.ones k) = p0 - q * 2 ^ k.
Proof. intros H1 H2. apply (land_low p0 k q); lia. Qed.

(** The bytes [EncodeRune] writes, from the fields of the rune. *)
Lemma encode_cont v q x :
  v = q * 64 + x -> x < 64 ->
  N.lor tx (N.land (lowbyte v) maskx) = 0x80 + x.
Proof.
  intros Hv Hx. unfold lowbyte. rewrite <- N.land_assoc.
  change (N.land 0xFF maskx) with (N.ones 6).
  rewrite (land_low v 6 q x); [| exact Hv | exact Hx].
  change tx with (2 * 2 ^ 6). now rewrite lor_low.
Qed.

Lemma encode_lead t k v :
  v < 2 ^ k -> k < 8 ->
  N.lor (t * 2 ^ k) (lowbyte v) = t * 2 ^ k + v.
Proof.
  intros Hv Hk. unfold lowbyte. change 0xFF with (N.ones 8).
  rewrite N.land_ones, N.mod_small.
  - now apply lor_low.
  - apply N.lt_le_trans with (2 ^ k); [assumption |].
    apply N.pow_le_mono_r; lia.
Qed.

Lemma shiftr_field r q k rem : r = q * 2 ^ k + rem -> rem < 2 ^ k -> N.shiftr r k = q.
Proof. intros -> H. rewrite N.shiftr_div_pow2. now apply div_add_low. Qed.

(** The rune of two, three and four bytes, as a number. *)
Lemma dec2_value p0 b1 :
  0xC0 <= p0 < 0xE0 -> cont b1 = true ->
  dec2 p0 b1 = (p0 - 0xC0) * 64 + (b1 - 0x80).
Proof.
  intros Hp H1. destruct (payload_cont b1 H1) as [E1 L1].
  unfold dec2. rewrite E1. change mask2 with (N.ones 5).
  rewrite (payload_lead p0 5 6) by (change (2 ^ 5) with 32; lia).
  rewrite N.shiftl_mul_pow2. change (6 * 2 ^ 5) with 0xC0.
  now rewrite lor_low.
Qed.

Lemma dec3_value p0 b1 b2 :
  0xE0 <= p0 < 0xF0 -> cont b1 = true -> cont b2 = true ->
  dec3 p0 b1 b2 = ((p0 - 0xE0) * 64 + (b1 - 0x80)) * 64 + (b2 - 0x80).
Proof.
  intros Hp H1 H2.
  destruct (payload_cont b1 H1) as [E1 L1]. destruct (payload_cont b2 H2) as [E2 L2].
  unfold dec3. rewrite E1, E2. change mask3 with (N.ones 4).
  rewrite (payload_lead p0 4 14) by (change (2 ^ 4) with 16; lia).
  rewrite !N.shiftl_mul_pow2. change (14 * 2 ^ 4) with 0xE0.
  rewrite lor_low by (change (2 ^ 12) with 4096; change (2 ^ 6) with 64; lia).
  replace ((p0 - 0xE0) * 2 ^ 12 + (b1 - 0x80) * 2 ^ 6)
    with (((p0 - 0xE0) * 64 + (b1 - 0x80)) * 2 ^ 6)
    by (change (2 ^ 12) with 4096; change (2 ^ 6) with 64; lia).
  now rewrite lor_low.
Qed.

Lemma dec4_value p0 b1 b2 b3 :
  0xF0 <= p0 < 0xF8 -> cont b1 = true -> cont b2 = true -> cont b3 = true ->
  dec4 p0 b1 b2 b3
  = (((p0 - 0xF0) * 64 + (b1 - 0x80)) * 64 + (b2 - 0x80)) * 64 + (b3 - 0x80).
Proof.
  intros Hp H1 H2 H3.
  destruct (payload_cont b1 H1) as [E1 L1]. destruct (payload_cont b2 H2) as [E2 L2].
  destruct (payload_cont b3 H3) as [E3 L3].
  unfold dec4. rewrite E1, E2, E3. change mask4 with (N.ones 3).
  rewrite (payload_lead p0 3 30) by (change (2 ^ 3) with 8; lia).
  rewrite !N.shiftl_mul_pow2. change (30 * 2 ^ 3) with 0xF0.
  rewrite lor_low by (change (2 ^ 18) with 262144; change (2 ^ 12) with 4096; lia).
  replace ((p0 - 0xF0) * 2 ^ 18 + (b1 - 0x80) * 2 ^ 12)
    with (((p0 - 0xF0) * 64 + (b1 - 0x80)) * 2 ^ 12)
    by (change (2 ^ 18) with 262144; change (2 ^ 12) with 4096; lia).
  rewrite lor_low by (change (2 ^ 12) with 4096; change (2 ^ 6) with 64; lia).
  replace (((p0 - 0xF0) * 64 + (b1 - 0x80)) * 2 ^ 12 + (b2 - 0x80) * 2 ^ 6)
    with ((((p0 - 0xF0) * 64 + (b1 - 0x80)) * 64 + (b2 - 0x80)) * 2 ^ 6)
    by (change (2 ^ 12) with 4096; change (2 ^ 6) with 64; lia).
  now rewrite lor_low.
Qed.

(** [EncodeRune] by the size of the rune. *)
Lemma EncodeRune_two r :
  0x7F < r -> r <= rune2Max ->
  EncodeRune r = [ byte_of (N.lor t2 (lowbyte (N.shiftr r 6)));
                   byte_of (N.lor tx (N.land (lowbyte r) maskx)) ].
Proof.
  intros H1 H2. unfold EncodeRune.
  destruct (N.leb_spec r 0x7F); [lia |].
  destruct (N.leb_spec r rune2Max); [reflexivity | lia].
Qed.

Lemma EncodeRune_three r :
  rune2Max < r -> r <= rune3Max -> r < surrogateMin \/ surrogateMax < r ->
  EncodeRune r = encode3 r.
Proof.
  unfold rune2Max, rune3Max, surrogateMin, surrogateMax. intros H1 H2 H3.
  unfold EncodeRune, rune2Max, rune3Max, surrogateMin, surrogateMax, MaxRune.
  destruct (N.leb_spec r 0x7F); [lia |].
  destruct (N.leb_spec r 0x7FF); [lia |].
  destruct (N.ltb_spec 0x10FFFF r); [lia |].
  destruct (N.leb_spec 0xD800 r), (N.leb_spec r 0xDFFF); cbn [orb andb]; try lia;
    destruct (N.leb_spec r 0xFFFF); try lia; reflexivity.
Qed.

Lemma EncodeRune_four r :
  rune3Max < r -> r <= MaxRune ->
  EncodeRune r =
  [ byte_of (N.lor t4 (lowbyte (N.shiftr r 18)));
    byte_of (N.lor tx (N.land (lowbyte (N.shiftr r 12)) maskx));
    byte_of (N.lor tx (N.land (lowbyte (N.shiftr r 6)) maskx));
    byte_of (N.lor tx (N.land (lowbyte r) maskx)) ].
Proof.
  unfold rune3Max, MaxRune. intros H1 H2.
  unfold EncodeRune, rune2Max, rune3Max, surrogateMin, surrogateMax, MaxRune.
  destruct (N.leb_spec r 0x7F); [lia |].
  destruct (N.leb_spec r 0x7FF); [lia |].
  destruct (N.ltb_spec 0x10FFFF r); [lia |].
  destruct (N.leb_spec 0xD800 r), (N.leb_spec r 0xDFFF); cbn [orb andb]; try lia;
    destruct (N.leb_spec r 0xFFFF); try lia; reflexivity.
Qed.

(** What the table [first] says about a lead byte. *)
Lemma first_Some p0 sz lo hi :
  first p0 = Some (sz, lo, hi) ->
  locb <= lo /\ hi <= hicb /\
  ((sz = 2%nat /\ 0xC2 <= p0 <= 0xDF) \/
   (sz = 3%nat /\ 0xE0 <= p0 <= 0xEF
    /\ (p0 = 0xE0 -> lo = 0xA0) /\ (p0 = 0xED -> hi = 0x9F)) \/
   (sz = 4%nat /\ 0xF0 <= p0 <= 0xF4
    /\ (p0 = 0xF0 -> lo = 0x90) /\ (p0 = 0xF4 -> hi = 0x8F))).
Proof.
  unfold first, locb, hicb.
  repeat match goal with
         | |- context [ ?a <? ?b ] => destruct (N.ltb_spec a b)
         | |- context [ ?a =? ?b ] => destruct (N.eqb_spec a b)
         end; intros Heq; inversion Heq; subst; lia.
Qed.

Lemma accepted_cont p0 sz lo hi b1 :
  first p0 = Some (sz, lo, hi) ->
  (b1 <? lo) || (hi <? b1) = false ->
  lo <= b1 <= hi /\ cont b1 = true.
Proof.
  intros Hf Hb. apply first_Some in Hf as (Hlo & Hhi & _).
  apply orb_false_iff in Hb as [H1 H2]. apply N.ltb_ge in H1, H2.
  split; [lia |]. unfold cont. apply andb_true_iff; split; apply N.leb_le; lia.
Qed.

Lemma cont_bounds b : cont b = true -> 0x80 <= b <= 0xBF.
Proof.
  unfold cont, locb, hicb. intros H. apply andb_true_iff in H as [H1 H2].
  apply N.leb_le in H1, H2. lia.
Qed.

(** Encoding the rune of a well-formed sequence gives its bytes back. *)
Lemma encode_dec2 c0 c1 lo hi :
  first (code c0) = Some (2%nat, lo, hi) ->
  (code c1 <? lo) || (hi <? code c1) = false ->
  EncodeRune (dec2 (code c0) (code c1)) = [c0; c1].
Proof.
  intros Hf Hb.
  destruct (accepted_cont _ _ _ _ _ Hf Hb) as [_ Hc1].
  pose proof (cont_bounds _ Hc1) as B1.
  apply first_Some in Hf as (_ & _ & [(_ & Hp)|[(? & _)|(? & _)]]); try discriminate.
  set (a := code c0 - 0xC0). set (x := code c1 - 0x80).
  assert (Hr : dec2 (code c0) (code c1) = a * 2 ^ 6 + x).
  { rewrite dec2_value by (auto; lia). reflexivity. }
  assert (Hx : x < 2 ^ 6) by (subst x; change (2 ^ 6) with 64; lia).
  assert (Ha : a < 2 ^ 5) by (subst a; change (2 ^ 5) with 32; lia).
  rewrite EncodeRune_two
    by (rewrite Hr; unfold rune2Max; subst a x; change (2 ^ 6) with 64 in *; lia).
  rewrite (shiftr_field _ a 6 x Hr Hx).
  change t2 with (6 * 2 ^ 5). rewrite encode_lead by (auto; lia).
  rewrite (encode_cont _ a x) by (auto; exact Hr).
  replace (6 * 2 ^ 5 + a) with (code c0) by (subst a; change (2 ^ 5) with 32; lia).
  replace (0x80 + x) with (code c1) by (subst x; lia).
  now rewrite !byte_of_code.
Qed.

Lemma encode_dec3 c0 c1 c2 lo hi :
  first (code c0) = Some (3%nat, lo, hi) ->
  (code c1 <? lo) || (hi <? code c1) = false ->
  cont (code c2) = true ->
  EncodeRune (dec3 (code c0) (code c1) (code c2)) = [c0; c1; c2].
Proof.
  intros Hf Hb Hc2.
  destruct (accepted_cont _ _ _ _ _ Hf Hb) as [Hacc Hc1].
  pose proof (cont_bounds _ Hc1) as B1. pose proof (cont_bounds _ Hc2) as B2.
  apply first_Some in Hf as (_ & _ & [(? & _)|[(_ & Hp & HE0 & HED)|(? & _)]]);
    try discriminate.
  set (a := code c0 - 0xE0). set (x1 := code c1 - 0x80). set (x2 := code c2 - 0x80).
  assert (Hr : dec3 (code c0) (code c1) (code c2) = (a * 64 + x1) * 2 ^ 6 + x2).
  { rewrite dec3_value by (auto; lia). reflexivity. }
  assert (Hr' : dec3 (code c0) (code c1) (code c2) = a * 2 ^ 12 + (x1 * 64 + x2)).
  { rewrite Hr. change (2 ^ 6) with 64. change (2 ^ 12) with 4096. lia. }
  assert (Hx1 : x1 < 64) by (subst x1; lia).
  assert (Hx2 : x2 < 2 ^ 6) by (subst x2; change (2 ^ 6) with 64; lia).
  assert (Ha : a < 2 ^ 4) by (subst a; change (2 ^ 4) with 16; lia).
  assert (Hlow : 32 <= x1 \/ 1 <= a).
  { destruct (N.eq_dec (code c0) 0xE0) as [E|E]; [left | right; subst a; lia].
    specialize (HE0 E). subst x1. lia. }
  assert (Hsur : a <> 13 \/ x1 < 32).
  { destruct (N.eq_dec (code c0) 0xED) as [E|E]; [right | left; subst a; lia].
    specialize (HED E). subst x1. lia. }
  rewrite EncodeRune_three; unfold rune2Max, rune3Max, surrogateMin, surrogateMax;
    try (rewrite Hr; change (2 ^ 6) with 64 in *; change (2 ^ 4) with 16 in *; lia).
  unfold encode3.
  rewrite (shiftr_field _ a 12 _ Hr')
    by (change (2 ^ 12) with 4096; change (2 ^ 6) with 64 in *; lia).
  rewrite (shiftr_field _ (a * 64 + x1) 6 x2 Hr Hx2).
  change t3 with (14 * 2 ^ 4). rewrite encode_lead by (auto; lia).
  rewrite (encode_cont (a * 64 + x1) a x1) by (auto; lia).
  rewrite (encode_cont _ (a * 64 + x1) x2) by (auto; exact Hr).
  replace (14 * 2 ^ 4 + a) with (code c0) by (subst a; change (2 ^ 4) with 16; lia).
  replace (0x80 + x1) with (code c1) by (subst x1; lia).
  replace (0x80 + x2) with (code c2) by (subst x2; lia).
  now rewrite !byte_of_code.
Qed.

Lemma encode_dec4 c0 c1 c2 c3 lo hi :
  first (code c0) = Some (4%nat, lo, hi) ->
  (code c1 <? lo) || (hi <? code c1) = false ->
  cont (code c2) = true ->
  cont (code c3) = true ->
  EncodeRune (dec4 (code c0) (code c1) (code c2) (code c3)) = [c0; c1; c2; c3].
Proof.
  intros Hf Hb Hc2 Hc3.
  destruct (accepted_cont _ _ _ _ _ Hf Hb) as [Hacc Hc1].
  pose proof (cont_bounds _ Hc1) as B1. pose proof (cont_bounds _ Hc2) as B2.
  pose proof (cont_bounds _ Hc3) as B3.
  apply first_Some in Hf as (_ & _ & [(? & _)|[(? & _)|(_ & Hp & HF0 & HF4)]]);
    try discriminate.
  set (a := code c0 - 0xF0). set (x1 := code c1 - 0x80).
  set (x2 := code c2 - 0x80). set (x3 := code c3 - 0x80).
  assert (Hr : dec4 (code c0) (code c1) (code c2) (code c3)
               = ((a * 64 + x1) * 64 + x2) * 2 ^ 6 + x3).
  { rewrite dec4_value by (auto; lia). reflexivity. }
  assert (Hr2 : dec4 (code c0) (code c1) (code c2) (code c3)
                = (a * 64 + x1) * 2 ^ 12 + (x2 * 64 + x3)).
  { rewrite Hr. change (2 ^ 6) with 64. change (2 ^ 12) with 4096. lia. }
  assert (Hr3 : dec4 (code c0) (code c1) (code c2) (code c3)
                = a * 2 ^ 18 + ((x1 * 64 + x2) * 64 + x3)).
  { rewrite Hr. change (2 ^ 6) with 64. change (2 ^ 18) with 262144. lia. }
  assert (Hx1 : x1 < 64) by (subst x1; lia).
  assert (Hx2 : x2 < 64) by (subst x2; lia).
  assert (Hx3 : x3 < 2 ^ 6) by (subst x3; change (2 ^ 6) with 64; lia).
  assert (Ha : a < 2 ^ 3) by (subst a; change (2 ^ 3) with 8; lia).
  assert (Ha4 : a <= 4) by (subst a; lia).
  assert (Hlow : 16 <= x1 \/ 1 <= a).
  { destruct (N.eq_dec (code c0) 0xF0) as [E|E]; [left | right; subst a; lia].
    specialize (HF0 E). subst x1. lia. }
  assert (Hmax : a < 4 \/ x1 < 16).
  { destruct (N.eq_dec (code c0) 0xF4) as [E|E]; [right | left; subst a; lia].
    specialize (HF4 E). subst x1. lia. }
  rewrite EncodeRune_four; unfold rune3Max, MaxRune;
    try (rewrite Hr; change (2 ^ 6) with 64 in *; change (2 ^ 3) with 8 in *; lia).
  rewrite (shiftr_field _ a 18 _ Hr3)
    by (change (2 ^ 18) with 262144; change (2 ^ 6) with 64 in *; lia).
  rewrite (shiftr_field _ (a * 64 + x1) 12 _ Hr2)
    by (change (2 ^ 12) with 4096; change (2 ^ 6) with 64 in *; lia).
  rewrite (shiftr_field _ ((a * 64 + x1) * 64 + x2) 6 x3 Hr Hx3).
  change t4 with (30 * 2 ^ 3). rewrite encode_lead by (auto; lia).
  rewrite (encode_cont (a * 64 + x1) a x1) by (auto; lia).
  rewrite (encode_cont ((a * 64 + x1) * 64 + x2) (a * 64 + x1) x2) by (auto; lia).
  rewrite (encode_cont _ ((a * 64 + x1) * 64 + x2) x3) by (auto; exact Hr).
  replace (30 * 2 ^ 3 + a) with (code c0) by (subst a; change (2 ^ 3) with 8; lia).
  replace (0x80 + x1) with (code c1) by (subst x1; lia).
  replace (0x80 + x2) with (code c2) by (subst x2; lia).
  replace (0x80 + x3) with (code c3) by (subst x3; lia).
  now rewrite !byte_of_code.
Qed.

Lemma first_high p0 sz lo hi : first p0 = Some (sz, lo, hi) -> RuneSelf <= p0.
Proof.
  intros Hf. apply first_Some in Hf as (_ & _ & H). unfold RuneSelf. lia.
Qed.

Lemma first_size p0 sz lo hi :
  first p0 = Some (sz, lo, hi) -> sz = 2%nat \/ sz = 3%nat \/ sz = 4%nat.
Proof. intros Hf. apply first_Some in Hf as (_ & _ & H). intuition. Qed.

Lemma DecodeRune_decoded p :
  decoded p (fst (DecodeRune p)) (snd (DecodeRune p)).
Proof.
  destruct p as [|c0 p1]; [constructor |].
  unfold DecodeRune.
  destruct (first (code c0)) as [[[sz lo] hi]|] eqn:Hf.
  2:{ destruct (N.ltb_spec (code c0) RuneSelf); simpl; constructor; auto. }
  pose proof (first_high _ _ _ _ Hf) as Hhigh.
  pose proof (first_size _ _ _ _ Hf) as Hsz.
  destruct p1 as [|c1 p2]; [simpl; constructor; auto |].
  destruct ((code c1 <? lo) || (hi <? code c1)) eqn:Hb1; [simpl; constructor; auto |].
  destruct Hsz as [->|[->| ->]]; simpl.
  - econstructor; eauto.
  - destruct p2 as [|c2 p3]; [simpl; constructor; auto |].
    destruct (cont (code c2)) eqn:Hb2; simpl; [|constructor; auto].
    econstructor; eauto.
  - destruct p2 as [|c2 p3]; [simpl; constructor; auto |].
    destruct (cont (code c2)) eqn:Hb2; simpl; [|constructor; auto].
    destruct p3 as [|c3 p4]; [simpl; constructor; auto |].
    destruct (cont (code c3)) eqn:Hb3; simpl; [|constructor; auto].
    econstructor; eauto.
Qed.

Lemma DecodeRune_ascii c t : code c < RuneSelf -> DecodeRune (c :: t) = (code c, 1%nat).
Proof.
  intros H. unfold DecodeRune.
  destruct (first (code c)) as [[[sz lo] hi]|] eqn:Hf.
  - apply first_high in Hf. lia.
  - apply N.ltb_lt in H. now rewrite H.
Qed.

Lemma DecodeRune_two c0 c1 t lo hi :
  first (code c0) = Some (2%nat, lo, hi) ->
  (code c1 <? lo) || (hi <? code c1) = false ->
  DecodeRune (c0 :: c1 :: t) = (dec2 (code c0) (code c1), 2%nat).
Proof. intros Hf Hb. unfold DecodeRune. now rewrite Hf, Hb. Qed.

Lemma DecodeRune_three c0 c1 c2 t lo hi :
  first (code c0) = Some (3%nat, lo, hi) ->
  (code c1 <? lo) || (hi <? code c1) = false ->
  cont (code c2) = true ->
  DecodeRune (c0 :: c1 :: c2 :: t) = (dec3 (code c0) (code c1) (code c2), 3%nat).
Proof. intros Hf Hb H2. unfold DecodeRune. now rewrite Hf, Hb, H2. Qed.

Lemma DecodeRune_four c0 c1 c2 c3 t lo hi :
  first (code c0) = Some (4%nat, lo, hi) ->
  (code c1 <? lo) || (hi <? code c1) = false ->
  cont (code c2) = true ->
  cont (code c3) = true ->
  DecodeRune (c0 :: c1 :: c2 :: c3 :: t)
  = (dec4 (code c0) (code c1) (code c2) (code c3), 4%nat).
Proof. intros Hf Hb H2 H3. unfold DecodeRune. now rewrite Hf, Hb, H2, H3. Qed.

Lemma cont_high c : cont (code c) = true -> high c = true.
Proof.
  unfold cont, high, locb, RuneSelf. intros H.
  apply andb_true_iff in H as [H _]. exact H.
Qed.

Lemma lead_high c sz lo hi : first (code c) = Some (sz, lo, hi) -> high c = true.
Proof. intros Hf. apply first_high in Hf. unfold high. now apply N.leb_le. Qed.

(** A well-formed position, as the loops meet it: either one ASCII byte, or
    a sequence of two to four bytes, none of them ASCII, that decodes the
    same whatever follows and that [EncodeRune] gives back. *)
Lemma wellformed_cases p :
  p <> [] -> illformed (DecodeRune p) = false ->
  exists chunk t,
    (p = chunk ++ t) /\ (length chunk = snd (DecodeRune p)) /\
    (EncodeRune (fst (DecodeRune p)) = chunk) /\
    (forall t', DecodeRune (chunk ++ t') = DecodeRune p) /\
    ((exists c, chunk = [c] /\ code c < RuneSelf /\ fst (DecodeRune p) = code c)
     \/ (forallb high chunk = true /\ (2 <= length chunk)%nat)).
Proof.
  intros Hne Hill.
  pose proof (DecodeRune_decoded p) as Hd.
  destruct (DecodeRune p) as [r n] eqn:HD. simpl in *.
  destruct Hd.
  - congruence.
  - exists [c], t. split; [reflexivity|split; [reflexivity|split; [auto|split]]].
    + unfold EncodeRune. unfold RuneSelf in H.
      destruct (N.leb_spec (code c) 0x7F); [|lia]. now rewrite byte_of_code.
    + intros t'. now apply DecodeRune_ascii.
    + left. eauto.
  - discriminate Hill.
  - pose proof (accepted_cont _ _ _ _ _ H H0) as [_ Hc].
    exists [c0; c1], t. split; [reflexivity|split; [reflexivity|split; [|split]]].
    + eapply encode_dec2; eauto.
    + intros t'. eapply DecodeRune_two; eauto.
    + right. split; [|simpl; lia].
      simpl. rewrite (lead_high _ _ _ _ H), (cont_high _ Hc). reflexivity.
  - pose proof (accepted_cont _ _ _ _ _ H H0) as [_ Hc].
    exists [c0; c1; c2], t. split; [reflexivity|split; [reflexivity|split; [|split]]].
    + eapply encode_dec3; eauto.
    + intros t'. eapply DecodeRune_three; eauto.
    + right. split; [|simpl; lia].
      simpl. rewrite (lead_high _ _ _ _ H), (cont_high _ Hc), (cont_high _ H1). reflexivity.
  - pose proof (accepted_cont _ _ _ _ _ H H0) as [_ Hc].
    exists [c0; c1; c2; c3], t. split; [reflexivity|split; [reflexivity|split; [|split]]].
    + eapply encode_dec4; eauto.
    + intros t'. eapply DecodeRune_four; eauto.
    + right. split; [|simpl; lia].
      simpl. rewrite (lead_high _ _ _ _ H), (cont_high _ Hc), (cont_high _ H1),
        (cont_high _ H2). reflexivity.
Qed.

(** ** JSON: reading back what was written *)

Lemma DecodeRune_firstn p : DecodeRune (firstn UTFMax p) = DecodeRune p.
Proof. destruct p as [|c0 [|c1 [|c2 [|c3 t]]]]; reflexivity. Qed.

Lemma cons_lit_Some l lit rest : cons_lit l (Some (lit, rest)) = Some (l ++ lit, rest).
Proof. reflexivity. Qed.

Lemma cons_lit_app l1 l2 r : cons_lit l1 (cons_lit l2 r) = cons_lit (l1 ++ l2) r.
Proof. destruct r as [[lit rest]|]; simpl; [now rewrite app_assoc | reflexivity]. Qed.

(** *** The scanner over escaped text *)

Lemma scan_string_safe c X :
  code c < RuneSelf -> htmlSafeSet (code c) = true ->
  scan_string (c :: X) = cons_lit [c] (scan_string X).
Proof.
  intros _ Hs. unfold htmlSafeSet in Hs.
  repeat (apply andb_true_iff in Hs as [Hs ?]).
  simpl. unfold isb.
  repeat match goal with
         | H : negb _ = true |- _ => apply negb_true_iff in H; rewrite ?H
         end.
  apply N.leb_le in Hs. destruct (N.ltb_spec (code c) 0x20); [lia | reflexivity].
Qed.

Lemma scan_string_high c X :
  high c = true -> scan_string (c :: X) = cons_lit [c] (scan_string X).
Proof.
  unfold high, RuneSelf. intros H. apply N.leb_le in H.
  simpl. unfold isb.
  destruct (N.eqb_spec (code c) 0x22); [lia |].
  destruct (N.eqb_spec (code c) 0x5C); [lia |].
  destruct (N.ltb_spec (code c) 0x20); [lia | reflexivity].
Qed.

Lemma scan_string_chunk chunk X :
  forallb high chunk = true ->
  scan_string (chunk ++ X) = cons_lit chunk (scan_string X).
Proof.
  induction chunk as [|c chunk IH]; intros H.
  - simpl. now destruct (scan_string X) as [[? ?]|].
  - simpl in H. apply andb_true_iff in H as [Hc H].
    change ((c :: chunk) ++ X) with (c :: (chunk ++ X)).
    rewrite scan_string_high, IH, cons_lit_app; auto.
Qed.

Lemma scan_string_escapeByte c X :
  code c < RuneSelf -> htmlSafeSet (code c) = false ->
  scan_string (escapeByte c ++ X) = cons_lit (escapeByte c) (scan_string X).
Proof.
  intros H1 H2.
  destruct c as [[] [] [] [] [] [] [] []];
    vm_compute in H1; try discriminate H1;
    vm_compute in H2; try discriminate H2;
    destruct (scan_string X) as [[? ?]|] eqn:E;
    cbv [escapeByte]; simpl; rewrite E; reflexivity.
Qed.

Lemma appendString_loop_cons f b rest :
  appendString_loop (S f) (b :: rest) =
  if code b <? RuneSelf then
    (if htmlSafeSet (code b) then [b] else escapeByte b) ++ appendString_loop f rest
  else
    let d := DecodeRune (b :: rest) in
    if illformed d then ufffd ++ appendString_loop f (skipn (snd d) (b :: rest))
    else if (fst d =? 0x2028) || (fst d =? 0x2029) then
      u202 ++ [hexdigit (N.land (fst d) 0xF)]
           ++ appendString_loop f (skipn (snd d) (b :: rest))
    else firstn (snd d) (b :: rest)
           ++ appendString_loop f (skipn (snd d) (b :: rest)).
Proof.
  cbv zeta. rewrite <- (DecodeRune_firstn (b :: rest)). reflexivity.
Qed.

(** A well-formed position whose first byte is not ASCII is a chunk of two
    to four bytes none of which is ASCII. *)
Lemma wellformed_high b rest :
  (code b <? RuneSelf) = false ->
  illformed (DecodeRune (b :: rest)) = false ->
  exists chunk t,
    (b :: rest = chunk ++ t) /\
    (snd (DecodeRune (b :: rest)) = length chunk) /\
    (EncodeRune (fst (DecodeRune (b :: rest))) = chunk) /\
    (forall t', DecodeRune (chunk ++ t') = DecodeRune (b :: rest)) /\
    (forallb high chunk = true) /\ (2 <= length chunk)%nat.
Proof.
  intros Hb Hill.
  destruct (wellformed_cases (b :: rest)) as (chunk & t & Hs & Hlen & Henc & Hdec & Hk);
    [discriminate | exact Hill |].
  exists chunk, t. destruct Hk as [(c & -> & Hc & _)|[Hh Hl]].
  - injection Hs as -> _. apply N.ltb_ge in Hb. lia.
  - repeat split; auto.
Qed.

Lemma scan_appendString f : forall s X,
  scan_string (appendString_loop f s ++ dq :: X) = Some (appendString_loop f s, X).
Proof.
  induction f as [|f IH]; intros s X; [reflexivity |].
  destruct s as [|b rest]; [reflexivity |].
  rewrite appendString_loop_cons.
  destruct (code b <? RuneSelf) eqn:Hb.
  - apply N.ltb_lt in Hb.
    destruct (htmlSafeSet (code b)) eqn:Hs; rewrite <- app_assoc.
    + change ([b] ++ ?l) with (b :: l). rewrite scan_string_safe, IH; auto.
    + rewrite scan_string_escapeByte, IH; auto.
  - cbv zeta. destruct (illformed (DecodeRune (b :: rest))) eqn:Hill.
    + rewrite <- app_assoc.
      change (scan_string (ufffd ++ ?l)) with (cons_lit ufffd (scan_string l)).
      now rewrite IH.
    + destruct (wellformed_high b rest Hb Hill)
        as (chunk & t & Hs & Hlen & Henc & Hdec & Hh & Hl).
      destruct ((fst (DecodeRune (b :: rest)) =? 0x2028)
                || (fst (DecodeRune (b :: rest)) =? 0x2029)) eqn:Hsep.
      * rewrite <- !app_assoc.
        apply orb_true_iff in Hsep as [Hr|Hr]; apply N.eqb_eq in Hr; rewrite Hr;
          match goal with
          | |- scan_string (u202 ++ ?h ++ ?l) = _ =>
            change (scan_string (u202 ++ h ++ l)) with (cons_lit (u202 ++ h) (scan_string l))
          end; now rewrite IH.
      * rewrite <- app_assoc, Hlen, Hs, take_app_length, drop_app_length.
        rewrite scan_string_chunk, IH; auto.
Qed.

(** *** Unquoting escaped text *)

Lemma unquote_loop_safe f c X :
  code c < RuneSelf -> htmlSafeSet (code c) = true ->
  unquote_loop (S f) (c :: X) =
  match unquote_loop f X with Some out => Some (c :: out) | None => None end.
Proof.
  intros Hc Hs. unfold htmlSafeSet in Hs.
  repeat (apply andb_true_iff in Hs as [Hs ?]).
  simpl. unfold isb.
  repeat match goal with
         | H : negb _ = true |- _ => apply negb_true_iff in H; rewrite ?H
         end.
  apply N.leb_le in Hs. apply N.ltb_lt in Hc.
  destruct (N.ltb_spec (code c) 0x20); [lia |]. simpl. now rewrite Hc.
Qed.

Lemma unquote_loop_escapeByte f c X :
  code c < RuneSelf -> htmlSafeSet (code c) = false ->
  unquote_loop (S f) (escapeByte c ++ X) =
  match unquote_loop f X with Some out => Some (c :: out) | None => None end.
Proof.
  intros H1 H2.
  destruct c as [[] [] [] [] [] [] [] []];
    vm_compute in H1; try discriminate H1;
    vm_compute in H2; try discriminate H2;
    reflexivity.
Qed.

Lemma unquote_loop_chunk f chunk X :
  forallb high chunk = true -> (1 <= length chunk)%nat ->
  snd (DecodeRune (chunk ++ X)) = length chunk ->
  EncodeRune (fst (DecodeRune (chunk ++ X))) = chunk ->
  unquote_loop (S f) (chunk ++ X) =
  match unquote_loop f X with Some out => Some (chunk ++ out) | None => None end.
Proof.
  intros Hh Hl Hn He.
  destruct chunk as [|c chunk]; [simpl in Hl; lia |].
  simpl in Hh. apply andb_true_iff in Hh as [Hc _].
  unfold high, RuneSelf in Hc. apply N.leb_le in Hc.
  change ((c :: chunk) ++ X) with (c :: (chunk ++ X)) in *.
  cbn [unquote_loop]. unfold isb.
  destruct (N.eqb_spec (code c) 0x5C); [lia |].
  destruct (N.eqb_spec (code c) 0x22); [lia |].
  destruct (N.ltb_spec (code c) 0x20); [lia |].
  destruct (N.ltb_spec (code c) RuneSelf); [unfold RuneSelf in *; lia |].
  cbn [orb]. rewrite Hn, He.
  change (c :: (chunk ++ X)) with ((c :: chunk) ++ X).
  now rewrite drop_app_length.
Qed.

Lemma unquote_loop_sep f r X :
  r = 0x2028 \/ r = 0x2029 ->
  unquote_loop (S f) (u202 ++ [hexdigit (N.land r 0xF)] ++ X) =
  match unquote_loop f X with Some out => Some (EncodeRune r ++ out) | None => None end.
Proof. intros [->| ->]; reflexivity. Qed.

Lemma escapeByte_nonempty c : (1 <= length (escapeByte c))%nat.
Proof.
  unfold escapeByte.
  repeat match goal with
         | |- context [if ?b then _ else _] => destruct b
         end; simpl; lia.
Qed.

Lemma valid_loop_cons f b rest :
  valid_loop (S f) (b :: rest) =
  if illformed (DecodeRune (b :: rest)) then false
  else valid_loop f (skipn (snd (DecodeRune (b :: rest))) (b :: rest)).
Proof. reflexivity. Qed.

Lemma unquote_loop_ufffd f X :
  unquote_loop (S f) (ufffd ++ X) =
  match unquote_loop f X with
  | Some out => Some (EncodeRune RuneError ++ out)
  | None => None
  end.
Proof. reflexivity. Qed.

Lemma coerce_loop_cons f b rest :
  coerce_loop (S f) (b :: rest) =
  if illformed (DecodeRune (b :: rest)) then
    EncodeRune RuneError ++ coerce_loop f (skipn (snd (DecodeRune (b :: rest))) (b :: rest))
  else
    firstn (snd (DecodeRune (b :: rest))) (b :: rest)
      ++ coerce_loop f (skipn (snd (DecodeRune (b :: rest))) (b :: rest)).
Proof. reflexivity. Qed.

Lemma illformed_size d : illformed d = true -> snd d = 1%nat.
Proof.
  unfold illformed. intros H. apply andb_true_iff in H as [_ H].
  now apply Nat.eqb_eq in H.
Qed.

Lemma illformed_ascii b rest :
  code b < RuneSelf -> illformed (DecodeRune (b :: rest)) = false.
Proof.
  intros Hb. rewrite (DecodeRune_ascii b rest Hb). unfold illformed. cbn [fst snd].
  unfold RuneSelf, RuneError in *. destruct (N.eqb_spec (code b) 0xFFFD); [lia | reflexivity].
Qed.

(** Unquoting what [appendString] wrote gives the text coerced to
    well-formed UTF-8. *)
Lemma unquote_appendString f : forall s,
  (length s <= f)%nat ->
  forall f2, (length (appendString_loop f s) <= f2)%nat ->
  unquote_loop f2 (appendString_loop f s) = Some (coerce_loop f s).
Proof.
  induction f as [|f IH]; intros s Hlen f2 Hf2.
  { destruct s; [|simpl in Hlen; exfalso; lia]. now destruct f2. }
  destruct s as [|b rest]; [now destruct f2 |].
  rewrite coerce_loop_cons. rewrite appendString_loop_cons in *.
  simpl in Hlen.
  destruct (code b <? RuneSelf) eqn:Hb.
  - apply N.ltb_lt in Hb. rewrite (illformed_ascii b rest Hb).
    rewrite (DecodeRune_ascii b rest Hb). cbn [snd firstn skipn app].
    destruct (htmlSafeSet (code b)) eqn:Hs.
    + change ([b] ++ ?l) with (b :: l) in *. simpl in Hf2.
      destruct f2 as [|f2]; [exfalso; lia |].
      rewrite unquote_loop_safe, (IH rest); auto; lia.
    + destruct f2 as [|f2].
      { rewrite length_app in Hf2. pose proof (escapeByte_nonempty b). exfalso; lia. }
      rewrite unquote_loop_escapeByte, (IH rest); auto; try lia.
      rewrite length_app in Hf2. pose proof (escapeByte_nonempty b). lia.
  - cbv zeta in *.
    destruct (illformed (DecodeRune (b :: rest))) eqn:Hill; rewrite ?Hill in Hf2.
    { rewrite (illformed_size _ Hill) in *.
      change (skipn 1 (b :: rest)) with rest in *.
      rewrite length_app in Hf2. change (length ufffd) with 6%nat in Hf2.
      destruct f2 as [|f2]; [exfalso; lia |].
      rewrite unquote_loop_ufffd, (IH rest); auto; lia. }
    destruct (wellformed_high b rest Hb Hill)
      as (chunk & t & Hs & Hn & Henc & Hdec & Hh & Hl).
    rewrite Hn, Hs, ?take_app_length, ?drop_app_length in Hf2 |- *.
    assert (Ht : (length t <= f)%nat).
    { apply (f_equal length) in Hs. rewrite length_app in Hs. simpl in Hs. lia. }
    rewrite Hs in Henc.
    destruct ((fst (DecodeRune (chunk ++ t)) =? 0x2028)
              || (fst (DecodeRune (chunk ++ t)) =? 0x2029)) eqn:Hsep.
    + destruct f2 as [|f2]; [simpl in Hf2; exfalso; lia |].
      rewrite unquote_loop_sep.
      * rewrite (IH t), Henc; auto. repeat rewrite length_app in Hf2. simpl in Hf2. lia.
      * apply orb_true_iff in Hsep as [Hr|Hr]; apply N.eqb_eq in Hr; auto.
    + rewrite ?take_app_length in Hf2 |- *.
      destruct f2 as [|f2]; [rewrite length_app in Hf2; exfalso; lia |].
      rewrite length_app in Hf2.
      rewrite unquote_loop_chunk; auto; try lia.
      * rewrite (IH t); auto. lia.
      * rewrite Hdec. exact Hn.
      * rewrite Hdec, <- (Hdec t). exact Henc.
Qed.

Lemma DecodeRune_size p : p <> [] -> (1 <= snd (DecodeRune p) <= 4)%nat.
Proof.
  intros Hne. pose proof (DecodeRune_decoded p) as Hd.
  destruct (DecodeRune p) as [r n]. simpl in *.
  destruct Hd; try lia. congruence.
Qed.

(** Coercion leaves well-formed text alone, and makes any other text
    longer. *)
Lemma coerce_loop_valid f : forall s,
  (length s <= f)%nat -> valid_loop f s = true -> coerce_loop f s = s.
Proof.
  induction f as [|f IH]; intros s Hlen Hval.
  { destruct s; [reflexivity | simpl in Hlen; exfalso; lia]. }
  destruct s as [|b rest]; [reflexivity |].
  rewrite valid_loop_cons in Hval. rewrite coerce_loop_cons.
  destruct (illformed (DecodeRune (b :: rest))) eqn:Hill; [discriminate |].
  destruct (wellformed_cases (b :: rest)) as (chunk & t & Hs & Hn & _);
    [discriminate | exact Hill |].
  pose proof (DecodeRune_size (b :: rest) ltac:(discriminate)) as Hsz.
  rewrite <- Hn in Hval, Hsz |- *. rewrite Hs in Hval |- *.
  rewrite take_app_length. rewrite drop_app_length in Hval |- *.
  rewrite IH; auto.
  apply (f_equal length) in Hs. rewrite length_app in Hs. simpl in Hs, Hlen. lia.
Qed.

Lemma coerce_loop_length f : forall s,
  (length s <= f)%nat ->
  (length s <= length (coerce_loop f s))%nat
  /\ (valid_loop f s = false -> (length s < length (coerce_loop f s))%nat).
Proof.
  induction f as [|f IH]; intros s Hlen.
  { destruct s; [split; [auto | discriminate] | simpl in Hlen; exfalso; lia]. }
  destruct s as [|b rest]; [split; [auto | discriminate] |].
  rewrite valid_loop_cons, coerce_loop_cons.
  destruct (illformed (DecodeRune (b :: rest))) eqn:Hill.
  - rewrite (illformed_size _ Hill). change (skipn 1 (b :: rest)) with rest.
    destruct (IH rest) as [Hle _]; [simpl in Hlen; lia |].
    rewrite length_app. change (length (EncodeRune RuneError)) with 3%nat.
    simpl. split; [lia | intros _; lia].
  - destruct (wellformed_cases (b :: rest)) as (chunk & t & Hs & Hn & _);
      [discriminate | exact Hill |].
    pose proof (DecodeRune_size (b :: rest) ltac:(discriminate)) as Hc.
    rewrite <- Hn in Hc |- *. rewrite Hs, take_app_length, drop_app_length.
    assert (Ht : (length t <= f)%nat).
    { apply (f_equal length) in Hs. rewrite length_app in Hs. simpl in Hs, Hlen. lia. }
    destruct (IH t Ht) as [Hle Hlt]. rewrite !length_app.
    split; [lia | intros Hv; specialize (Hlt Hv); lia].
Qed.

Lemma parse_value_dq f depth Y :
  parse_value (S f) depth (dq :: Y) =
  match scan_string Y with
  | Some (raw, r) =>
    match unquote raw with Some str => Some (VString str, r) | None => None end
  | None => None
  end.
Proof. reflexivity. Qed.

Lemma parse_members_dq f depth Y :
  parse_members (S f) depth (dq :: Y) =
  match scan_string Y with
  | Some (raw, r1) =>
    match unquote raw with
    | Some key =>
      match skip_ws r1 with
      | [] => None
      | colon :: r2 =>
        if isb colon 0x3A then
          match parse_value f depth r2 with
          | Some (v, r3) =>
            match skip_ws r3 with
            | [] => None
            | sep :: r4 =>
              if isb sep 0x2C then
                match parse_members f depth r4 with
                | Some (ms, r5) => Some ((key, v) :: ms, r5)
                | None => None
                end
              else if isb sep 0x7D then Some ([(key, v)], r4)
              else None
            end
          | None => None
          end
        else None
      end
    | None => None
    end
  | None => None
  end.
Proof. reflexivity. Qed.

Lemma parse_value_object f Y :
  parse_value (S f) 0 ("{"%char :: dq :: Y) =
  match parse_members f 1 (dq :: Y) with
  | Some (ms, r) => Some (VObject ms, r)
  | None => None
  end.
Proof. reflexivity. Qed.

(** A quoted string value parses back to the text it was made from. *)
Lemma parse_value_appendString f depth s X :
  parse_value (S f) depth (dq :: appendString_loop (length s) s ++ dq :: X)
  = Some (VString (coerce_loop (length s) s), X).
Proof.
  rewrite parse_value_dq, scan_appendString.
  unfold unquote. rewrite unquote_appendString; auto.
Qed.

Lemma encode_flat m :
  encode m =
  "{"%char :: dq :: bytes_of "message" ++ dq :: ":"%char :: dq :: body (Message m)
  ++ dq :: ","%char :: dq :: bytes_of "senderid" ++ dq :: ":"%char :: dq :: body (SenderID m)
  ++ dq :: ","%char :: dq :: bytes_of "sendername" ++ dq :: ":"%char :: dq :: body (SenderName m)
  ++ dq :: ["}"%char].
Proof.
  unfold encode, nameEscHTML, appendString, body.
  repeat (rewrite <- ?app_assoc; cbn [app bytes_of list_ascii_of_string]).
  reflexivity.
Qed.

Lemma skip_ws_nonspace c R : isSpace c = false -> skip_ws (c :: R) = c :: R.
Proof. intros H. simpl. now rewrite H. Qed.

(** One member of the encoded object: its key, its colon and its quoted
    value are consumed, and what comes next decides how to go on. *)
Lemma parse_members_member f depth name s X :
  (forall R, scan_string (name ++ dq :: R) = Some (name, R)) ->
  unquote name = Some name ->
  parse_members (S (S f)) depth
    (dq :: name ++ dq :: ":"%char :: dq :: appendString_loop (length s) s ++ dq :: X)
  = match skip_ws X with
    | [] => None
    | sep :: r4 =>
      if isb sep 0x2C then
        match parse_members (S f) depth r4 with
        | Some (ms, r5) =>
          Some ((name, VString (coerce_loop (length s) s)) :: ms, r5)
        | None => None
        end
      else if isb sep 0x7D then Some ([(name, VString (coerce_loop (length s) s))], r4)
      else None
    end.
Proof.
  intros Hscan Hunq.
  rewrite parse_members_dq, Hscan, Hunq.
  rewrite skip_ws_nonspace by reflexivity.
  change (isb ":"%char 0x3A) with true. cbv iota.
  now rewrite parse_value_appendString.
Qed.

Lemma parse_encode m :
  parse (encode m) =
  Some (VObject [ (bytes_of "message", VString (coerced_bytes (Message m)));
                  (bytes_of "senderid", VString (coerced_bytes (SenderID m)));
                  (bytes_of "sendername", VString (coerced_bytes (SenderName m))) ]).
Proof.
  unfold parse.
  assert (Hfuel : exists f, (2 * length (encode m) + 2 = S (S (S (S (S f)))))%nat).
  { assert (2 <= length (encode m))%nat by (rewrite encode_flat; cbn [length]; lia).
    exists (2 * length (encode m) - 3)%nat. lia. }
  destruct Hfuel as [f ->].
  rewrite encode_flat, parse_value_object. unfold body.
  rewrite parse_members_member; [| reflexivity | reflexivity].
  rewrite skip_ws_nonspace by reflexivity.
  change (isb ","%char 0x2C) with true. cbv iota.
  rewrite parse_members_member; [| reflexivity | reflexivity].
  rewrite skip_ws_nonspace by reflexivity.
  change (isb ","%char 0x2C) with true. cbv iota.
  rewrite parse_members_member; [| reflexivity | reflexivity].
  reflexivity.
Qed.

Lemma string_of_bytes_of s : string_of (bytes_of s) = s.
Proof. apply string_of_list_ascii_of_string. Qed.

Lemma bytes_of_string_of b : bytes_of (string_of b) = b.
Proof. apply list_ascii_of_string_of_list_ascii. Qed.

(** Decoding what [Marshal] wrote gives, whatever the target held, the
    message with its strings coerced to well-formed UTF-8. *)
Lemma Unmarshal_encode_coerced m v : Unmarshal (encode m) v = (coerced m, None).
Proof.
  unfold Unmarshal. rewrite parse_encode.
  destruct m as [a b c]. destruct v as [x y z]. reflexivity.
Qed.

Lemma coerce_valid s : ValidString s = true -> coerce s = s.
Proof.
  intros H. unfold coerce. rewrite coerce_loop_valid; auto.
  apply string_of_bytes_of.
Qed.

Lemma coerce_invalid s : ValidString s = false -> coerce s <> s.
Proof.
  intros H E. unfold coerce in E. apply (f_equal bytes_of) in E.
  rewrite bytes_of_string_of in E.
  destruct (coerce_loop_length (length (bytes_of s)) (bytes_of s)) as [_ Hlt]; [lia |].
  specialize (Hlt H). rewrite E in Hlt. lia.
Qed.

(** When the three strings are well-formed UTF-8 the message itself comes
    back. *)
Lemma Unmarshal_encode m v :
  ValidString (Message m) = true ->
  ValidString (SenderID m) = true ->
  ValidString (SenderName m) = true ->
  Unmarshal (encode m) v = (m, None).
Proof.
  intros H1 H2 H3. rewrite Unmarshal_encode_coerced. unfold coerced.
  rewrite !coerce_valid by assumption. now destruct m.
Qed.

(** And only then. *)
Lemma Unmarshal_encode_only_wellformed m v :
  Unmarshal (encode m) v = (m, None) ->
  ValidString (Message m) = true
  /\ ValidString (SenderID m) = true
  /\ ValidString (SenderName m) = true.
Proof.
  rewrite Unmarshal_encode_coerced. unfold coerced. destruct m as [a b c].
  cbn [Message SenderID SenderName]. intros H. injection H as Ha Hb Hc.
  split; [|split].
  - destruct (ValidString a) eqn:E; [reflexivity | now apply coerce_invalid in E].
  - destruct (ValidString b) eqn:E; [reflexivity | now apply coerce_invalid in E].
  - destruct (ValidString c) eqn:E; [reflexivity | now apply coerce_invalid in E].
Qed.

(** *** Which values decode without error *)

Lemma storeString_error f v st :
  snd (storeString f v st) = None <-> snd st = None /\ storable v = true.
Proof.
  destruct v; cbn; try tauto;
    (split; [|intros [_ H]; discriminate H]);
    destruct (snd st); cbn; discriminate.
Qed.

Lemma object_error ms : forall st,
  snd (object ms st) = None
  <-> snd st = None
      /\ Forall (fun kv => lookupField (fst kv) = None \/ storable (snd kv) = true) ms.
Proof.
  unfold object. induction ms as [|kv ms IH]; intros st.
  - cbn. split; [intros H; split; [exact H | constructor] | tauto].
  - cbn [fold_left]. rewrite IH, Forall_cons.
    destruct (lookupField (fst kv)) as [f|].
    + rewrite storeString_error. split.
      * intros [[H1 H2] H3]. auto.
      * intros [H1 [[H2|H2] H3]]; [discriminate H2 | auto].
    + split; [intros [H1 H2]; auto | intros [H1 [_ H3]]; auto].
Qed.

Lemma Unmarshal_error data v0 v :
  parse data = Some v ->
  snd (Unmarshal data v0) = None <-> acceptable v.
Proof.
  intros Hp. unfold Unmarshal. rewrite Hp.
  destruct v; cbn; try (split; [discriminate | tauto]); [tauto |].
  rewrite object_error. cbn. tauto.
Qed.

(** ** The receive loop *)

Lemma subscribePass_self self data :
  subscribePass self (Next (NextMsg self data)) = ([], true).
Proof. unfold subscribePass. now rewrite bool_decide_eq_true_2. Qed.

Lemma subscribePass_other self from data :
  from <> self ->
  subscribePass self (Next (NextMsg from data)) =
  match Unmarshal data zeroMessage with
  | (_, Some _) => ([ToLogs (mkChatLog "suberr" "failed to unmarshal JSON")], true)
  | (chatMsg, None) => ([ToInbound chatMsg], true)
  end.
Proof. intros H. unfold subscribePass. now rewrite bool_decide_eq_false_2. Qed.

Lemma subscribeLoop_cons self o rest :
  subscribeLoop self (o :: rest) =
  if snd (subscribePass self o) then
    (fst (subscribePass self o) ++ fst (subscribeLoop self rest),
     snd (subscribeLoop self rest))
  else (fst (subscribePass self o), false).
Proof.
  simpl. destruct (subscribePass self o) as [out [|]]; simpl; [|reflexivity].
  now destruct (subscribeLoop self rest).
Qed.

(** C1. A message read by the receive loop whose sender is the local peer
    is discarded, whatever its payload: the pass emits nothing, so nothing
    reaches the inbound channel, and the loop behaves as if the message had
    never been read. *)
Theorem self_echo_discarded (self : peerID) (data : bytes) (pre post : list observation) :
  subscribePass self (Next (NextMsg self data)) = ([], true)
  /\ deliveries (fst (subscribePass self (Next (NextMsg self data)))) = []
  /\ subscribeLoop self (pre ++ Next (NextMsg self data) :: post)
     = subscribeLoop self (pre ++ post).
Proof.
  split; [apply subscribePass_self |].
  split; [now rewrite subscribePass_self |].
  induction pre as [|o pre IH].
  - cbn [app]. rewrite subscribeLoop_cons, subscribePass_self. cbn [fst snd app].
    now destruct (subscribeLoop self post).
  - cbn [app]. rewrite !subscribeLoop_cons, IH. reflexivity.
Qed.

(** C2, as the code has it. A payload from another peer is rejected exactly
    when it does not decode: it is not well-formed JSON, or it is a JSON
    value that is neither [null] nor an object, or it is an object that
    holds something other than a string or [null] under one of the keys of
    the envelope. A rejected payload makes the loop emit exactly one log
    entry and no delivery, and the loop goes on with what it reads next.
    Every other payload is delivered, whether or not it is the encoding of a
    chat message, and no log entry is emitted for it. *)
Theorem malformed_payload_logged (self from : peerID) (data : bytes)
        (rest : list observation) :
  from <> self ->
  let rejected :=
    parse data = None \/ exists v, parse data = Some v /\ ~ acceptable v in
  let l := mkChatLog "suberr" "failed to unmarshal JSON" in
  (rejected ->
   subscribePass self (Next (NextMsg from data)) = ([ToLogs l], true)
   /\ logged (fst (subscribePass self (Next (NextMsg from data)))) = [l]
   /\ deliveries (fst (subscribePass self (Next (NextMsg from data)))) = []
   /\ subscribeLoop self (Next (NextMsg from data) :: rest)
      = (ToLogs l :: fst (subscribeLoop self rest), snd (subscribeLoop self rest)))
  /\ (~ rejected ->
      exists m : chatMessage,
        subscribePass self (Next (NextMsg from data)) = ([ToInbound m], true)
        /\ logged (fst (subscribePass self (Next (NextMsg from data)))) = []
        /\ deliveries (fst (subscribePass self (Next (NextMsg from data)))) = [m]).
Proof.
  intros Hfrom rejected l.
  assert (Hiff : snd (Unmarshal data zeroMessage) <> None <-> rejected).
  { unfold rejected. destruct (parse data) as [v|] eqn:Hp.
    - pose proof (Unmarshal_error data zeroMessage v Hp) as Hv. split.
      + intros He. right. exists v. split; [reflexivity |].
        intros Ha. apply He. now apply Hv.
      + intros [Hn | (v' & Hv' & Hna)] He; [discriminate Hn |].
        injection Hv' as <-. apply Hna. now apply Hv.
    - split; [now left |]. intros _. unfold Unmarshal. rewrite Hp. discriminate. }
  split.
  - intros Hrej. apply Hiff in Hrej.
    assert (Hp : subscribePass self (Next (NextMsg from data)) = ([ToLogs l], true)).
    { rewrite subscribePass_other by assumption.
      destruct (Unmarshal data zeroMessage) as [m [e|]]; [reflexivity | now elim Hrej]. }
    rewrite subscribeLoop_cons, Hp. repeat split; reflexivity.
  - intros Hacc. rewrite subscribePass_other by assumption.
    destruct (Unmarshal data zeroMessage) as [m [e|]] eqn:Hu.
    + elim Hacc. apply Hiff. discriminate.
    + exists m. repeat split; reflexivity.
Qed.

Lemma malformed_payload_logged_witness :
  subscribeLoop "QmLocal"
    [Next (NextMsg "QmRemote" (bytes_of "not json"));
     Next (NextMsg "QmRemote" (encode hello))]
  = ([ToLogs (mkChatLog "suberr" "failed to unmarshal JSON"); ToInbound hello], true).
Proof.
  destruct (malformed_payload_logged "QmLocal" "QmRemote" (bytes_of "not json")
              [Next (NextMsg "QmRemote" (encode hello))]) as [H _].
  - discriminate.
  - destruct H as (_ & _ & _ & H).
    + left. vm_compute. reflexivity.
    + rewrite H. vm_compute. reflexivity.
Defined.

(** C2, as stated, does not hold: [{"text":7}] is the encoding of no chat
    message, since every encoding starts with the key [message]; the loop
    nevertheless delivers it, as the message with three empty fields, and
    emits no log entry. *)
Lemma payload_without_fields_is_delivered :
  (forall m : chatMessage, encode m <> strangerPayload)
  /\ subscribePass "QmLocal" (Next (NextMsg "QmRemote" strangerPayload))
     = ([ToInbound zeroMessage], true)
  /\ logged (fst (subscribePass "QmLocal" (Next (NextMsg "QmRemote" strangerPayload))))
     = []
  /\ deliveries (fst (subscribePass "QmLocal" (Next (NextMsg "QmRemote" strangerPayload))))
     = [zeroMessage].
Proof.
  split; [| split; [| split]; vm_compute; reflexivity].
  intros m H.
  assert (Hn : nth_error (encode m) 2 = nth_error strangerPayload 2) by now rewrite H.
  destruct m as [a b c]. vm_compute in Hn. discriminate Hn.
Qed.

(** C10. Whether a message is an echo is decided by the peer it was
    received from alone, before the payload is looked at: from the local
    peer nothing is emitted, neither a log nor a delivery, even for a
    payload that does not decode; a pass that emits nothing can only have
    read a message from the local peer; and from another peer a
    well-formed envelope is delivered whatever its senderid field says. *)
Theorem echo_decided_by_transport_identity (self from : peerID) (data : bytes) :
  (from = self ->
   subscribePass self (Next (NextMsg from data)) = ([], true))
  /\ (subscribePass self (Next (NextMsg from data)) = ([], true) -> from = self)
  /\ (forall m : chatMessage,
        from <> self ->
        ValidString (Message m) = true ->
        ValidString (SenderID m) = true ->
        ValidString (SenderName m) = true ->
        subscribePass self (Next (NextMsg from (encode m))) = ([ToInbound m], true)).
Proof.
  split; [intros ->; apply subscribePass_self |].
  split.
  - intros H. destruct (decide (from = self)) as [|Hne]; [assumption |].
    rewrite subscribePass_other in H by assumption.
    destruct (Unmarshal data zeroMessage) as [m [e|]]; discriminate H.
  - intros m Hne H1 H2 H3. rewrite subscribePass_other by assumption.
    now rewrite Unmarshal_encode.
Qed.

Lemma echo_decided_by_transport_identity_witness :
  subscribePass "QmLocal" (Next (NextMsg "QmLocal" (bytes_of "not json"))) = ([], true)
  /\ subscribePass "QmLocal" (Next (NextMsg "QmRemote" (encode forged)))
     = ([ToInbound forged], true).
Proof.
  split.
  - apply (echo_decided_by_transport_identity "QmLocal" "QmLocal" (bytes_of "not json")).
    reflexivity.
  - apply (echo_decided_by_transport_identity "QmLocal" "QmRemote" []).
    + discriminate.
    + vm_compute; reflexivity.
    + vm_compute; reflexivity.
    + vm_compute; reflexivity.
Defined.

(** The loop closes the inbound channel at most once: it returns as soon
    as it has closed it. *)
Lemma subscribeLoop_closes_once self script :
  (closings (fst (subscribeLoop self script)) <= 1)%nat.
Proof.
  induction script as [|o rest IH]; [simpl; unfold closings; simpl; lia |].
  rewrite subscribeLoop_cons.
  destruct o as [|[|from data]].
  - vm_compute. lia.
  - vm_compute. lia.
  - unfold subscribePass. destruct (bool_decide (from = self)); [exact IH |].
    destruct (Unmarshal data zeroMessage) as [m [e|]]; exact IH.
Qed.

(** ** The codec *)

(** C4, as the code has it. Serializing a message and deserializing the
    bytes gives the message back when its text, sender identity and sender
    name are well-formed UTF-8; encoding never fails. *)
Theorem marshal_unmarshal_roundtrip (m v : chatMessage) :
  ValidString (Message m) = true ->
  ValidString (SenderID m) = true ->
  ValidString (SenderName m) = true ->
  snd (Marshal m) = None
  /\ Unmarshal (fst (Marshal m)) v = (m, None).
Proof.
  intros H1 H2 H3. split; [reflexivity |]. now apply Unmarshal_encode.
Qed.

Lemma marshal_unmarshal_roundtrip_witness :
  Unmarshal (fst (Marshal accented)) zeroMessage = (accented, None).
Proof.
  apply (marshal_unmarshal_roundtrip accented zeroMessage); vm_compute; reflexivity.
Defined.

(** C4, as stated, fails: a sender name holding the byte 0xFF, which is no
    UTF-8, comes back as the replacement character U+FFFD. *)
Lemma roundtrip_fails_on_illformed_name :
  Unmarshal (fst (Marshal illformedName)) zeroMessage
  = (mkChatMessage "hi" "QmRemote" (string_of (map byte_of [0xEF; 0xBF; 0xBD])), None)
  /\ fst (Unmarshal (fst (Marshal illformedName)) zeroMessage) <> illformedName.
Proof. split; [vm_compute; reflexivity | vm_compute; discriminate]. Qed.

(** ** The session engine *)

Ltac run :=
  unfold onLine, handlePass, displayMessage, displayLog, updatePeerBox,
    processCommand, switchRoom, UI_Close, Exit, UpdateUser, sendLog, sendOutbound,
    recvLogs, recvInbound, queueDraw, setLabel, setChatRoom, stopApp, current,
    store, deref, modify, get, put, bind, ret.

Lemma topicName_inj a b : topicName a = topicName b -> a = b.
Proof. unfold topicName. cbn. intros H. now inversion H. Qed.

Section EngineFacts.

Context {S : Substrate}.
Implicit Types (w : World S) (r : ChatRoom S) (cr : ref).

Lemma bind_Done {A B} (m : M A) (k : A -> M B) w a w' :
  m w = Done a w' -> bind m k w = k a w'.
Proof. unfold bind. now intros ->. Qed.

Lemma bind_Parked {A B} (m : M A) (k : A -> M B) w on w' :
  m w = Parked on w' -> bind m k w = Parked on w'.
Proof. unfold bind. now intros ->. Qed.

Lemma deref_Some w cr r : heap w !! cr = Some r -> deref cr w = Done r w.
Proof. unfold deref. now intros ->. Qed.

Lemma sendLog_sent w r (l : chatLog) :
  heap w !! ui_ChatRoom (ui w) = Some r ->
  closed (Logs r) = false ->
  (length (buf (Logs r)) < capacity)%nat ->
  sendLog l w
  = Done tt (set_heap (<[ui_ChatRoom (ui w) :=
                          set_Logs (mkChan (buf (Logs r) ++ [l]) false) r]> (heap w)) w).
Proof.
  intros Hr Hcl Hroom. unfold sendLog, send. rewrite Hr, Hcl.
  apply Nat.ltb_lt in Hroom. now rewrite Hroom.
Qed.

Lemma sendLog_parked w r (l : chatLog) :
  heap w !! ui_ChatRoom (ui w) = Some r ->
  closed (Logs r) = false ->
  (capacity <= length (buf (Logs r)))%nat ->
  sendLog l w = Parked (OnLogs (ui_ChatRoom (ui w)) l) w.
Proof.
  intros Hr Hcl Hfull. unfold sendLog, send. rewrite Hr, Hcl.
  apply Nat.ltb_ge in Hfull. now rewrite Hfull.
Qed.


(** C7. The topic of a room is the literal [room-peerchat], a dash and the
    room name, byte for byte; distinct room names never share a topic and
    equal ones always do; and it is the name [JoinChatRoom] joins first. *)
Theorem topic_of_room (roomName : string) :
  topicName roomName = ("room-peerchat" ++ "-" ++ roomName)%string
  /\ (forall other : string, topicName other = topicName roomName <-> other = roomName)
  /\ (forall w (username : string),
        exists rest,
          calls (world_of (JoinChatRoom username roomName w))
          = calls w ++ CJoin (topicName roomName) :: rest).
Proof.
  split; [reflexivity |]. split.
  - intros other. split; [apply topicName_inj | now intros ->].
  - intros w username. unfold JoinChatRoom.
    destruct (Join S (topicName roomName) (net w)) as [[topic|err] n1].
    + cbn. destruct (Subscribe S topic n1) as [[sub|err] n2]; cbn.
      * exists [CSubscribe]. now rewrite <- app_assoc.
      * exists [CSubscribe]. now rewrite <- app_assoc.
    + cbn. now exists [].
Qed.

(** C6. When the topic cannot be joined, or is joined but cannot be
    subscribed to, [JoinChatRoom] returns the error alone: no room is
    allocated, no loop is started, and the UI is as it was. *)
Theorem join_failure_returns_no_session w (username roomName : string) :
  (exists e, fst (Join S (topicName roomName) (net w)) = Err e)
  \/ (exists topic e,
        fst (Join S (topicName roomName) (net w)) = Ok topic
        /\ fst (Subscribe S topic (snd (Join S (topicName roomName) (net w)))) = Err e) ->
  exists e w',
    JoinChatRoom username roomName w = Done (Err e) w'
    /\ heap w' = heap w /\ spawned w' = spawned w /\ ui w' = ui w.
Proof.
  unfold JoinChatRoom.
  destruct (Join S (topicName roomName) (net w)) as [joined n1]. cbn [fst snd].
  intros [[e ->]|(topic & e & -> & Hsub)].
  - eexists _, _. split; [reflexivity |]. now cbn.
  - cbn. destruct (Subscribe S topic n1) as [subscribed n2]. cbn in Hsub. subst.
    eexists _, _. split; [reflexivity |]. now cbn.
Qed.

(** C9. [Exit] twice on a room: both calls return, the second leaves the
    heap as the first left it, and no channel of any room is closed or
    otherwise touched, in whatever state the room's channels were, closed
    by a loop that has returned or not. The one [close] of the program is
    in the receive loop, which performs it at most once however often the
    context is cancelled. *)
Theorem exit_twice w cr r :
  heap w !! cr = Some r ->
  (exists w1 w2,
     Exit cr w = Done tt w1
     /\ Exit cr w1 = Done tt w2
     /\ heap w1 = <[cr := set_psDone r]> (heap w)
     /\ heap w2 = heap w1
     /\ (forall i x, heap w !! i = Some x ->
           exists y, heap w2 !! i = Some y
                     /\ Inbound y = Inbound x /\ Outbound y = Outbound x
                     /\ Logs y = Logs x))
  /\ (forall script, (closings (fst (subscribeLoop (selfID r) script)) <= 1)%nat).
Proof.
  intros Hr. split; [|intros script; apply subscribeLoop_closes_once].
  pose proof (lookup_lt_Some _ _ _ Hr) as Hlt.
  run. cbn. rewrite Hr. cbn. rewrite Hr.
  eexists _, _. split; [reflexivity |].
  cbn. rewrite list_lookup_insert_eq by assumption. cbn.
  rewrite list_lookup_insert_eq by assumption.
  split; [reflexivity |]. split; [reflexivity |].
  cbn [heap set_heap log_call set_net]. rewrite list_insert_insert_eq.
  split; [reflexivity |].
  intros i x Hx.
  destruct (decide (i = cr)) as [Heq|Hne].
  - subst i. rewrite list_lookup_insert_eq by assumption.
    assert (Hxr : Some x = Some r) by (rewrite <- Hx; exact Hr).
    injection Hxr as ->. now eexists.
  - rewrite list_lookup_insert_ne by congruence. now exists x.
Qed.

(** One pass of the publish loop that dequeues [message]: the envelope is
    built from the room as it is now and handed to [Publish]. *)
Lemma publishPass_dequeued w cr r (message : string) :
  heap w !! cr = Some r ->
  exists tr w',
    publishPass cr (Dequeued message) w = Done (tr, true) w'
    /\ heap w' = heap w
    /\ calls w' = calls w ++ [CPublish (encode (envelope r message))].
Proof.
  intros Hr. unfold publishPass. run. rewrite Hr. cbn.
  destruct (Publish S (psTopic r) (encode (envelope r message)) (net w)) as [[e|] n];
    eexists _, _; (split; [reflexivity |]); now cbn.
Qed.

Lemma publishLoop_dequeued cr r (msgs : list string) : forall w,
  heap w !! cr = Some r ->
  exists tr w',
    publishLoop cr (map Dequeued msgs) w = Done (tr, true) w'
    /\ heap w' = heap w
    /\ calls w' = calls w ++ map (fun m => CPublish (encode (envelope r m))) msgs.
Proof.
  induction msgs as [|m msgs IH]; intros w Hr.
  - exists [], w. cbn. now rewrite app_nil_r.
  - destruct (publishPass_dequeued w cr r m Hr) as (tr & w1 & Hp & Hh & Hc).
    assert (Hr1 : heap w1 !! cr = Some r) by now rewrite Hh.
    destruct (IH w1 Hr1) as (tr' & w2 & Hl & Hh' & Hc').
    exists (tr ++ tr'), w2. cbn [map publishLoop]. unfold bind at 1. rewrite Hp.
    cbn [snd fst]. unfold bind, ret. rewrite Hl. cbn [fst snd].
    split; [reflexivity |]. split; [congruence |].
    rewrite Hc', Hc, <- app_assoc. reflexivity.
Qed.


(** [switchRoom] when the room cannot be joined: the call never returns.
    With an entry already waiting in [Logs] it parks on the first send;
    otherwise the first send fills the channel and it parks on the send of
    the error entry. The UI keeps its room. *)
Lemma switchRoom_join_fails w r (roomName : string) e :
  heap w !! ui_ChatRoom (ui w) = Some r ->
  closed (Logs r) = false ->
  (forall w0, net w0 = net w ->
     exists w1, JoinChatRoom (UserName r) roomName w0 = Done (Err e) w1
                /\ heap w1 = heap w0 /\ ui w1 = ui w0) ->
  let cr := ui_ChatRoom (ui w) in
  let info := mkChatLog "info" ("switching to room '" ++ roomName ++ "'") in
  let oops := mkChatLog "error" ("could not switch rooms: " ++ e) in
  (buf (Logs r) <> [] /\ switchRoom roomName w = Parked (OnLogs cr info) w)
  \/ (buf (Logs r) = []
      /\ exists w', switchRoom roomName w = Parked (OnLogs cr oops) w'
                    /\ ui w' = ui w
                    /\ heap w' = <[cr := set_Logs (mkChan [info] false) r]> (heap w)).
Proof.
  intros Hr Hcl Hjoin cr info oops.
  pose proof (lookup_lt_Some _ _ _ Hr) as Hlt.
  destruct (buf (Logs r)) as [|l0 ls] eqn:Hbuf; [right | left]; split; try easy.
  - set (room1 := set_Logs (mkChan [info] false) r).
    set (w1 := set_heap (<[cr := room1]> (heap w)) w).
    assert (Hs : sendLog info w = Done tt w1).
    { rewrite (sendLog_sent w r) by (rewrite ?Hbuf; auto; cbn; unfold capacity; lia).
      now rewrite Hbuf. }
    assert (Hr1 : heap w1 !! cr = Some room1).
    { subst w1. cbn [heap set_heap]. now apply list_lookup_insert_eq. }
    destruct (Hjoin w1 eq_refl) as (w2 & Hj & Hh & Hu).
    assert (Hr2 : heap w2 !! ui_ChatRoom (ui w2) = Some room1).
    { rewrite Hh, Hu. exact Hr1. }
    exists w2. unfold switchRoom.
    rewrite (bind_Done _ _ _ _ _ Hs).
    rewrite (bind_Done current _ w1 cr w1 eq_refl).
    rewrite (bind_Done _ _ _ _ _ (deref_Some _ _ _ Hr1)).
    change (UserName room1) with (UserName r).
    rewrite (bind_Done _ _ _ _ _ Hj).
    rewrite (sendLog_parked w2 room1) by (auto; cbn; unfold capacity; lia).
    rewrite Hu. split; [reflexivity |]. split; [reflexivity | exact Hh].
  - unfold switchRoom.
    rewrite (bind_Parked _ _ _ _ _ (sendLog_parked w r info Hr Hcl ltac:(rewrite Hbuf; cbn; unfold capacity; lia))).
    reflexivity.
Qed.

(** A pass that parks ends the event loop there: nothing that fires later
    is handled, the log case that would make room included. *)
Lemma handleEvents_parked w (f : fired) (rest : list fired) on w' :
  handlePass f w = Parked on w' -> handleEvents (f :: rest) w = Parked on w'.
Proof. intros H. cbn [handleEvents]. now rewrite (bind_Parked _ _ _ _ _ H). Qed.

(** A sender parked on a full channel stays parked whatever else is sent:
    only a receive makes room. *)
Lemma parked_stays_parked {A} (v v' : A) (c : chan A) :
  send v c = WouldBlock -> send v' c = WouldBlock.
Proof.
  unfold send. destruct (closed c); [discriminate |].
  destruct (length (buf c) <? capacity)%nat; [discriminate | reflexivity].
Qed.

(** The pass of the event loop that takes an entry from the log channel
    leaves the channel empty again. *)
Lemma logs_case_drains w r (l : chatLog) :
  heap w !! ui_ChatRoom (ui w) = Some r ->
  Logs r = mkChan [l] false ->
  exists w',
    handlePass FromLogs w = Done true w'
    /\ heap w' = <[ui_ChatRoom (ui w) := set_Logs make r]> (heap w)
    /\ draws (ui w') = draws (ui w) ++ [DrawLog l].
Proof.
  intros Hr Hl. run. rewrite Hr, Hl. cbn. eexists. split; [reflexivity |]. now cbn.
Qed.


End EngineFacts.

Lemma lobby_room : heap lobby !! ui_ChatRoom (ui lobby) = Some lobbyRoom.
Proof. reflexivity. Qed.

Lemma join_failure_returns_no_session_witness :
  (exists e w',
     JoinChatRoom "alice" "lobby" lobby = Done (Err e) w'
     /\ heap w' = heap lobby /\ spawned w' = spawned lobby /\ ui w' = ui lobby)
  /\ (exists e w',
        JoinChatRoom "alice" "lobby" closing = Done (Err e) w'
        /\ heap w' = heap closing /\ spawned w' = spawned closing /\ ui w' = ui closing).
Proof.
  split.
  - apply (join_failure_returns_no_session lobby "alice" "lobby").
    left. exists "topic already exists". vm_compute. reflexivity.
  - apply (join_failure_returns_no_session closing "alice" "lobby").
    right. exists "room-peerchat-lobby", "pubsub is closing".
    split; vm_compute; reflexivity.
Defined.

Lemma exit_twice_witness :
  exists w1 w2,
    Exit 0%nat lobbyEnded = Done tt w1 /\ Exit 0%nat w1 = Done tt w2 /\ heap w2 = heap w1
    /\ (Inbound <$> heap w2 !! 0%nat) = Some (mkChan [] true).
Proof.
  destruct (exit_twice lobbyEnded 0%nat (set_Inbound (mkChan [] true) lobbyRoom) eq_refl)
    as ((w1 & w2 & H1 & H2 & _ & H4 & H5) & _).
  exists w1, w2. repeat split; try assumption.
  destruct (H5 0%nat _ eq_refl) as (y & Hy & Hi & _).
  rewrite Hy. cbn. now rewrite Hi.
Defined.







(** C3 on the running program: [/room lobby] typed in room [lobby]. The
    router refuses to join a topic twice, so the join fails; the entry
    [switching to room] that [switchRoom] sent first fills the log channel,
    whose only reader is the goroutine now running [switchRoom]; the send
    of the error entry parks, the call does not return, and no error entry
    is in the channel. The UI still points to the room it had, and the
    event loop handles nothing that fires later. *)
Theorem switch_to_joined_room_parks :
  let info := mkChatLog "info" "switching to room 'lobby'" in
  let oops := mkChatLog "error" "could not switch rooms: topic already exists" in
  let o := onLine "/room lobby" lobby in
  (exists w', o = Parked (OnLogs 0%nat oops) w')
  /\ ui (world_of o) = ui lobby
  /\ (Logs <$> heap (world_of o) !! 0%nat) = Some (mkChan [info] false)
  /\ send oops (mkChan [info] false) = WouldBlock
  /\ (forall later : list fired,
        handleEvents (FromCmdInputs (mkUICommand "/room" "lobby") :: later) lobby = o).
Proof.
  cbv zeta. split; [vm_compute; eexists; reflexivity |].
  split; [vm_compute; reflexivity |].
  split; [vm_compute; reflexivity |].
  split; [vm_compute; reflexivity |].
  intros later. apply handleEvents_parked. vm_compute. reflexivity.
Qed.

(** A switch that succeeds returns, and the loop goes on in the new
    room. *)
Lemma switch_to_new_room_returns :
  let o := handleEvents [FromCmdInputs (mkUICommand "/room" "den"); FromTicker] lobby in
  (exists w', o = Done true w')
  /\ ui_ChatRoom (ui (world_of o)) = 1%nat
  /\ (RoomName <$> heap (world_of o) !! 1%nat) = Some "den"
  /\ (psDone <$> heap (world_of o) !! 0%nat) = Some true.
Proof.
  cbv zeta. split; [vm_compute; eexists; reflexivity |].
  split; [vm_compute; reflexivity |].
  split; vm_compute; reflexivity.
Qed.

(** * Further properties of the code *)

(** ** The receive loop, over all it reads *)

Lemma subscribeLoop_app_running self pre post :
  snd (subscribeLoop self pre) = true ->
  subscribeLoop self (pre ++ post)
  = (fst (subscribeLoop self pre) ++ fst (subscribeLoop self post),
     snd (subscribeLoop self post)).
Proof.
  induction pre as [|o pre IH]; intros Hrun.
  - cbn. now destruct (subscribeLoop self post).
  - cbn [app]. rewrite (subscribeLoop_cons self o pre) in Hrun |- *.
    rewrite (subscribeLoop_cons self o (pre ++ post)).
    destruct (snd (subscribePass self o)); [|discriminate Hrun].
    cbn [fst snd] in Hrun |- *. rewrite (IH Hrun). cbn [fst snd].
    now rewrite <- app_assoc.
Qed.

Lemma subscribeLoop_app_stopped self pre post :
  snd (subscribeLoop self pre) = false ->
  subscribeLoop self (pre ++ post) = subscribeLoop self pre.
Proof.
  induction pre as [|o pre IH]; intros Hrun; [discriminate Hrun |].
  cbn [app]. rewrite (subscribeLoop_cons self o pre) in Hrun |- *.
  rewrite (subscribeLoop_cons self o (pre ++ post)).
  destruct (snd (subscribePass self o)); [|reflexivity].
  cbn [fst snd] in Hrun. rewrite (IH Hrun). now destruct (subscribeLoop self pre).
Qed.

Lemma subscribePass_no_close_while_running self o :
  snd (subscribePass self o) = true -> CloseInbound ∉ fst (subscribePass self o).
Proof.
  destruct o as [|[|from data]]; cbn; try discriminate.
  intros _. destruct (bool_decide (from = self)); cbn; [apply not_elem_of_nil |].
  destruct (Unmarshal data zeroMessage) as [m [e|]]; cbn;
    intros H; apply list_elem_of_singleton in H; discriminate H.
Qed.

Lemma subscribePass_close_is_last self o :
  snd (subscribePass self o) = false ->
  exists tr, fst (subscribePass self o) = tr ++ [CloseInbound] /\ CloseInbound ∉ tr.
Proof.
  destruct o as [|[|from data]]; cbn.
  - intros _. exists []. split; [reflexivity | apply not_elem_of_nil].
  - intros _. exists [ToLogs (mkChatLog "suberr" "subscription closed")].
    split; [reflexivity |]. intros H. apply list_elem_of_singleton in H. discriminate H.
  - destruct (bool_decide (from = self)); cbn; [discriminate |].
    destruct (Unmarshal data zeroMessage) as [m [e|]]; discriminate.
Qed.

(** The last pass of the receive loop on the channels of its room. *)
Lemma emit_close {S : Substrate} (r : ChatRoom S) :
  closed (Inbound r) = false ->
  emit [CloseInbound] r = Completed (set_Inbound (mkChan (buf (Inbound r)) true) r).
Proof. intros H. cbn. now rewrite H. Qed.

Lemma emit_log_sent {S : Substrate} (r : ChatRoom S) (l : chatLog) rest :
  closed (Logs r) = false ->
  (length (buf (Logs r)) < capacity)%nat ->
  emit (ToLogs l :: rest) r = emit rest (set_Logs (mkChan (buf (Logs r) ++ [l]) false) r).
Proof.
  intros Hcl Hroom. cbn [emit]. unfold send. rewrite Hcl.
  apply Nat.ltb_lt in Hroom. now rewrite Hroom.
Qed.

Lemma emit_log_waits {S : Substrate} (r : ChatRoom S) (l : chatLog) rest :
  closed (Logs r) = false ->
  (capacity <= length (buf (Logs r)))%nat ->
  emit (ToLogs l :: rest) r = Waiting (ToLogs l) r.
Proof.
  intros Hcl Hfull. cbn [emit]. unfold send. rewrite Hcl.
  apply Nat.ltb_ge in Hfull. now rewrite Hfull.
Qed.

(** X1. How the receive loop ends, on the channels of a room whose inbound
    and log channels are open. A cancelled context makes it close the
    inbound channel and return. A failed read makes it send the entry
    [subscription closed] to the log channel first: when that channel has
    room the entry is buffered, the inbound channel is closed and the loop
    returns; when an entry is still waiting there, as in the room that a
    switch has left, the loop waits on that send with the inbound channel
    still open, and goes on to close it once the entry has been taken out.
    In each case nothing that the subscription would yield afterwards is
    read. *)
Theorem receive_loop_stops_or_waits {S : Substrate} (self : peerID)
        (pre post : list observation) (r : ChatRoom S) :
  snd (subscribeLoop self pre) = true ->
  closed (Inbound r) = false ->
  closed (Logs r) = false ->
  let oops := mkChatLog "suberr" "subscription closed" in
  let shut := fun r' : ChatRoom S => set_Inbound (mkChan (buf (Inbound r')) true) r' in
  (subscribeLoop self (pre ++ CtxDone :: post)
   = (fst (subscribeLoop self pre) ++ [CloseInbound], false)
   /\ emit (fst (subscribePass self CtxDone)) r = Completed (shut r))
  /\ subscribeLoop self (pre ++ Next NextErr :: post)
     = (fst (subscribeLoop self pre) ++ [ToLogs oops; CloseInbound], false)
  /\ ((length (buf (Logs r)) < capacity)%nat ->
      emit (fst (subscribePass self (Next NextErr))) r
      = Completed (shut (set_Logs (mkChan (buf (Logs r) ++ [oops]) false) r)))
  /\ ((capacity <= length (buf (Logs r)))%nat ->
      emit (fst (subscribePass self (Next NextErr))) r = Waiting (ToLogs oops) r
      /\ forall taken : ChatRoom S,
           Logs taken = make ->
           Inbound taken = Inbound r ->
           emit (fst (subscribePass self (Next NextErr))) taken
           = Completed (shut (set_Logs (mkChan [oops] false) taken))).
Proof.
  intros Hrun Hin Hlogs oops shut.
  split; [split |split; [|split]].
  - rewrite (subscribeLoop_app_running _ _ _ Hrun). reflexivity.
  - now apply emit_close.
  - rewrite (subscribeLoop_app_running _ _ _ Hrun). reflexivity.
  - intros Hroom. cbn [subscribePass fst].
    rewrite (emit_log_sent r oops _ Hlogs Hroom). now apply emit_close.
  - intros Hfull. split; [now apply emit_log_waits |].
    intros taken Ht Hi. cbn [subscribePass fst].
    rewrite (emit_log_sent taken oops _) by (rewrite Ht; cbn; unfold capacity; lia).
    rewrite Ht. cbn [buf make app]. apply emit_close. cbn. now rewrite Hi.
Qed.

Lemma receive_loop_stops_or_waits_witness :
  subscribeLoop "QmLocal"
    ([Next (NextMsg "QmRemote" (encode hello))] ++ CtxDone
       :: [Next (NextMsg "QmRemote" (encode hello))])
  = ([ToInbound hello; CloseInbound], false)
  /\ emit (fst (subscribePass "QmLocal" (Next NextErr))) lobbyRoom
     = Completed (set_Inbound (mkChan [] true)
                    (set_Logs (mkChan [mkChatLog "suberr" "subscription closed"] false)
                              lobbyRoom))
  /\ (exists w',
        handleEvents [FromCmdInputs (mkUICommand "/room" "den")] lobby = Done true w'
        /\ heap w' !! 0%nat = Some lobbyLeft)
  /\ emit (fst (subscribePass "QmLocal" (Next NextErr))) lobbyLeft
     = Waiting (ToLogs (mkChatLog "suberr" "subscription closed")) lobbyLeft.
Proof.
  destruct (receive_loop_stops_or_waits "QmLocal" [Next (NextMsg "QmRemote" (encode hello))]
              [Next (NextMsg "QmRemote" (encode hello))] lobbyRoom)
    as ((H1 & _) & _ & H2 & _); [vm_compute; reflexivity | reflexivity | reflexivity |].
  destruct (receive_loop_stops_or_waits "QmLocal" [Next (NextMsg "QmRemote" (encode hello))]
              [Next (NextMsg "QmRemote" (encode hello))] lobbyLeft)
    as (_ & _ & _ & H3); [vm_compute; reflexivity | reflexivity | reflexivity |].
  split; [rewrite H1; vm_compute; reflexivity |].
  split; [apply H2; cbn; unfold capacity; lia |].
  split; [eexists; split; vm_compute; reflexivity |].
  apply H3. cbn; unfold capacity; lia.
Defined.

(** X2. The receive loop closes the inbound channel exactly when it
    returns, as the last thing it does: a running loop has not closed it,
    a loop that has returned closed it once, sent nothing after, and reads
    nothing more. So it never sends on the channel it closed. *)
Theorem receive_loop_closes_last (self : peerID) (script : list observation) :
  (snd (subscribeLoop self script) = true ->
   CloseInbound ∉ fst (subscribeLoop self script))
  /\ (snd (subscribeLoop self script) = false ->
      (exists tr, fst (subscribeLoop self script) = tr ++ [CloseInbound]
                  /\ CloseInbound ∉ tr)
      /\ forall more, subscribeLoop self (script ++ more) = subscribeLoop self script).
Proof.
  split.
  - induction script as [|o rest IH]; [intros _; apply not_elem_of_nil |].
    rewrite subscribeLoop_cons.
    destruct (snd (subscribePass self o)) eqn:Hp; [|discriminate].
    cbn [fst snd]. intros Hrun. rewrite elem_of_app. intros [H|H].
    + now apply (subscribePass_no_close_while_running self o Hp).
    + now apply IH.
  - intros Hstop. split; [|intros more; now apply subscribeLoop_app_stopped].
    induction script as [|o rest IH]; [discriminate Hstop |].
    rewrite subscribeLoop_cons in Hstop |- *.
    destruct (snd (subscribePass self o)) eqn:Hp; cbn [fst snd] in Hstop |- *.
    + destruct (IH Hstop) as (tr & Htr & Hno).
      exists (fst (subscribePass self o) ++ tr). rewrite Htr, app_assoc.
      split; [reflexivity |]. rewrite elem_of_app. intros [H|H]; [|now apply Hno].
      now apply (subscribePass_no_close_while_running self o Hp).
    + now apply subscribePass_close_is_last.
Qed.

(** X3. What peers publish with [Marshal] is delivered by the receive loop
    in the order it arrives, one delivery for each envelope received from
    another peer and none for those received from the local peer; no
    entry is logged and the loop keeps running. Each delivery is the
    envelope with its strings coerced to well-formed UTF-8. *)
Theorem peer_envelopes_delivered_in_order (self : peerID)
        (sent : list (peerID * chatMessage)) :
  subscribeLoop self (map (fun fm => received (fst fm) (snd fm)) sent)
  = (map (fun fm => ToInbound (coerced (snd fm)))
         (filter (fun fm => fst fm <> self) sent), true).
Proof.
  induction sent as [|[from m] sent IH]; [reflexivity |].
  cbn [map fst snd]. unfold received at 1. rewrite subscribeLoop_cons.
  destruct (decide (from = self)) as [->|Hne].
  - rewrite subscribePass_self. cbn [fst snd app]. rewrite IH.
    rewrite filter_cons_False by (cbn; tauto). reflexivity.
  - rewrite subscribePass_other by assumption. rewrite Unmarshal_encode_coerced.
    cbn [fst snd app]. rewrite IH.
    rewrite filter_cons_True by (cbn; assumption). reflexivity.
Qed.

Lemma object_unknown_keys ms st :
  Forall (fun kv : bytes * value => lookupField (fst kv) = None) ms ->
  object ms st = st.
Proof.
  unfold object. intros H. revert st.
  induction H as [|kv ms Hkv _ IH]; intros st; [reflexivity |].
  cbn [fold_left]. rewrite Hkv. apply IH.
Qed.

(** X4. The receive loop does not look for the three fields: a payload
    from another peer that is the JSON value [null], or an object none of
    whose keys names a field of the envelope, decodes without error and is
    delivered as the empty message, with no text, no sender identity and no
    sender name. *)
Theorem empty_envelope_delivered (self from : peerID) (data : bytes) :
  from <> self ->
  parse data = Some VNull
  \/ (exists ms, parse data = Some (VObject ms)
                 /\ Forall (fun kv => lookupField (fst kv) = None) ms) ->
  subscribePass self (Next (NextMsg from data)) = ([ToInbound zeroMessage], true).
Proof.
  intros Hne Hp. rewrite subscribePass_other by assumption. unfold Unmarshal.
  destruct Hp as [->|(ms & -> & Hms)]; [reflexivity |].
  now rewrite object_unknown_keys.
Qed.

Lemma empty_envelope_delivered_witness :
  subscribePass "QmLocal" (Next (NextMsg "QmRemote" (bytes_of "null")))
  = ([ToInbound zeroMessage], true)
  /\ subscribePass "QmLocal" (Next (NextMsg "QmRemote" (bytes_of "{}")))
     = ([ToInbound zeroMessage], true)
  /\ subscribePass "QmLocal"
       (Next (NextMsg "QmRemote" strangerPayload))
     = ([ToInbound zeroMessage], true).
Proof.
  split; [|split].
  - apply (empty_envelope_delivered "QmLocal" "QmRemote" (bytes_of "null"));
      [discriminate | left; vm_compute; reflexivity].
  - apply (empty_envelope_delivered "QmLocal" "QmRemote" (bytes_of "{}"));
      [discriminate | right; exists []; split; [vm_compute; reflexivity | constructor]].
  - apply (empty_envelope_delivered "QmLocal" "QmRemote"
             strangerPayload); [discriminate |].
    right. eexists. split; [vm_compute; reflexivity |].
    repeat constructor.
Defined.

(** ** Coercion to well-formed UTF-8 is the only loss of the codec *)

Lemma valid_loop_nil f : valid_loop f [] = true.
Proof. now destruct f. Qed.

Lemma valid_loop_chunk f chunk X :
  chunk <> [] ->
  illformed (DecodeRune (chunk ++ X)) = false ->
  snd (DecodeRune (chunk ++ X)) = length chunk ->
  valid_loop (S f) (chunk ++ X) = valid_loop f X.
Proof.
  intros Hne Hill Hsz. destruct chunk as [|b chunk]; [congruence |].
  change ((b :: chunk) ++ X) with (b :: chunk ++ X) in *.
  rewrite valid_loop_cons, Hill, Hsz.
  change (b :: chunk ++ X) with ((b :: chunk) ++ X).
  now rewrite drop_app_length.
Qed.

Lemma coerce_loop_is_valid f : forall s,
  (length s <= f)%nat ->
  forall f2, (length (coerce_loop f s) <= f2)%nat ->
  valid_loop f2 (coerce_loop f s) = true.
Proof.
  induction f as [|f IH]; intros s Hlen f2 Hf2; [apply valid_loop_nil |].
  destruct s as [|b rest]; [apply valid_loop_nil |].
  rewrite coerce_loop_cons in Hf2 |- *.
  destruct (illformed (DecodeRune (b :: rest))) eqn:Hill.
  - rewrite (illformed_size _ Hill) in Hf2 |- *.
    change (skipn 1 (b :: rest)) with rest in *.
    rewrite length_app in Hf2. change (length (EncodeRune RuneError)) with 3%nat in Hf2.
    destruct f2 as [|f2]; [exfalso; lia |].
    rewrite valid_loop_chunk; [| discriminate | reflexivity | reflexivity].
    apply IH; [cbn in Hlen; lia | lia].
  - destruct (wellformed_cases (b :: rest)) as (chunk & t & Hs & Hn & _ & Hdec & _);
      [discriminate | exact Hill |].
    pose proof (DecodeRune_size (b :: rest) ltac:(discriminate)) as Hsz.
    rewrite <- Hn in Hf2, Hsz |- *. rewrite Hs in Hf2 |- *.
    rewrite take_app_length in Hf2 |- *. rewrite drop_app_length in Hf2 |- *.
    rewrite length_app in Hf2.
    assert (Hlt : (length t <= f)%nat).
    { apply (f_equal (@length _)) in Hs. rewrite length_app in Hs. cbn in Hlen, Hs. lia. }
    destruct f2 as [|f2]; [exfalso; lia |].
    rewrite valid_loop_chunk.
    + apply IH; [exact Hlt | lia].
    + intros ->. cbn in Hsz. lia.
    + rewrite Hdec. exact Hill.
    + rewrite Hdec. now rewrite Hn.
Qed.

Lemma coerce_is_valid s : ValidString (coerce s) = true.
Proof.
  unfold ValidString, Valid, coerce. rewrite bytes_of_string_of.
  now apply coerce_loop_is_valid.
Qed.

(** X5. Whatever bytes the three strings of a message hold, what a peer
    decodes from its encoding has well-formed UTF-8 strings, and a second
    trip through the codec gives it back unchanged: the replacement of
    ill-formed bytes happens once. *)
Theorem delivered_text_is_stable (m v : chatMessage) :
  let d := fst (Unmarshal (fst (Marshal m)) v) in
  d = coerced m
  /\ ValidString (Message d) = true
  /\ ValidString (SenderID d) = true
  /\ ValidString (SenderName d) = true
  /\ Unmarshal (fst (Marshal d)) v = (d, None).
Proof.
  cbv zeta. cbn [Marshal fst]. rewrite Unmarshal_encode_coerced. cbn [fst].
  split; [reflexivity |].
  assert (H1 : ValidString (Message (coerced m)) = true) by apply coerce_is_valid.
  assert (H2 : ValidString (SenderID (coerced m)) = true) by apply coerce_is_valid.
  assert (H3 : ValidString (SenderName (coerced m)) = true) by apply coerce_is_valid.
  repeat (split; [assumption |]). now apply Unmarshal_encode.
Qed.

(** ** The publish loop *)

Section PublishFacts.

Context {S : Substrate}.
Implicit Types (w : World S) (r : ChatRoom S) (cr : ref).

Lemma publishPass_Dequeued w cr r (message : string) :
  heap w !! cr = Some r ->
  let data := encode (envelope r message) in
  let published := Publish S (psTopic r) data (net w) in
  publishPass cr (Dequeued message) w
  = Done (match fst published with
          | Some _ => [ToLogs (mkChatLog "puberr" "failed to publish message")]
          | None => []
          end, true)
         (log_call (CPublish data) (set_net (snd published) w)).
Proof.
  intros Hr. cbv zeta. unfold publishPass. run. rewrite Hr. cbn.
  now destruct (Publish S (psTopic r) (encode (envelope r message)) (net w)) as [[e|] n].
Qed.


(** X7. The bytes the publish loop hands to the topic for a text are read
    by the receive loop of every other peer as one delivery, the envelope
    with that text, the pretty identity of the sender and its user name,
    coerced to well-formed UTF-8 and hence unchanged when the three are
    well-formed; the receive loop of the sender itself discards them. *)
Theorem published_text_reaches_peers w cr r (text : string) :
  heap w !! cr = Some r ->
  exists data tr w',
    publishPass cr (Dequeued text) w = Done (tr, true) w'
    /\ calls w' = calls w ++ [CPublish data]
    /\ (forall self from : peerID,
          from <> self ->
          subscribePass self (Next (NextMsg from data))
          = ([ToInbound (coerced (envelope r text))], true))
    /\ subscribePass (selfID r) (Next (NextMsg (selfID r) data)) = ([], true)
    /\ (ValidString text = true ->
        ValidString (Pretty S (selfID r)) = true ->
        ValidString (UserName r) = true ->
        coerced (envelope r text) = envelope r text).
Proof.
  intros Hr. pose proof (publishPass_Dequeued w cr r text Hr) as Hp. cbv zeta in Hp.
  eexists _, _, _. split; [exact Hp |].
  split; [reflexivity |]. split; [|split].
  - intros self from Hne. rewrite subscribePass_other by assumption.
    now rewrite Unmarshal_encode_coerced.
  - apply subscribePass_self.
  - intros H1 H2 H3. unfold coerced, envelope. cbn [Message SenderID SenderName].
    now rewrite !coerce_valid by assumption.
Qed.

End PublishFacts.


Lemma published_text_reaches_peers_witness :
  exists data tr w',
    publishPass 0%nat (Dequeued "hi") lobby = Done (tr, true) w'
    /\ calls w' = calls lobby ++ [CPublish data]
    /\ subscribePass "QmRemote" (Next (NextMsg "QmLocal" data))
       = ([ToInbound (mkChatMessage "hi" "QmLocal" "alice")], true)
    /\ subscribePass "QmLocal" (Next (NextMsg "QmLocal" data)) = ([], true).
Proof.
  destruct (published_text_reaches_peers lobby 0%nat lobbyRoom "hi" lobby_room)
    as (data & tr & w' & Hp & Hc & Hother & Hself & Hv).
  exists data, tr, w'. split; [exact Hp |]. split; [exact Hc |].
  split; [|exact Hself].
  rewrite (Hother "QmRemote" "QmLocal") by discriminate.
  rewrite Hv by (vm_compute; reflexivity). reflexivity.
Defined.

(** ** The session engine, beyond the failing join *)

Section SessionFacts.

Context {S : Substrate}.
Implicit Types (w : World S) (r : ChatRoom S) (cr : ref).

Lemma JoinChatRoom_ok w (username roomName : string) topic sub n1 n2 :
  Join S (topicName roomName) (net w) = (Ok topic, n1) ->
  Subscribe S topic n1 = (Ok sub, n2) ->
  JoinChatRoom username roomName w
  = Done (Ok (length (heap w)))
      (mkWorld n2 (calls w ++ [CJoin (topicName roomName); CSubscribe])
         (heap w ++ [mkChatRoom make make make roomName username (HostID S n2)
                                false topic sub])
         (spawned w ++ [GoSubscribeLoop (length (heap w)); GoPublishLoop (length (heap w))])
         (ui w)).
Proof.
  intros Hj Hs. unfold JoinChatRoom. rewrite Hj. cbn. rewrite Hs. cbn.
  unfold spawn, set_heap, log_call, set_net. cbn. now rewrite <- !app_assoc.
Qed.

Lemma Exit_eq w cr r :
  heap w !! cr = Some r ->
  Exit cr w
  = Done tt (mkWorld (snd (Close S (psTopic r) (Cancel S (psSub r) (net w))))
                     (calls w ++ [CCancel; CClose])
                     (<[cr := set_psDone r]> (heap w)) (spawned w) (ui w)).
Proof.
  intros Hr. run. cbn. rewrite Hr. cbn. rewrite Hr.
  unfold set_heap, log_call, set_net. cbn. now rewrite <- app_assoc.
Qed.

Lemma Exit_dangling w cr : heap w !! cr = None -> Exit cr w = Panic w.
Proof. intros Hr. run. now rewrite Hr. Qed.

(** X8. When the topic is joined and subscribed to, [JoinChatRoom] returns
    a new room and changes nothing that was there: the room is appended to
    the heap with its three channels open and empty, the given room and
    user name, the identity of the host and a context that is not
    cancelled; the receive loop and the publish loop are started on it, in
    this order; the two calls on the router are the join and the
    subscription; the rooms that existed and the UI are as they were. *)
Theorem join_success_fresh_session w (username roomName : string) topic sub n1 n2 :
  Join S (topicName roomName) (net w) = (Ok topic, n1) ->
  Subscribe S topic n1 = (Ok sub, n2) ->
  let cr := length (heap w) in
  exists w',
    JoinChatRoom username roomName w = Done (Ok cr) w'
    /\ heap w' = heap w ++ [mkChatRoom make make make roomName username (HostID S n2)
                                       false topic sub]
    /\ heap w' !! cr = Some (mkChatRoom make make make roomName username (HostID S n2)
                                        false topic sub)
    /\ (forall i x, heap w !! i = Some x -> heap w' !! i = Some x)
    /\ spawned w' = spawned w ++ [GoSubscribeLoop cr; GoPublishLoop cr]
    /\ calls w' = calls w ++ [CJoin (topicName roomName); CSubscribe]
    /\ net w' = n2
    /\ ui w' = ui w.
Proof.
  intros Hj Hs cr. eexists. split; [now apply (JoinChatRoom_ok w _ _ topic sub n1 n2) |].
  cbn [heap spawned calls net ui].
  split; [reflexivity |]. split; [apply list_lookup_middle; reflexivity |].
  split; [intros i x Hx; now apply lookup_app_l_Some |].
  repeat split.
Qed.

Lemma switchRoom_ok w r (roomName : string) topic sub n1 n2 :
  heap w !! ui_ChatRoom (ui w) = Some r ->
  Logs r = make ->
  Join S (topicName roomName) (net w) = (Ok topic, n1) ->
  Subscribe S topic n1 = (Ok sub, n2) ->
  let old := ui_ChatRoom (ui w) in
  let new := length (heap w) in
  let info := mkChatLog "info" ("switching to room '" ++ roomName ++ "'") in
  switchRoom roomName w
  = Done tt
      (mkWorld (snd (Close S (psTopic r) (Cancel S (psSub r) n2)))
         (calls w ++ [CJoin (topicName roomName); CSubscribe; CCancel; CClose])
         (<[old := set_psDone (set_Logs (mkChan [info] false) r)]> (heap w)
          ++ [mkChatRoom make make make roomName (UserName r) (HostID S n2)
                         false topic sub])
         (spawned w ++ [GoSubscribeLoop new; GoPublishLoop new])
         (mkUI new (InputLabel (ui w)) (draws (ui w) ++ [DrawClear; DrawTitle])
               (stopped (ui w)))).
Proof.
  intros Hr Hlogs Hj Hs old new info.
  pose proof (lookup_lt_Some _ _ _ Hr) as Hlt.
  set (room1 := set_Logs (mkChan [info] false) r).
  set (w1 := set_heap (<[old := room1]> (heap w)) w).
  assert (Hsend : sendLog info w = Done tt w1).
  { rewrite (sendLog_sent w r) by (rewrite ?Hlogs; auto; cbn; unfold capacity; lia).
    now rewrite Hlogs. }
  assert (Hr1 : heap w1 !! old = Some room1).
  { subst w1. cbn [heap set_heap]. now apply list_lookup_insert_eq. }
  pose proof (JoinChatRoom_ok w1 (UserName r) roomName topic sub n1 n2 Hj Hs) as Hjoin.
  set (w2 := mkWorld _ _ _ _ _) in Hjoin.
  assert (Hr2 : heap w2 !! old = Some room1).
  { subst w2. cbn [heap]. now apply lookup_app_l_Some. }
  unfold switchRoom.
  rewrite (bind_Done _ _ _ _ _ Hsend).
  rewrite (bind_Done current _ w1 old w1 eq_refl).
  rewrite (bind_Done _ _ _ _ _ (deref_Some _ _ _ Hr1)).
  change (UserName room1) with (UserName r).
  rewrite (bind_Done _ _ _ _ _ Hjoin).
  rewrite (bind_Done _ _ _ _ _ (Exit_eq _ _ _ Hr2)).
  subst w2 w1. run. cbn.
  rewrite length_insert. fold new.
  rewrite insert_app_l by (rewrite length_insert; exact Hlt).
  rewrite list_insert_insert_eq.
  now rewrite <- !app_assoc.
Qed.

(** X9. [switchRoom] to a room that can be joined, from a room with a
    free log channel: the new room is joined and subscribed to first, then
    the old subscription is cancelled and the old topic closed; the UI then
    points to the new room, which carries the user name of the old one and
    has empty channels; the old room is cancelled and keeps the entry
    [switching to room] in its log channel; the message box is cleared and
    retitled. *)
Theorem switch_to_free_room w r (roomName : string) topic sub n1 n2 :
  heap w !! ui_ChatRoom (ui w) = Some r ->
  Logs r = make ->
  Join S (topicName roomName) (net w) = (Ok topic, n1) ->
  Subscribe S topic n1 = (Ok sub, n2) ->
  let old := ui_ChatRoom (ui w) in
  let new := length (heap w) in
  let info := mkChatLog "info" ("switching to room '" ++ roomName ++ "'") in
  exists w',
    switchRoom roomName w = Done tt w'
    /\ calls w' = calls w ++ [CJoin (topicName roomName); CSubscribe; CCancel; CClose]
    /\ ui w' = mkUI new (InputLabel (ui w)) (draws (ui w) ++ [DrawClear; DrawTitle])
                    (stopped (ui w))
    /\ heap w' !! new
       = Some (mkChatRoom make make make roomName (UserName r) (HostID S n2)
                          false topic sub)
    /\ heap w' !! old = Some (set_psDone (set_Logs (mkChan [info] false) r))
    /\ (forall i x, i <> old -> heap w !! i = Some x -> heap w' !! i = Some x)
    /\ length (heap w') = Datatypes.S (length (heap w))
    /\ spawned w' = spawned w ++ [GoSubscribeLoop new; GoPublishLoop new].
Proof.
  intros Hr Hlogs Hj Hs old new info.
  pose proof (lookup_lt_Some _ _ _ Hr) as Hlt.
  eexists. split; [now apply (switchRoom_ok w r roomName topic sub n1 n2) |].
  cbn [heap spawned calls net ui].
  split; [reflexivity |]. split; [reflexivity |].
  split; [apply list_lookup_middle; now rewrite length_insert |].
  split; [apply lookup_app_l_Some; now apply list_lookup_insert_eq |].
  split.
  { intros i x Hne Hx. apply lookup_app_l_Some.
    rewrite list_lookup_insert_ne by (intros E; apply Hne; symmetry; exact E). exact Hx. }
  split; [rewrite length_app, length_insert; cbn; lia | reflexivity].
Qed.

Lemma logs_case_idle w r :
  heap w !! ui_ChatRoom (ui w) = Some r ->
  Logs r = make ->
  handlePass FromLogs w = Done true w.
Proof. intros Hr Hl. run. now rewrite Hr, Hl. Qed.

Lemma handleEvents_idle_logs w r (n : nat) :
  heap w !! ui_ChatRoom (ui w) = Some r ->
  Logs r = make ->
  handleEvents (replicate n FromLogs) w = Done true w.
Proof.
  intros Hr Hl. induction n as [|n IH]; [reflexivity |].
  cbn [replicate handleEvents].
  now rewrite (bind_Done _ _ _ _ _ (logs_case_idle w r Hr Hl)).
Qed.

(** X10. The entry [switching to room] of a switch that succeeds is never
    displayed. It was sent on the log channel of the old room, and the
    event loop reads the log channel of the room the UI points to: however
    often its log case fires after the switch, nothing is displayed but
    the cleared and retitled box, the entry stays where it is, and any
    further entry sent to the old room's log channel finds it full. *)
Theorem switch_info_entry_is_stranded w r (roomName : string) topic sub n1 n2 (n : nat) :
  heap w !! ui_ChatRoom (ui w) = Some r ->
  Logs r = make ->
  roomName <> EmptyString ->
  Join S (topicName roomName) (net w) = (Ok topic, n1) ->
  Subscribe S topic n1 = (Ok sub, n2) ->
  let old := ui_ChatRoom (ui w) in
  let info := mkChatLog "info" ("switching to room '" ++ roomName ++ "'") in
  exists w',
    handleEvents (FromCmdInputs (mkUICommand "/room" roomName) :: replicate n FromLogs) w
    = Done true w'
    /\ draws (ui w') = draws (ui w) ++ [DrawClear; DrawTitle]
    /\ (Logs <$> heap w' !! old) = Some (mkChan [info] false)
    /\ (Logs <$> heap w' !! ui_ChatRoom (ui w')) = Some make
    /\ ui_ChatRoom (ui w') <> old
    /\ (forall l : chatLog, send l (mkChan [info] false) = WouldBlock).
Proof.
  intros Hr Hlogs Hname Hj Hs old info.
  pose proof (lookup_lt_Some _ _ _ Hr) as Hlt.
  pose proof (switchRoom_ok w r roomName topic sub n1 n2 Hr Hlogs Hj Hs) as Hsw.
  cbv zeta in Hsw. fold old info in Hsw. set (w1 := mkWorld _ _ _ _ _) in Hsw.
  assert (Hcmd : handlePass (FromCmdInputs (mkUICommand "/room" roomName)) w = Done true w1).
  { unfold handlePass, processCommand. cbn [CommandType Argument].
    change (String.eqb "/room" "/exit") with false.
    change (String.eqb "/room" "/clear") with false.
    change (String.eqb "/room" "/room") with true. cbv iota.
    apply String.eqb_neq in Hname. rewrite Hname.
    now rewrite (bind_Done _ _ _ _ _ Hsw). }
  assert (Hnew : heap w1 !! ui_ChatRoom (ui w1)
                 = Some (mkChatRoom make make make roomName (UserName r) (HostID S n2)
                                    false topic sub)).
  { subst w1. cbn [heap ui ui_ChatRoom]. apply list_lookup_middle.
    now rewrite length_insert. }
  exists w1. cbn [handleEvents]. rewrite (bind_Done _ _ _ _ _ Hcmd).
  rewrite (handleEvents_idle_logs w1 _ n Hnew eq_refl).
  split; [reflexivity |]. split; [reflexivity |].
  split.
  { subst w1. cbn [heap]. rewrite lookup_app_l by (now rewrite length_insert).
    now rewrite list_lookup_insert_eq. }
  split; [now rewrite Hnew |].
  split; [subst w1 old; cbn; lia | reflexivity].
Qed.

(** X11. A command the interpreter does not know - any command type other
    than [/exit], [/clear], [/room] and [/user], compared byte for byte -
    yields, in a room with a free log channel, the error entry naming the
    command type, and changes nothing else: no call on the router, the same
    room, the same display. *)
Theorem unsupported_command_logged w r (cmd : UICommand) :
  heap w !! ui_ChatRoom (ui w) = Some r ->
  Logs r = make ->
  CommandType cmd ∉ ["/exit"; "/clear"; "/room"; "/user"]%string ->
  processCommand cmd w
  = Done tt (set_heap
               (<[ui_ChatRoom (ui w) :=
                    set_Logs (mkChan [mkChatLog "error"
                                        ("unsupported command: " ++ CommandType cmd)]
                                     false) r]> (heap w)) w).
Proof.
  intros Hr Hlogs Hun. unfold processCommand.
  rewrite !not_elem_of_cons in Hun. destruct Hun as (H1 & H2 & H3 & H4 & _).
  apply String.eqb_neq in H1, H2, H3, H4. rewrite H1, H2, H3, H4.
  rewrite (sendLog_sent w r) by (rewrite ?Hlogs; auto; cbn; unfold capacity; lia).
  now rewrite Hlogs.
Qed.

(** X12. [/exit], with or without an argument, cancels the context of the
    room the UI points to and stops the application, and that is all: the
    subscription is not cancelled and the topic is not closed ([Exit] is
    not called), no channel is touched, and the event loop returns when it
    next finds the context done. *)
Theorem exit_command_cancels_only w r (arg : string) :
  heap w !! ui_ChatRoom (ui w) = Some r ->
  let cr := ui_ChatRoom (ui w) in
  let w' := set_ui (mkUI cr (InputLabel (ui w)) (draws (ui w)) true)
                   (set_heap (<[cr := set_psDone r]> (heap w)) w) in
  processCommand (mkUICommand "/exit" arg) w = Done tt w'
  /\ calls w' = calls w
  /\ net w' = net w
  /\ spawned w' = spawned w
  /\ (forall later : list fired,
        handleEvents (FromCmdInputs (mkUICommand "/exit" arg) :: FromDone :: later) w
        = Done false w').
Proof.
  intros Hr cr w'.
  assert (Hp : processCommand (mkUICommand "/exit" arg) w = Done tt w').
  { run. cbn. now rewrite Hr. }
  split; [exact Hp |]. repeat (split; [reflexivity |]).
  intros later. cbn [handleEvents handlePass].
  unfold bind at 1. unfold bind at 1. rewrite Hp. reflexivity.
Qed.

Lemma set_Inbound_same r : set_Inbound (Inbound r) r = r.
Proof. now destruct r. Qed.

Lemma set_heap_same w : set_heap (heap w) w = w.
Proof. now destruct w. Qed.

Lemma inbound_case_closed w r :
  heap w !! ui_ChatRoom (ui w) = Some r ->
  Inbound r = mkChan [] true ->
  handlePass FromInbound w
  = Done true (set_ui (mkUI (ui_ChatRoom (ui w)) (InputLabel (ui w))
                            (draws (ui w) ++ [DrawMessage false "" ""])
                            (stopped (ui w))) w).
Proof.
  intros Hr Hin. run. rewrite Hr, Hin. cbn.
  rewrite <- Hin, set_Inbound_same, list_insert_id by exact Hr.
  now destruct w.
Qed.

(** X13. Once the receive loop has closed the inbound channel of the room
    the UI points to and the channel is empty, every firing of the inbound
    case of the event loop receives the zero value and displays a message
    with no text from a sender with no name; the channel is left as it is,
    so the case remains ready. *)
Theorem closed_inbound_shows_empty_messages w r (n : nat) :
  heap w !! ui_ChatRoom (ui w) = Some r ->
  Inbound r = mkChan [] true ->
  handleEvents (replicate n FromInbound) w
  = Done true (set_ui (mkUI (ui_ChatRoom (ui w)) (InputLabel (ui w))
                            (draws (ui w) ++ replicate n (DrawMessage false "" ""))
                            (stopped (ui w))) w).
Proof.
  revert w. induction n as [|n IH]; intros w Hr Hin.
  - cbn. rewrite app_nil_r. now destruct w as [? ? ? ? []].
  - cbn [replicate handleEvents].
    rewrite (bind_Done _ _ _ _ _ (inbound_case_closed w r Hr Hin)).
    rewrite IH by assumption. cbn. now rewrite <- app_assoc.
Qed.

End SessionFacts.

Lemma join_success_fresh_session_witness :
  exists w',
    JoinChatRoom "alice" "den" lobby = Done (Ok 1%nat) w'
    /\ heap w' = [lobbyRoom;
                  mkChatRoom (S := pubsub) make make make "den" "alice" "QmLocal" false
                             "room-peerchat-den" "room-peerchat-den"]
    /\ spawned w' = [GoSubscribeLoop 0%nat; GoPublishLoop 0%nat;
                     GoSubscribeLoop 1%nat; GoPublishLoop 1%nat]
    /\ calls w' = [CJoin "room-peerchat-lobby"; CSubscribe;
                   CJoin "room-peerchat-den"; CSubscribe].
Proof.
  destruct (join_success_fresh_session lobby "alice" "den" "room-peerchat-den"
              "room-peerchat-den" ["room-peerchat-den"; "room-peerchat-lobby"]
              ["room-peerchat-den"; "room-peerchat-lobby"] eq_refl eq_refl)
    as (w' & Hj & Hh & _ & _ & Hs & Hc & _).
  exists w'. split; [exact Hj |]. split; [exact Hh |]. split; [exact Hs | exact Hc].
Defined.

Lemma switch_to_free_room_witness :
  exists w',
    switchRoom "den" lobby = Done tt w'
    /\ calls w' = [CJoin "room-peerchat-lobby"; CSubscribe;
                   CJoin "room-peerchat-den"; CSubscribe; CCancel; CClose]
    /\ ui w' = mkUI 1%nat "alice > " [DrawClear; DrawTitle] false
    /\ (UserName <$> heap w' !! 1%nat) = Some "alice"
    /\ (psDone <$> heap w' !! 0%nat) = Some true.
Proof.
  destruct (switch_to_free_room lobby lobbyRoom "den" "room-peerchat-den"
              "room-peerchat-den" ["room-peerchat-den"; "room-peerchat-lobby"]
              ["room-peerchat-den"; "room-peerchat-lobby"] lobby_room eq_refl eq_refl eq_refl)
    as (w' & Hsw & Hc & Hu & Hnew & Hold & _).
  exists w'. split; [exact Hsw |]. split; [exact Hc |]. split; [exact Hu |].
  change (length (heap lobby)) with 1%nat in Hnew.
  change (ui_ChatRoom (ui lobby)) with 0%nat in Hold.
  split; [exact (f_equal (fmap UserName) Hnew) | exact (f_equal (fmap psDone) Hold)].
Defined.

Lemma switch_info_entry_is_stranded_witness :
  exists w',
    handleEvents [FromCmdInputs (mkUICommand "/room" "den"); FromLogs; FromLogs; FromLogs]
                 lobby
    = Done true w'
    /\ draws (ui w') = [DrawClear; DrawTitle]
    /\ (Logs <$> heap w' !! 0%nat)
       = Some (mkChan [mkChatLog "info" "switching to room 'den'"] false).
Proof.
  destruct (switch_info_entry_is_stranded lobby lobbyRoom "den" "room-peerchat-den"
              "room-peerchat-den" ["room-peerchat-den"; "room-peerchat-lobby"]
              ["room-peerchat-den"; "room-peerchat-lobby"] 3 lobby_room eq_refl
              ltac:(discriminate) eq_refl eq_refl)
    as (w' & Hev & Hd & Hold & _).
  change (ui_ChatRoom (ui lobby)) with 0%nat in Hold.
  exists w'. split; [exact Hev |]. split; [exact Hd | exact Hold].
Defined.

Lemma unsupported_command_logged_witness :
  onLine "/Exit now" lobby
  = Done true
      (set_heap [set_Logs (mkChan [mkChatLog "error" "unsupported command: /Exit"] false)
                          lobbyRoom] lobby).
Proof.
  unfold onLine. change (inputDone KeyEnter "/Exit now")
    with (ToCmdInputs (mkUICommand "/Exit" "now")).
  unfold handlePass.
  rewrite (bind_Done _ _ _ _ _
             (unsupported_command_logged lobby lobbyRoom (mkUICommand "/Exit" "now")
                lobby_room eq_refl ltac:(vm_compute; set_solver))).
  reflexivity.
Defined.

Lemma exit_command_cancels_only_witness :
  processCommand (mkUICommand "/exit" "now") lobby
  = Done tt (set_ui (mkUI 0%nat "alice > " [] true)
                    (set_heap [set_psDone lobbyRoom] lobby))
  /\ handleEvents [FromCmdInputs (mkUICommand "/exit" "now"); FromDone; FromTicker] lobby
     = Done false (set_ui (mkUI 0%nat "alice > " [] true)
                          (set_heap [set_psDone lobbyRoom] lobby)).
Proof.
  destruct (exit_command_cancels_only lobby lobbyRoom "now" lobby_room)
    as (Hp & _ & _ & _ & Hev).
  split; [exact Hp | exact (Hev [FromTicker])].
Defined.

Lemma closed_inbound_shows_empty_messages_witness :
  handleEvents [FromInbound; FromInbound] lobbyEnded
  = Done true (set_ui (mkUI 0%nat "alice > "
                            [DrawMessage false "" ""; DrawMessage false "" ""] false)
                      lobbyEnded).
Proof.
  exact (closed_inbound_shows_empty_messages lobbyEnded
           (set_Inbound (mkChan [] true) lobbyRoom) 2 eq_refl eq_refl).
Defined.

(** ** What the event loop keeps, whatever fires *)

Create HintDb keeping.

Section LoopInvariants.

Context {S : Substrate}.
Implicit Types (w : World S) (r : ChatRoom S) (cr : ref).

Local Abbreviation keeping := (@keeping S _).
Local Abbreviation triple := (@triple S _).
Local Abbreviation any := (@any S).

Lemma keeps_refl w : keeps w w.
Proof. intros i x Hx. exists x. repeat split; auto. Qed.

Lemma keeps_trans w1 w2 w3 : keeps w1 w2 -> keeps w2 w3 -> keeps w1 w3.
Proof.
  intros H12 H23 i x Hx.
  destruct (H12 i x Hx) as (y & Hy & E1 & E2 & E3 & E4 & E5 & E6 & E7 & E8).
  destruct (H23 i y Hy) as (z & Hz & F1 & F2 & F3 & F4 & F5 & F6 & F7 & F8).
  exists z. repeat split; try congruence. auto.
Qed.

Lemma keeps_same_heap w w' : heap w' = heap w -> keeps w w'.
Proof. intros E i x Hx. exists x. rewrite E. repeat split; auto. Qed.

Lemma keeps_grown w w' (l : list (ChatRoom S)) : heap w' = heap w ++ l -> keeps w w'.
Proof.
  intros E i x Hx. exists x. rewrite E.
  split; [now apply lookup_app_l_Some |]. repeat split; auto.
Qed.

Lemma keeps_insert w w' cr r r' :
  heap w !! cr = Some r ->
  heap w' = <[cr := r']> (heap w) ->
  RoomName r' = RoomName r -> selfID r' = selfID r ->
  psTopic r' = psTopic r -> psSub r' = psSub r ->
  closed (Inbound r') = closed (Inbound r) ->
  closed (Outbound r') = closed (Outbound r) ->
  closed (Logs r') = closed (Logs r) ->
  (psDone r = true -> psDone r' = true) ->
  keeps w w'.
Proof.
  intros Hr E E1 E2 E3 E4 E5 E6 E7 E8 i x Hx. rewrite E.
  pose proof (lookup_lt_Some _ _ _ Hr) as Hlt.
  destruct (decide (i = cr)) as [Heq|Hne].
  - subst i. exists r'. rewrite list_lookup_insert_eq by assumption.
    assert (Hxr : Some x = Some r) by (rewrite <- Hx; exact Hr).
    injection Hxr as ->. repeat split; auto.
  - exists x. rewrite list_lookup_insert_ne by congruence. repeat split; auto.
Qed.

Lemma keeping_ret {A} (a : A) : keeping (ret a).
Proof. intros w. apply keeps_refl. Qed.

Lemma keeping_bind {A B} (m : @M S A) (k : A -> @M S B) :
  keeping m -> (forall a, keeping (k a)) -> keeping (bind m k).
Proof.
  intros Hm Hk w. unfold bind. specialize (Hm w).
  destruct (m w) as [a w'|on w'|w']; cbn [world_of] in *; auto.
  eapply keeps_trans; [exact Hm | apply Hk].
Qed.

Lemma keeping_modify (f : World S -> World S) :
  (forall w, heap (f w) = heap w) -> keeping (modify f).
Proof. intros Hf w. cbn. now apply keeps_same_heap. Qed.

Lemma keeping_current : keeping current.
Proof. intros w. apply keeps_refl. Qed.

Lemma keeping_deref cr : keeping (deref cr).
Proof. intros w. unfold deref. destruct (heap w !! cr); apply keeps_refl. Qed.

Lemma keeping_queueDraw d : keeping (queueDraw d).
Proof. now apply keeping_modify. Qed.

Lemma keeping_setLabel l : keeping (setLabel l).
Proof. now apply keeping_modify. Qed.

Lemma keeping_setChatRoom cr : keeping (setChatRoom cr).
Proof. now apply keeping_modify. Qed.

Lemma keeping_stopApp : keeping stopApp.
Proof. now apply keeping_modify. Qed.

Lemma keeping_sendLog l : keeping (sendLog l).
Proof.
  intros w. unfold sendLog.
  destruct (heap w !! ui_ChatRoom (ui w)) as [r|] eqn:Hr; [|apply keeps_refl].
  unfold send. destruct (closed (Logs r)) eqn:Hc; [apply keeps_refl |].
  destruct (length (buf (Logs r)) <? capacity)%nat; [|apply keeps_refl].
  cbn [world_of]. eapply keeps_insert; eauto.
Qed.

Lemma keeping_sendOutbound msg : keeping (sendOutbound msg).
Proof.
  intros w. unfold sendOutbound.
  destruct (heap w !! ui_ChatRoom (ui w)) as [r|] eqn:Hr; [|apply keeps_refl].
  unfold send. destruct (closed (Outbound r)) eqn:Hc; [apply keeps_refl |].
  destruct (length (buf (Outbound r)) <? capacity)%nat; [|apply keeps_refl].
  cbn [world_of]. eapply keeps_insert; eauto.
Qed.

Lemma keeping_recvInbound : keeping recvInbound.
Proof.
  intros w. unfold recvInbound.
  destruct (heap w !! ui_ChatRoom (ui w)) as [r|] eqn:Hr; [|apply keeps_refl].
  unfold recv. destruct (buf (Inbound r)) as [|x rest].
  - destruct (closed (Inbound r)) eqn:Hc; [|apply keeps_refl].
    cbn [world_of]. eapply keeps_insert; eauto.
  - cbn [world_of]. eapply keeps_insert; eauto.
Qed.

Lemma keeping_recvLogs : keeping recvLogs.
Proof.
  intros w. unfold recvLogs.
  destruct (heap w !! ui_ChatRoom (ui w)) as [r|] eqn:Hr; [|apply keeps_refl].
  unfold recv. destruct (buf (Logs r)) as [|x rest].
  - destruct (closed (Logs r)) eqn:Hc; [|apply keeps_refl].
    cbn [world_of]. eapply keeps_insert; eauto.
  - cbn [world_of]. eapply keeps_insert; eauto.
Qed.

Lemma keeping_JoinChatRoom (username roomName : string) :
  keeping (JoinChatRoom username roomName).
Proof.
  intros w. unfold JoinChatRoom.
  destruct (Join S (topicName roomName) (net w)) as [[topic|err] n1]; cbn;
    [|now apply keeps_same_heap].
  destruct (Subscribe S topic n1) as [[sub|err] n2]; cbn;
    [|now apply keeps_same_heap].
  now eapply keeps_grown.
Qed.

Lemma keeping_Exit cr : keeping (Exit cr).
Proof.
  intros w. destruct (heap w !! cr) as [r|] eqn:Hr.
  - rewrite (Exit_eq _ _ _ Hr). cbn [world_of]. eapply keeps_insert; eauto.
  - rewrite (Exit_dangling _ _ Hr). apply keeps_refl.
Qed.

Lemma keeping_UpdateUser cr (name : string) : keeping (UpdateUser cr name).
Proof.
  intros w. unfold UpdateUser. run.
  destruct (heap w !! cr) as [r|] eqn:Hr; [|apply keeps_refl].
  cbn [world_of]. eapply keeps_insert; eauto.
Qed.

Lemma keeping_UI_Close : keeping UI_Close.
Proof.
  intros w. unfold UI_Close. run.
  destruct (heap w !! ui_ChatRoom (ui w)) as [r|] eqn:Hr; [|apply keeps_refl].
  cbn [world_of]. eapply keeps_insert; eauto.
Qed.

Hint Resolve keeping_ret keeping_current keeping_deref keeping_queueDraw keeping_setLabel
  keeping_setChatRoom keeping_stopApp keeping_sendLog keeping_sendOutbound
  keeping_recvInbound keeping_recvLogs keeping_JoinChatRoom keeping_Exit
  keeping_UpdateUser keeping_UI_Close : keeping.

Ltac keep :=
  first [ solve [auto with keeping]
        | apply keeping_bind; [keep | intros ?; keep]
        | idtac ].

Lemma keeping_switchRoom (roomName : string) : keeping (switchRoom roomName).
Proof.
  unfold switchRoom. keep.
  match goal with |- context [match ?j with Ok _ => _ | Err _ => _ end] => destruct j end;
    keep.
Qed.

Hint Resolve keeping_switchRoom : keeping.

Lemma keeping_processCommand (cmd : UICommand) : keeping (processCommand cmd).
Proof.
  unfold processCommand.
  repeat match goal with |- context [if ?b then _ else _] => destruct b end; keep.
Qed.

Hint Resolve keeping_processCommand : keeping.

Lemma keeping_handlePass (f : fired) : keeping (handlePass f).
Proof.
  destruct f; unfold handlePass, displayMessage, displayLog, updatePeerBox; keep;
    match goal with
    | |- context [match ?g with Some _ => _ | None => _ end] => destruct g
    end; keep.
Qed.

(** X14. Whatever fires in the event loop, and in whatever state, no room
    is lost or replaced: every room stays where it is in the heap with its
    room name, identity, topic and subscription; the event loop closes no
    channel (a channel is closed after exactly when it was closed before);
    and a cancelled context stays cancelled. *)
Theorem event_loop_keeps_rooms w (script : list fired) :
  forall i x, heap w !! i = Some x ->
    exists y, heap (world_of (handleEvents script w)) !! i = Some y
      /\ RoomName y = RoomName x /\ selfID y = selfID x
      /\ psTopic y = psTopic x /\ psSub y = psSub x
      /\ closed (Inbound y) = closed (Inbound x)
      /\ closed (Outbound y) = closed (Outbound x)
      /\ closed (Logs y) = closed (Logs x)
      /\ (psDone x = true -> psDone y = true).
Proof.
  change (keeps w (world_of (handleEvents script w))). revert w.
  change (keeping (handleEvents script)).
  induction script as [|f rest IH]; [apply keeping_ret |].
  cbn [handleEvents]. apply keeping_bind; [apply keeping_handlePass |].
  intros [|]; [exact IH | apply keeping_ret].
Qed.

(** *** The event loop does not panic *)

Lemma sound_same_heap w w' :
  heap w' = heap w -> ui_ChatRoom (ui w') = ui_ChatRoom (ui w) -> sound w -> sound w'.
Proof. unfold sound. intros -> ->. auto. Qed.

Lemma sound_lookup w : sound w -> exists r,
  heap w !! ui_ChatRoom (ui w) = Some r
  /\ closed (Logs r) = false /\ closed (Outbound r) = false.
Proof.
  intros [Hlt Hopen]. destruct (lookup_lt_is_Some_2 _ _ Hlt) as [r Hr].
  exists r. split; [exact Hr |]. exact (proj1 (Forall_lookup _ _) Hopen _ _ Hr).
Qed.

Lemma sound_insert w w' cr r r' :
  sound w -> heap w !! cr = Some r ->
  heap w' = <[cr := r']> (heap w) -> ui_ChatRoom (ui w') = ui_ChatRoom (ui w) ->
  closed (Logs r') = false -> closed (Outbound r') = false ->
  sound w'.
Proof.
  intros [Hlt Hopen] Hr E Eu H1 H2. unfold sound. rewrite E, Eu, length_insert.
  split; [exact Hlt |]. apply Forall_insert; auto.
Qed.

Lemma triple_ret {A} (a : A) (Q : A -> World S -> Prop) : triple (Q a) (ret a) Q.
Proof. intros w Hs HQ. cbn. split; [exact Hs | split; [lia | exact HQ]]. Qed.

Lemma triple_bind {A B} (P : World S -> Prop) (m : @M S A) (Q : A -> World S -> Prop)
      (k : A -> @M S B) (R : B -> World S -> Prop) :
  triple P m Q -> (forall a, triple (Q a) (k a) R) -> triple P (bind m k) R.
Proof.
  intros Hm Hk w Hs HP. unfold bind. specialize (Hm w Hs HP).
  destruct (m w) as [a w'|on w'|w']; auto.
  destruct Hm as (Hs' & Hle & HQ). specialize (Hk a w' Hs' HQ).
  destruct (k a w') as [b w''|on w''|w'']; auto.
  destruct Hk as (Hs'' & Hle' & HR).
  split; [exact Hs'' |]. split; [lia | exact HR].
Qed.

Lemma triple_conseq {A} (P P' : World S -> Prop) (m : @M S A) (Q Q' : A -> World S -> Prop) :
  (forall w, P' w -> P w) -> (forall a w, Q a w -> Q' a w) ->
  triple P m Q -> triple P' m Q'.
Proof.
  intros HP HQ Hm w Hs HP'. specialize (Hm w Hs (HP _ HP')).
  destruct (m w) as [a w'|on w'|w']; auto.
  destruct Hm as (Hs' & Hle & Hq). split; [exact Hs' | split; [exact Hle | auto]].
Qed.

Lemma triple_frame {A} (P : World S -> Prop) (m : @M S A) (Q : A -> World S -> Prop) cr :
  triple P m Q ->
  triple (fun w => P w /\ allocated cr w) m (fun a w => Q a w /\ allocated cr w).
Proof.
  intros Hm w Hs [HP Hcr]. specialize (Hm w Hs HP).
  destruct (m w) as [a w'|on w'|w']; auto.
  destruct Hm as (Hs' & Hle & Hq).
  split; [exact Hs' |]. split; [exact Hle |]. split; [exact Hq |].
  unfold allocated in *. lia.
Qed.

Lemma triple_modify (f : World S -> World S) :
  (forall w, heap (f w) = heap w) ->
  (forall w, ui_ChatRoom (ui (f w)) = ui_ChatRoom (ui w)) ->
  triple any (modify f) (fun _ => any).
Proof.
  intros Hh Hu w Hs _. cbn. rewrite Hh.
  split; [eapply sound_same_heap; eauto | split; [lia | exact I]].
Qed.

Lemma triple_current : triple any current (fun cr w => allocated cr w).
Proof. intros w Hs _. cbn. split; [exact Hs | split; [lia | exact (proj1 Hs)]]. Qed.

Lemma triple_deref cr :
  triple (allocated cr) (deref cr) (fun _ w => allocated cr w).
Proof.
  intros w Hs Hcr.
  destruct (lookup_lt_is_Some_2 _ _ Hcr) as [r Hr]. rewrite (deref_Some _ _ _ Hr).
  split; [exact Hs | split; [lia | exact Hcr]].
Qed.

Lemma triple_sendLog l : triple any (sendLog l) (fun _ => any).
Proof.
  intros w Hs _. destruct (sound_lookup w Hs) as (r & Hr & Hl & Ho).
  unfold sendLog, send. rewrite Hr, Hl.
  destruct (length (buf (Logs r)) <? capacity)%nat; [|exact Hs].
  cbn [heap set_heap]. rewrite length_insert.
  split; [eapply sound_insert; eauto | split; [lia | exact I]].
Qed.

Lemma triple_sendOutbound msg : triple any (sendOutbound msg) (fun _ => any).
Proof.
  intros w Hs _. destruct (sound_lookup w Hs) as (r & Hr & Hl & Ho).
  unfold sendOutbound, send. rewrite Hr, Ho.
  destruct (length (buf (Outbound r)) <? capacity)%nat; [|exact Hs].
  cbn [heap set_heap]. rewrite length_insert.
  split; [eapply sound_insert; eauto | split; [lia | exact I]].
Qed.

Lemma triple_recvInbound : triple any recvInbound (fun _ => any).
Proof.
  intros w Hs _. destruct (sound_lookup w Hs) as (r & Hr & Hl & Ho).
  unfold recvInbound. rewrite Hr.
  destruct (recv zeroMessage (Inbound r)) as [[m c]|];
    [|split; [exact Hs | split; [lia | exact I]]].
  cbn [heap set_heap]. rewrite length_insert.
  split; [eapply sound_insert; eauto | split; [lia | exact I]].
Qed.

Lemma triple_recvLogs : triple any recvLogs (fun _ => any).
Proof.
  intros w Hs _. destruct (sound_lookup w Hs) as (r & Hr & Hl & Ho).
  unfold recvLogs, recv. rewrite Hr.
  destruct (buf (Logs r)) as [|x rest].
  - rewrite Hl. split; [exact Hs | split; [lia | exact I]].
  - cbn [heap set_heap]. rewrite length_insert.
    split; [eapply sound_insert; eauto | split; [lia | exact I]].
Qed.

Lemma triple_queueDraw d : triple any (queueDraw d) (fun _ => any).
Proof. now apply triple_modify. Qed.

Lemma triple_setLabel l : triple any (setLabel l) (fun _ => any).
Proof. now apply triple_modify. Qed.

Lemma triple_stopApp : triple any stopApp (fun _ => any).
Proof. now apply triple_modify. Qed.

Lemma triple_setChatRoom cr : triple (allocated cr) (setChatRoom cr) (fun _ => any).
Proof.
  intros w [Hlt Hopen] Hcr. cbn.
  split; [split; [exact Hcr | exact Hopen] | split; [lia | exact I]].
Qed.

Lemma triple_JoinChatRoom (username roomName : string) :
  triple any (JoinChatRoom username roomName)
         (fun joined w => match joined with
                          | Ok newChatRoom => allocated newChatRoom w
                          | Err _ => True
                          end).
Proof.
  intros w [Hlt Hopen] _. unfold JoinChatRoom.
  destruct (Join S (topicName roomName) (net w)) as [[topic|err] n1]; cbn;
    [|split; [split; assumption | split; [lia | exact I]]].
  destruct (Subscribe S topic n1) as [[sub|err] n2]; cbn;
    [|split; [split; assumption | split; [lia | exact I]]].
  unfold sound, allocated. cbn. rewrite length_app. cbn.
  split; [split; [lia |] | split; lia].
  apply Forall_app. split; [exact Hopen |]. repeat constructor.
Qed.

Lemma triple_Exit cr : triple (allocated cr) (Exit cr) (fun _ => any).
Proof.
  intros w Hs Hcr. destruct (lookup_lt_is_Some_2 _ _ Hcr) as [r Hr].
  rewrite (Exit_eq _ _ _ Hr). cbn [heap]. rewrite length_insert.
  pose proof (proj1 (Forall_lookup _ _) (proj2 Hs) _ _ Hr) as [Hl Ho].
  split; [|split; [lia | exact I]].
  eapply (sound_insert w _ cr r); eauto; reflexivity.
Qed.

Lemma triple_UpdateUser cr (name : string) :
  triple (allocated cr) (UpdateUser cr name) (fun _ => any).
Proof.
  intros w Hs Hcr. destruct (lookup_lt_is_Some_2 _ _ Hcr) as [r Hr].
  unfold UpdateUser. rewrite (bind_Done _ _ _ _ _ (deref_Some _ _ _ Hr)).
  unfold store, modify. cbn [heap set_heap]. rewrite length_insert.
  pose proof (proj1 (Forall_lookup _ _) (proj2 Hs) _ _ Hr) as [Hl Ho].
  split; [|split; [lia | exact I]].
  eapply (sound_insert w _ cr r); eauto; reflexivity.
Qed.

Lemma triple_UI_Close : triple any UI_Close (fun _ => any).
Proof.
  intros w Hs _. destruct (sound_lookup w Hs) as (r & Hr & Hl & Ho).
  unfold UI_Close. run. rewrite Hr. cbn. rewrite length_insert.
  split; [|split; [lia | exact I]].
  eapply (sound_insert w _ _ r); eauto; reflexivity.
Qed.

Lemma triple_drop {A} (P : World S -> Prop) (m : @M S A) (Q : A -> World S -> Prop) :
  triple any m Q -> triple P m (fun _ => any).
Proof. apply triple_conseq; unfold any; auto. Qed.

Lemma triple_switchRoom (roomName : string) :
  triple any (switchRoom roomName) (fun _ => any).
Proof.
  unfold switchRoom.
  eapply triple_bind; [apply triple_sendLog | intros ?].
  eapply triple_bind; [apply triple_current | intros cr].
  eapply triple_bind; [apply triple_deref | intros r]. cbn beta.
  eapply triple_bind.
  { eapply triple_conseq; cycle 2.
    - eapply (triple_frame _ _ _ cr), triple_JoinChatRoom.
    - intros w H. split; [exact I | exact H].
    - intros joined w H. exact H. }
  intros [newChatRoom|err]; cbn beta iota.
  - eapply triple_bind.
    { eapply triple_conseq; cycle 2.
      - eapply (triple_frame _ _ _ newChatRoom), (triple_Exit cr).
      - intros w [H1 H2]. split; assumption.
      - intros u w H. exact (proj2 H). }
    intros ?. cbn beta.
    eapply triple_bind; [apply triple_setChatRoom | intros ?].
    eapply triple_bind; [apply triple_queueDraw | intros ?].
    apply triple_queueDraw.
  - eapply triple_drop, triple_sendLog.
Qed.

Lemma triple_processCommand (cmd : UICommand) :
  triple any (processCommand cmd) (fun _ => any).
Proof.
  unfold processCommand.
  repeat match goal with |- triple _ (if ?b then _ else _) _ => destruct b end;
    try first [apply triple_UI_Close | apply triple_queueDraw | apply triple_sendLog
              | apply triple_switchRoom].
  eapply triple_bind; [apply triple_current | intros cr].
  eapply triple_bind.
  { eapply triple_conseq; cycle 2.
    - eapply (triple_frame _ _ _ cr), triple_UpdateUser.
    - intros w H. split; exact H.
    - intros u w H. exact (proj2 H). }
  intros ?. cbn beta.
  eapply triple_bind; [apply triple_deref | intros r].
  eapply triple_drop, triple_setLabel.
Qed.

Lemma triple_tail {A} (m : @M S A) (b : bool) :
  triple any m (fun _ => any) -> triple any (bind m (fun _ => ret b)) (fun _ => any).
Proof.
  intros Hm. eapply triple_bind; [exact Hm | intros ?]. apply (triple_ret b (fun _ => any)).
Qed.

Lemma triple_handlePass (f : fired) : triple any (handlePass f) (fun _ => any).
Proof.
  destruct f; unfold handlePass, displayMessage, displayLog, updatePeerBox.
  - eapply triple_bind; [apply triple_sendOutbound | intros ?].
    eapply triple_bind; [apply triple_current | intros cr].
    eapply triple_bind; [apply triple_deref | intros r].
    eapply triple_drop, triple_tail, triple_queueDraw.
  - apply triple_tail, triple_processCommand.
  - eapply triple_bind; [apply triple_recvInbound | intros got].
    apply triple_tail. destruct got; [apply triple_queueDraw |].
    apply (triple_ret tt (fun _ => any)).
  - eapply triple_bind; [apply triple_recvLogs | intros got].
    apply triple_tail. destruct got; [apply triple_queueDraw |].
    apply (triple_ret tt (fun _ => any)).
  - apply triple_tail, triple_queueDraw.
  - apply (triple_ret false (fun _ => any)).
Qed.

Lemma triple_handleEvents (script : list fired) :
  triple any (handleEvents script) (fun _ => any).
Proof.
  induction script as [|f rest IH]; [apply (triple_ret true (fun _ => any)) |].
  cbn [handleEvents]. eapply triple_bind; [apply triple_handlePass |].
  intros [|]; [exact IH | apply (triple_ret false (fun _ => any))].
Qed.

(** X15. The event loop does not panic. From a world in which the UI
    points to a room of the heap and the log and outbound channels of every
    room are open - as [JoinChatRoom] makes them, and nothing ever closes
    them - whatever fires, in whatever order, the loop sends on no closed
    channel and dereferences no missing room: it returns or parks on a full
    channel, and the world it leaves is again such a world. *)
Theorem event_loop_does_not_panic w (script : list fired) :
  sound w ->
  (forall w', handleEvents script w <> Panic w')
  /\ sound (world_of (handleEvents script w)).
Proof.
  intros Hs. pose proof (triple_handleEvents script w Hs I) as H.
  destruct (handleEvents script w) as [a w'|on w'|w'].
  - split; [discriminate | exact (proj1 H)].
  - split; [discriminate | exact H].
  - contradiction.
Qed.

End LoopInvariants.

Lemma event_loop_keeps_rooms_witness :
  exists y,
    heap (world_of (handleEvents evening lobby)) !! 0%nat = Some y
    /\ RoomName y = "lobby"%string /\ selfID y = "QmLocal"%string
    /\ psTopic y = "room-peerchat-lobby"%string
    /\ closed (Inbound y) = false /\ closed (Logs y) = false.
Proof.
  destruct (event_loop_keeps_rooms lobby evening 0%nat lobbyRoom eq_refl)
    as (y & Hy & H1 & H2 & H3 & _ & H5 & _ & H7 & _).
  exists y. repeat split; assumption.
Defined.

Lemma event_loop_does_not_panic_witness :
  (forall w', handleEvents evening lobby <> Panic w')
  /\ sound (world_of (handleEvents evening lobby))
  /\ (exists l w', handleEvents evening lobby = Parked (OnLogs 1%nat l) w').
Proof.
  assert (Hs : sound lobby).
  { split; [change (0 < 1)%nat; lia |]. change (heap lobby) with [lobbyRoom].
    repeat constructor. }
  destruct (event_loop_does_not_panic lobby evening Hs) as [H1 H2].
  split; [exact H1 |]. split; [exact H2 |].
  eexists _, _. vm_compute. reflexivity.
Defined.

(** ** The input line *)

Lemma cut_space_spec (s : string) :
  " "%char ∉ bytes_of (fst (cut_space s))
  /\ match snd (cut_space s) with
     | None => s = fst (cut_space s)
     | Some b => s = (fst (cut_space s) ++ " " ++ b)%string
     end.
Proof.
  induction s as [|c t [IH1 IH2]]; [split; [apply not_elem_of_nil | reflexivity] |].
  cbn [cut_space]. destruct (Ascii.eqb_spec c " "%char) as [->|Hc].
  - cbn. split; [apply not_elem_of_nil | reflexivity].
  - destruct (cut_space t) as [a [b|]]; cbn [fst snd] in *.
    + split; [|now rewrite IH2 at 1].
      cbn. rewrite not_elem_of_cons. split; [congruence | exact IH1].
    + split; [|now rewrite IH2 at 1].
      cbn. rewrite not_elem_of_cons. split; [congruence | exact IH1].
Qed.

Lemma cut_space_no_space (a : string) :
  " "%char ∉ bytes_of a -> cut_space a = (a, None).
Proof.
  induction a as [|c t IH]; [reflexivity |].
  cbn [bytes_of list_ascii_of_string]. rewrite not_elem_of_cons. intros [Hc Ht].
  cbn [cut_space]. destruct (Ascii.eqb_spec c " "%char) as [->|_]; [congruence |].
  now rewrite (IH Ht).
Qed.

Lemma cut_space_app (a b : string) :
  " "%char ∉ bytes_of a -> cut_space (a ++ " " ++ b) = (a, Some b).
Proof.
  induction a as [|c t IH]; [reflexivity |].
  cbn [bytes_of list_ascii_of_string]. rewrite not_elem_of_cons. intros [Hc Ht].
  change (String c t ++ " " ++ b)%string with (String c (t ++ " " ++ b)).
  cbn [cut_space]. destruct (Ascii.eqb_spec c " "%char) as [->|_]; [congruence |].
  now rewrite (IH Ht).
Qed.

Lemma HasPrefix_slash (line : string) :
  HasPrefix line "/" = true -> exists t, line = String "/"%char t.
Proof.
  destruct line as [|c t]; [discriminate |].
  intros H. destruct (ascii_dec "/"%char c) as [<-|Hne]; [now exists t |].
  exfalso. unfold HasPrefix in H. cbn [String.prefix] in H.
  destruct (ascii_dec "/"%char c); [contradiction | discriminate].
Qed.

Lemma HasPrefix_String_slash (t : string) : HasPrefix (String "/"%char t) "/" = true.
Proof.
  unfold HasPrefix. cbn [String.prefix].
  destruct (ascii_dec "/"%char "/"%char); [now destruct t | congruence].
Qed.

(** X16. A committed line that starts with a slash always becomes a
    command, cut at its first space and nowhere else: the command type is
    the text before that space, it starts with the slash and holds no
    space; the argument is all that follows the space, further spaces
    included; with no space in the line the argument is empty. Nothing of
    the line is lost. *)
Theorem command_line_split (line : string) :
  HasPrefix line "/" = true ->
  exists cmd,
    inputDone KeyEnter line = ToCmdInputs cmd
    /\ HasPrefix (CommandType cmd) "/" = true
    /\ " "%char ∉ bytes_of (CommandType cmd)
    /\ ((" "%char ∉ bytes_of line /\ line = CommandType cmd /\ Argument cmd = EmptyString)
        \/ line = (CommandType cmd ++ " " ++ Argument cmd)%string).
Proof.
  intros Hpre. destruct (HasPrefix_slash line Hpre) as [t ->].
  unfold inputDone. rewrite Hpre. cbn [String.length Nat.ltb Nat.leb].
  pose proof (cut_space_spec (String "/" t)) as [Hno Hcut].
  unfold SplitN2. cbn [cut_space] in Hno, Hcut |- *.
  change (Ascii.eqb "/" " ") with false in *. cbv iota in Hno, Hcut |- *.
  destruct (cut_space t) as [a [b|]]; cbn [fst snd] in Hno, Hcut;
    cbn [length nth Nat.ltb Nat.leb]; eexists; (split; [reflexivity |]);
    cbn [CommandType Argument]; (split; [apply HasPrefix_String_slash |]);
    (split; [exact Hno |]).
  - right. exact Hcut.
  - left. rewrite Hcut. auto.
Qed.

Lemma command_line_split_witness :
  inputDone KeyEnter "/user  John Smith " = ToCmdInputs (mkUICommand "/user" " John Smith ")
  /\ inputDone KeyEnter "/room " = ToCmdInputs (mkUICommand "/room" "")
  /\ inputDone KeyEnter "/" = ToCmdInputs (mkUICommand "/" "").
Proof.
  destruct (command_line_split "/user  John Smith " eq_refl) as (c1 & H1 & _).
  destruct (command_line_split "/room " eq_refl) as (c2 & H2 & _).
  destruct (command_line_split "/" eq_refl) as (c3 & H3 & _).
  split; [|split].
  - rewrite H1. vm_compute in H1. now injection H1 as <-.
  - rewrite H2. vm_compute in H2. now injection H2 as <-.
  - rewrite H3. vm_compute in H3. now injection H3 as <-.
Defined.

(** X17. Conversely, every command can be typed: for a command type that
    starts with a slash and holds no space, the line made of the type, one
    space and any argument is parsed back into exactly that type and that
    argument, and the type alone into the type with the empty argument. *)
Theorem command_line_of_parts (commandType argument : string) :
  HasPrefix commandType "/" = true ->
  " "%char ∉ bytes_of commandType ->
  inputDone KeyEnter (commandType ++ " " ++ argument)
  = ToCmdInputs (mkUICommand commandType argument)
  /\ inputDone KeyEnter commandType = ToCmdInputs (mkUICommand commandType "").
Proof.
  intros Hpre Hno. destruct (HasPrefix_slash _ Hpre) as [t ->].
  unfold inputDone, SplitN2. split.
  - rewrite (cut_space_app _ argument Hno).
    change (String "/" t ++ " " ++ argument)%string
      with (String "/" (t ++ " " ++ argument)).
    now rewrite HasPrefix_String_slash.
  - rewrite Hpre, (cut_space_no_space _ Hno). reflexivity.
Qed.

Lemma command_line_of_parts_witness :
  inputDone KeyEnter ("/room" ++ " " ++ "den of lions")
  = ToCmdInputs (mkUICommand "/room" "den of lions")
  /\ inputDone KeyEnter "/room" = ToCmdInputs (mkUICommand "/room" "").
Proof.
  apply (command_line_of_parts "/room" "den of lions"); [reflexivity |].
  vm_compute. set_solver.
Defined.

(** ** The peer box *)

Lemma length_bytes_of (s : string) : length (bytes_of s) = String.length s.
Proof.
  unfold bytes_of. induction s as [|c t IH]; [reflexivity |]. cbn. now rewrite IH.
Qed.

Lemma string_of_app (a b : bytes) : string_of (a ++ b) = (string_of a ++ string_of b)%string.
Proof.
  unfold string_of. induction a as [|c t IH]; [reflexivity |]. cbn. now rewrite IH.
Qed.

Lemma shortID_long (pretty : string) :
  (8 <= String.length pretty)%nat ->
  exists pre short,
    shortID pretty = Some short
    /\ pretty = (pre ++ short)%string /\ String.length short = 8%nat.
Proof.
  intros Hlen. unfold shortID.
  destruct (Nat.ltb_spec (String.length pretty) 8) as [Hlt|_]; [exfalso; lia |].
  exists (string_of (firstn (String.length pretty - 8) (bytes_of pretty))).
  eexists. split; [reflexivity |]. split.
  - now rewrite <- string_of_app, take_drop, string_of_bytes_of.
  - rewrite <- length_bytes_of, bytes_of_string_of, length_drop, length_bytes_of. lia.
Qed.

Lemma shortID_short (pretty : string) :
  (String.length pretty < 8)%nat -> shortID pretty = None.
Proof.
  intros Hlen. unfold shortID.
  now destruct (Nat.ltb_spec (String.length pretty) 8) as [_|Hge]; [|exfalso; lia].
Qed.

Section DisplayFacts.

Context {S : Substrate}.
Implicit Types (w : World S) (r : ChatRoom S) (cr : ref).

Local Abbreviation peerBoxText := (@peerBoxText S).
Local Abbreviation drawPeers := (@drawPeers S).

Lemma peerBoxText_long (peers : list peerID) :
  Forall (fun peer => (8 <= String.length (Pretty S peer))%nat) peers ->
  exists shorts,
    peerBoxText peers
    = Some (foldr (fun short text => "[yellow]" ++ short ++ "[-]" ++ lf ++ text)%string
                  EmptyString shorts)
    /\ Forall2 (fun peer short =>
                  String.length short = 8%nat
                  /\ exists pre, Pretty S peer = (pre ++ short)%string) peers shorts.
Proof.
  induction 1 as [|peer peers Hp _ (shorts & Ht & Hall)].
  - exists []. split; [reflexivity | constructor].
  - destruct (shortID_long _ Hp) as (pre & short & Hs & Hpre & Hlen).
    exists (short :: shorts). cbn [peerBoxText foldr]. rewrite Hs, Ht.
    split; [reflexivity |]. constructor; [|exact Hall].
    split; [exact Hlen | now exists pre].
Qed.

Lemma peerBoxText_short (peers : list peerID) :
  Exists (fun peer => (String.length (Pretty S peer) < 8)%nat) peers ->
  peerBoxText peers = None.
Proof.
  induction 1 as [peer peers Hp|peer peers _ IH]; cbn [peerBoxText].
  - now rewrite (shortID_short _ Hp).
  - rewrite IH. now destruct (shortID (Pretty S peer)).
Qed.

(** X18. The peer box shows, for the peers of the topic of the room the UI
    points to, in the order [ListPeers] gives them, one line each with the
    last eight bytes of the peer's pretty identity between the tags
    [yellow] and [-]. This needs every pretty identity to be at least
    eight bytes long: with a shorter one among them the slice expression
    is out of range, and the function panics instead of writing. *)
Theorem peer_box_short_ids w r :
  heap w !! ui_ChatRoom (ui w) = Some r ->
  let peers := ListPeers S (psTopic r) (net w) in
  (Forall (fun peer => (8 <= String.length (Pretty S peer))%nat) peers ->
   exists shorts,
     drawPeers w
     = Done (Some (foldr (fun short text =>
                            "[yellow]" ++ short ++ "[-]" ++ lf ++ text)%string
                         EmptyString shorts)) w
     /\ Forall2 (fun peer short =>
                   String.length short = 8%nat
                   /\ exists pre, Pretty S peer = (pre ++ short)%string) peers shorts)
  /\ (Exists (fun peer => (String.length (Pretty S peer) < 8)%nat) peers ->
      drawPeers w = Done None w).
Proof.
  intros Hr peers.
  assert (Hd : drawPeers w = Done (peerBoxText peers) w).
  { unfold drawPeers, PeerList.
    rewrite (bind_Done current _ w _ w eq_refl).
    unfold bind at 1. unfold bind at 1. now rewrite (deref_Some _ _ _ Hr). }
  split.
  - intros Hall. destruct (peerBoxText_long peers Hall) as (shorts & Ht & H2).
    exists shorts. split; [now rewrite Hd, Ht | exact H2].
  - intros Hex. now rewrite Hd, (peerBoxText_short peers Hex).
Qed.

End DisplayFacts.

Lemma peer_box_short_ids_witness :
  drawPeers lobbyPeers
  = Done (Some ("[yellow]7DWjhx5N[-]" ++ lf ++ "[yellow]ZcYW3dwt[-]" ++ lf)%string)
         lobbyPeers.
Proof.
  destruct (peer_box_short_ids lobbyPeers
              (mkChatRoom (S := pubsubPeers) make make make "lobby" "alice" "QmLocal" false
                          "room-peerchat-lobby" "room-peerchat-lobby") eq_refl)
    as [H _].
  destruct H as (shorts & Hd & _).
  { repeat constructor; cbn; lia. }
  assert (Hc : drawPeers lobbyPeers
               = Done (Some ("[yellow]7DWjhx5N[-]" ++ lf ++ "[yellow]ZcYW3dwt[-]" ++ lf)%string)
                      lobbyPeers) by (vm_compute; reflexivity).
  rewrite Hd. rewrite Hd in Hc. injection Hc as Hc. now rewrite Hc.
Defined.

(** ** Peer discovery *)

Section DiscoveryFacts.

Context {R : Routing}.
Implicit Types (p : PeerNetwork R).

Lemma handlePeerDiscovery_calls (peerChan : list AddrInfo) : forall p,
  (forall peer d, NodeID R (snd (Connect R peer d)) = NodeID R d) ->
  dcalls (handlePeerDiscovery peerChan p)
  = dcalls p ++ map DConnect (filter (fun peer => ID peer <> NodeID R (dht p)) peerChan)
  /\ discoveries (handlePeerDiscovery peerChan p) = discoveries p
  /\ NodeID R (dht (handlePeerDiscovery peerChan p)) = NodeID R (dht p).
Proof.
  induction peerChan as [|peer rest IH]; intros p Hid.
  - cbn. now rewrite app_nil_r.
  - cbn [handlePeerDiscovery].
    destruct (decide (ID peer <> NodeID R (dht p))) as [Hne|Heq].
    + rewrite bool_decide_eq_true_2 by assumption.
      rewrite filter_cons_True by assumption.
      destruct (IH (called (DConnect peer) (snd (Connect R peer (dht p))) p) Hid)
        as (Hc & Hd & Hn).
      cbn [dht called dcalls discoveries] in Hc, Hd, Hn.
      rewrite Hid in Hc, Hn.
      rewrite Hc, Hd, Hn. cbn [map]. now rewrite <- app_assoc.
    + rewrite bool_decide_eq_false_2 by assumption.
      rewrite filter_cons_False by assumption. now apply IH.
Qed.

(** X19. [handlePeerDiscovery] dials every peer the channel yields whose
    identity is not the host's own, in the order they arrive, again if a
    peer arrives again and whether or not the earlier dials succeeded; it
    never dials the host itself and makes no other call. The identity of
    the host is taken not to change when it connects. *)
Theorem discovery_dials_all_but_self (peerChan : list AddrInfo) p :
  (forall peer d, NodeID R (snd (Connect R peer d)) = NodeID R d) ->
  let self := NodeID R (dht p) in
  let p' := handlePeerDiscovery peerChan p in
  dcalls p' = dcalls p ++ map DConnect (filter (fun peer => ID peer <> self) peerChan)
  /\ (forall peer, DConnect peer ∈ dcalls p' -> DConnect peer ∈ dcalls p \/ ID peer <> self)
  /\ discoveries p' = discoveries p.
Proof.
  intros Hid self p'.
  destruct (handlePeerDiscovery_calls peerChan p Hid) as (Hc & Hd & _).
  split; [exact Hc |]. split; [|exact Hd].
  intros peer. subst p'. rewrite Hc, elem_of_app, list_elem_of_fmap.
  intros [H|(q & Hq & Hin)]; [now left | right].
  injection Hq as ->. now apply list_elem_of_filter in Hin as [Hne _].
Qed.

(** X20. [AdvertiseConnect] returns the first error it meets and then
    does nothing more: when advertising fails, no peers are looked for;
    when looking for peers fails, no discovery is started. Only when both
    succeed does it return nil, after starting one discovery on the
    channel of the peers found. *)
Theorem advertise_connect_outcomes p :
  let advertised := Advertise R SERVICE (dht p) in
  let found := FindPeers R SERVICE (snd advertised) in
  match AdvertiseConnect p with
  | (Some err, p') =>
    discoveries p' = discoveries p
    /\ ((fst advertised = Err err /\ dcalls p' = dcalls p ++ [DAdvertise SERVICE])
        \/ ((exists ttl, fst advertised = Ok ttl) /\ fst found = Err err
            /\ dcalls p' = dcalls p ++ [DAdvertise SERVICE; DFindPeers SERVICE]))
  | (None, p') =>
    exists ttl peerChan,
      fst advertised = Ok ttl /\ fst found = Ok peerChan
      /\ discoveries p' = discoveries p ++ [peerChan]
      /\ dcalls p' = dcalls p ++ [DAdvertise SERVICE; DFindPeers SERVICE]
  end.
Proof.
  cbv zeta. unfold AdvertiseConnect.
  destruct (Advertise R SERVICE (dht p)) as [[ttl|err] d1]; cbn [fst snd dht called].
  - destruct (FindPeers R SERVICE d1) as [[peerChan|err] d2]; cbn.
    + exists ttl, peerChan. now rewrite <- app_assoc.
    + split; [reflexivity |]. right. rewrite <- app_assoc.
      split; [now exists ttl | split; reflexivity].
  - cbn. split; [reflexivity |]. now left.
Qed.

(** X21. [AnnounceConnect] returns the first error it meets and then does
    nothing more: when the CID cannot be made, nothing is announced and
    the network is not touched; when announcing fails, no providers are
    looked for. Otherwise it returns nil after starting one discovery on
    the providers of the very CID it announced, the raw CID of the
    multihash made from the bytes 0x12 0x20 followed by the SHA-256 digest
    of the service name. *)
Theorem announce_connect_outcomes p :
  let encoded :=
    multihash_Encode R ([byte_of 0x12; byte_of 0x20] ++ Sum256 R (bytes_of "peernet"))
                     0x12 in
  match AnnounceConnect p with
  | (Some err, p') =>
    discoveries p' = discoveries p
    /\ ((encoded = Err err /\ p' = p)
        \/ (exists multiHash,
              encoded = Ok multiHash
              /\ fst (Provide R (NewCidV1 R 0x55 multiHash) true (dht p)) = Some err
              /\ dcalls p' = dcalls p ++ [DProvide (NewCidV1 R 0x55 multiHash)]))
  | (None, p') =>
    exists multiHash,
      encoded = Ok multiHash
      /\ let cidValue := NewCidV1 R 0x55 multiHash in
         let provided := Provide R cidValue true (dht p) in
         fst provided = None
         /\ dcalls p' = dcalls p ++ [DProvide cidValue; DFindProviders cidValue]
         /\ discoveries p'
            = discoveries p ++ [fst (FindProvidersAsync R cidValue 0 (snd provided))]
  end.
Proof.
  cbv zeta. unfold AnnounceConnect, generateCID, SERVICE, SHA2_256, Raw.
  destruct (multihash_Encode R _ 0x12) as [multiHash|err].
  - destruct (Provide R (NewCidV1 R 0x55 multiHash) true (dht p)) as [[err|] d1] eqn:Hp;
      cbn [fst snd dht called].
    + cbn. split; [reflexivity |]. right. exists multiHash. rewrite Hp. repeat split.
    + destruct (FindProvidersAsync R (NewCidV1 R 0x55 multiHash) 0 d1) as [peerChan d2]
        eqn:Hf.
      cbn. exists multiHash. rewrite Hp. cbn [fst snd]. rewrite Hf.
      now rewrite <- app_assoc.
  - split; [reflexivity |]. now left.
Qed.

(** X22. [connectToPeers] never reports an error: the error of the
    discovery call is dropped and nil returned, whatever the call did.
    The method is [AnnounceConnect] for the string [announce] exactly, and
    [AdvertiseConnect] for every other string, the empty one included. *)
Theorem connectToPeers_never_fails p (discoveryMethod : string) :
  fst (connectToPeers p discoveryMethod) = None
  /\ (discoveryMethod = "announce"%string ->
      snd (connectToPeers p discoveryMethod) = snd (AnnounceConnect p))
  /\ (discoveryMethod <> "announce"%string ->
      snd (connectToPeers p discoveryMethod) = snd (AdvertiseConnect p)).
Proof.
  unfold connectToPeers.
  destruct (String.eqb_spec discoveryMethod "announce") as [->|Hne].
  - split; [reflexivity |]. split; [reflexivity | congruence].
  - destruct (String.eqb discoveryMethod "advertise");
      (split; [reflexivity |]); (split; [congruence | reflexivity]).
Qed.

End DiscoveryFacts.

Lemma discovery_dials_all_but_self_witness :
  dcalls (handlePeerDiscovery kadPeers (fresh kad []))
  = [DConnect (mkAddrInfo "QmRemote" []); DConnect (mkAddrInfo "QmGone" []);
     DConnect (mkAddrInfo "QmRemote" [])]
  /\ dht (handlePeerDiscovery kadPeers (fresh kad [])) = ["QmRemote"; "QmRemote"]%string.
Proof.
  destruct (discovery_dials_all_but_self (R := kad) kadPeers (fresh kad []))
    as (Hc & _ & _).
  - intros peer d. reflexivity.
  - split; [rewrite Hc | ]; vm_compute; reflexivity.
Defined.

Lemma connectToPeers_never_fails_witness :
  fst (AdvertiseConnect (fresh kadOffline [])) = Some "failed to find any peer in table"%string
  /\ fst (connectToPeers (fresh kadOffline []) "") = None
  /\ fst (connectToPeers (fresh kadOffline []) "Announce") = None
  /\ dcalls (snd (connectToPeers (fresh kadOffline []) "Announce"))
     = [DAdvertise "peernet"].
Proof.
  destruct (connectToPeers_never_fails (fresh kadOffline []) "") as (H1 & _ & _).
  destruct (connectToPeers_never_fails (fresh kadOffline []) "Announce") as (H2 & _ & H3).
  split; [reflexivity |]. split; [exact H1 |]. split; [exact H2 |].
  rewrite H3 by discriminate. reflexivity.
Defined.

(** ** Commands in sequence *)

Section Sequences.

Context {S : Substrate}.
Implicit Types (w : World S) (r : ChatRoom S) (cr : ref).

Lemma user_command_ok w r (name : string) :
  heap w !! ui_ChatRoom (ui w) = Some r ->
  name <> EmptyString ->
  processCommand (mkUICommand "/user" name) w
  = Done tt (set_ui (mkUI (ui_ChatRoom (ui w)) (name ++ " > ") (draws (ui w))
                          (stopped (ui w)))
                    (set_heap (<[ui_ChatRoom (ui w) := set_UserName name r]> (heap w)) w)).
Proof.
  intros Hr Hname. pose proof (lookup_lt_Some _ _ _ Hr) as Hlt.
  apply String.eqb_neq in Hname.
  run. cbn. rewrite Hname. cbn. rewrite Hr. cbn.
  rewrite list_lookup_insert_eq by assumption. reflexivity.
Qed.

Lemma room_command w (roomName : string) :
  roomName <> EmptyString ->
  handlePass (FromCmdInputs (mkUICommand "/room" roomName)) w
  = bind (switchRoom roomName) (fun _ => ret true) w.
Proof.
  intros Hname. apply String.eqb_neq in Hname.
  unfold handlePass, processCommand. cbn [CommandType Argument].
  change (String.eqb "/room" "/exit") with false.
  change (String.eqb "/room" "/clear") with false.
  change (String.eqb "/room" "/room") with true. cbv iota.
  now rewrite Hname.
Qed.

(** X23. A rename followed by a switch: the room joined by [/room] carries
    the user name set by the [/user] before it, the label of the input
    field keeps it, and every text the publish loop of the new room
    dequeues is published under that name and the identity of the host. *)
Theorem user_name_survives_switch w r (name roomName : string) topic sub n1 n2 :
  heap w !! ui_ChatRoom (ui w) = Some r ->
  Logs r = make ->
  name <> EmptyString ->
  roomName <> EmptyString ->
  Join S (topicName roomName) (net w) = (Ok topic, n1) ->
  Subscribe S topic n1 = (Ok sub, n2) ->
  exists w',
    handleEvents [FromCmdInputs (mkUICommand "/user" name);
                  FromCmdInputs (mkUICommand "/room" roomName)] w
    = Done true w'
    /\ heap w' !! ui_ChatRoom (ui w')
       = Some (mkChatRoom make make make roomName name (HostID S n2) false topic sub)
    /\ InputLabel (ui w') = (name ++ " > ")%string
    /\ (forall texts : list string,
          exists tr w'',
            publishLoop (ui_ChatRoom (ui w')) (map Dequeued texts) w' = Done (tr, true) w''
            /\ calls w''
               = calls w' ++ map (fun text => CPublish
                     (encode (mkChatMessage text (Pretty S (HostID S n2)) name))) texts).
Proof.
  intros Hr Hlogs Hname Hroom Hj Hs.
  pose proof (lookup_lt_Some _ _ _ Hr) as Hlt.
  pose proof (user_command_ok w r name Hr Hname) as Huser.
  set (w1 := set_ui _ _) in Huser.
  assert (Hr1 : heap w1 !! ui_ChatRoom (ui w1) = Some (set_UserName name r)).
  { subst w1. cbn. now apply list_lookup_insert_eq. }
  pose proof (switchRoom_ok w1 (set_UserName name r) roomName topic sub n1 n2
                Hr1 Hlogs Hj Hs) as Hsw.
  cbv zeta in Hsw. set (w2 := mkWorld _ _ _ _ _) in Hsw.
  assert (Hnew : heap w2 !! ui_ChatRoom (ui w2)
                 = Some (mkChatRoom make make make roomName name (HostID S n2)
                                    false topic sub)).
  { subst w2. cbn [heap ui ui_ChatRoom]. apply list_lookup_middle.
    now rewrite length_insert. }
  exists w2. cbn [handleEvents].
  assert (H1 : handlePass (FromCmdInputs (mkUICommand "/user" name)) w = Done true w1).
  { unfold handlePass. now rewrite (bind_Done _ _ _ _ _ Huser). }
  assert (H2 : handlePass (FromCmdInputs (mkUICommand "/room" roomName)) w1 = Done true w2).
  { rewrite room_command by assumption. now rewrite (bind_Done _ _ _ _ _ Hsw). }
  rewrite (bind_Done _ _ _ _ _ H1). cbv iota.
  rewrite (bind_Done _ _ _ _ _ H2). cbv iota.
  split; [reflexivity |]. split; [exact Hnew |]. split; [reflexivity |].
  intros texts.
  destruct (publishLoop_dequeued (ui_ChatRoom (ui w2)) _ texts w2 Hnew)
    as (tr & w'' & Hl & _ & Hc).
  exists tr, w''. split; [exact Hl | exact Hc].
Qed.

Lemma logs_case_takes w r (l : chatLog) :
  heap w !! ui_ChatRoom (ui w) = Some r ->
  Logs r = mkChan [l] false ->
  handlePass FromLogs w
  = Done true (set_ui (mkUI (ui_ChatRoom (ui w)) (InputLabel (ui w))
                            (draws (ui w) ++ [DrawLog l]) (stopped (ui w)))
                      (set_heap (<[ui_ChatRoom (ui w) := set_Logs make r]> (heap w)) w)).
Proof. intros Hr Hl. run. now rewrite Hr, Hl. Qed.

Lemma set_Logs_back r (c : chan chatLog) :
  Logs r = make -> set_Logs make (set_Logs c r) = r.
Proof. destruct r. cbn. now intros ->. Qed.

(** X24. An error entry of the command interpreter makes the round trip
    through the log channel: when a command leaves exactly one entry in
    the free log channel of the room, the next log pass of the event loop
    takes it out and displays it, and the world is then as it was before
    the command but for that display. So it is for [/room] and [/user]
    without argument and for an unknown command. *)
Theorem command_error_is_displayed w r (cmd : UICommand) (l : chatLog) :
  heap w !! ui_ChatRoom (ui w) = Some r ->
  Logs r = make ->
  processCommand cmd w
  = Done tt (set_heap (<[ui_ChatRoom (ui w) := set_Logs (mkChan [l] false) r]> (heap w)) w) ->
  handleEvents [FromCmdInputs cmd; FromLogs] w
  = Done true (set_ui (mkUI (ui_ChatRoom (ui w)) (InputLabel (ui w))
                            (draws (ui w) ++ [DrawLog l]) (stopped (ui w))) w).
Proof.
  intros Hr Hlogs Hcmd. pose proof (lookup_lt_Some _ _ _ Hr) as Hlt.
  set (w1 := set_heap _ w) in Hcmd.
  assert (Hr1 : heap w1 !! ui_ChatRoom (ui w1) = Some (set_Logs (mkChan [l] false) r)).
  { subst w1. cbn. now apply list_lookup_insert_eq. }
  cbn [handleEvents].
  assert (H1 : handlePass (FromCmdInputs cmd) w = Done true w1).
  { unfold handlePass. now rewrite (bind_Done _ _ _ _ _ Hcmd). }
  rewrite (bind_Done _ _ _ _ _ H1). cbv iota.
  rewrite (bind_Done _ _ _ _ _ (logs_case_takes w1 _ l Hr1 eq_refl)). cbv iota.
  unfold ret. f_equal. subst w1. cbn.
  rewrite list_insert_insert_eq, (set_Logs_back r _ Hlogs).
  rewrite list_insert_id by exact Hr. now destruct w.
Qed.

End Sequences.

Lemma user_name_survives_switch_witness :
  exists w',
    handleEvents [FromCmdInputs (mkUICommand "/user" "bob");
                  FromCmdInputs (mkUICommand "/room" "den")] lobby
    = Done true w'
    /\ (UserName <$> heap w' !! 1%nat) = Some "bob"
    /\ ui_ChatRoom (ui w') = 1%nat
    /\ InputLabel (ui w') = "bob > "
    /\ (exists tr w'',
          publishLoop 1%nat [Dequeued "hi"] w' = Done (tr, true) w''
          /\ calls w'' = calls w' ++ [CPublish (encode (mkChatMessage "hi" "QmLocal" "bob"))]).
Proof.
  destruct (user_name_survives_switch lobby lobbyRoom "bob" "den" "room-peerchat-den"
              "room-peerchat-den" ["room-peerchat-den"; "room-peerchat-lobby"]
              ["room-peerchat-den"; "room-peerchat-lobby"] lobby_room eq_refl
              ltac:(discriminate) ltac:(discriminate) eq_refl eq_refl)
    as (w' & Hev & Hnew & Hlabel & Hpub).
  assert (Hcur : ui_ChatRoom (ui w') = 1%nat).
  { assert (He := Hev). vm_compute in He. now injection He as <-. }
  exists w'. split; [exact Hev |].
  rewrite Hcur in Hnew, Hpub.
  split; [exact (f_equal (fmap UserName) Hnew) |].
  split; [exact Hcur |]. split; [exact Hlabel |].
  exact (Hpub ["hi"]).
Defined.

Lemma command_error_is_displayed_witness :
  handleEvents [FromCmdInputs (mkUICommand "/room" ""); FromLogs] lobby
  = Done true (set_ui (mkUI 0%nat "alice > "
                            [DrawLog (mkChatLog "error" "missing room name")] false) lobby)
  /\ handleEvents [FromCmdInputs (mkUICommand "/user" ""); FromLogs] lobby
     = Done true (set_ui (mkUI 0%nat "alice > "
                               [DrawLog (mkChatLog "error" "missing username")] false) lobby)
  /\ handleEvents [FromCmdInputs (mkUICommand "/nick" "bob"); FromLogs] lobby
     = Done true (set_ui (mkUI 0%nat "alice > "
                               [DrawLog (mkChatLog "error" "unsupported command: /nick")]
                               false) lobby).
Proof.
  split; [|split].
  - exact (command_error_is_displayed lobby lobbyRoom (mkUICommand "/room" "")
             (mkChatLog "error" "missing room name") lobby_room eq_refl eq_refl).
  - exact (command_error_is_displayed lobby lobbyRoom (mkUICommand "/user" "")
             (mkChatLog "error" "missing username") lobby_room eq_refl eq_refl).
  - exact (command_error_is_displayed lobby lobbyRoom (mkUICommand "/nick" "bob")
             (mkChatLog "error" "unsupported command: /nick") lobby_room eq_refl eq_refl).
Defined.

(** ** Which payloads are delivered *)

(** X25. Which payloads from another peer reach the inbound channel. A
    payload that is well-formed JSON is delivered exactly when it is
    [null] or an object in which every member whose key names a field of
    the envelope holds a string or [null]; members under other keys are
    ignored whatever they hold. Every other JSON value, and every object
    with a number, boolean, array or object under one of the three keys,
    is logged as [failed to unmarshal JSON] and not delivered. *)
Theorem payload_delivered_iff_acceptable (self from : peerID) (data : bytes) (v : value) :
  from <> self ->
  parse data = Some v ->
  (acceptable v ->
   exists m, subscribePass self (Next (NextMsg from data)) = ([ToInbound m], true))
  /\ (~ acceptable v ->
      subscribePass self (Next (NextMsg from data))
      = ([ToLogs (mkChatLog "suberr" "failed to unmarshal JSON")], true)).
Proof.
  intros Hne Hp. rewrite subscribePass_other by assumption.
  pose proof (Unmarshal_error data zeroMessage v Hp) as Hiff.
  destruct (Unmarshal data zeroMessage) as [m [e|]]; cbn [snd] in Hiff.
  - split; [|reflexivity]. intros Ha. apply Hiff in Ha. discriminate Ha.
  - split; [now exists m |]. intros Hn. elim Hn. now apply Hiff.
Qed.

Lemma payload_delivered_iff_acceptable_witness :
  subscribePass "QmLocal" (Next (NextMsg "QmRemote" extendedPayload))
  = ([ToInbound (mkChatMessage "hi" "" "")], true)
  /\ subscribePass "QmLocal" (Next (NextMsg "QmRemote" mistypedPayload))
     = ([ToLogs (mkChatLog "suberr" "failed to unmarshal JSON")], true)
  /\ subscribePass "QmLocal" (Next (NextMsg "QmRemote" (bytes_of "[]")))
     = ([ToLogs (mkChatLog "suberr" "failed to unmarshal JSON")], true).
Proof.
  split; [|split].
  - destruct (payload_delivered_iff_acceptable "QmLocal" "QmRemote" extendedPayload
                (VObject [(bytes_of "message", VString (bytes_of "hi"));
                          (bytes_of "likes",
                           VArray [VNumber (bytes_of "1"); VNumber (bytes_of "2")])]))
      as [H _]; [discriminate | vm_compute; reflexivity |].
    destruct H as [m Hm].
    { apply Forall_cons. split; [right; reflexivity |].
      apply Forall_cons. split; [left; vm_compute; reflexivity | constructor]. }
    rewrite Hm. vm_compute in Hm. now injection Hm as <-.
  - apply (payload_delivered_iff_acceptable "QmLocal" "QmRemote" mistypedPayload
             (VObject [(bytes_of "sendername", VString (bytes_of "bob"));
                       (bytes_of "message", VNumber (bytes_of "5"))]));
      [discriminate | vm_compute; reflexivity |].
    intros H. apply Forall_cons in H as [_ H]. apply Forall_cons in H as [[H|H] _];
      vm_compute in H; discriminate H.
  - apply (payload_delivered_iff_acceptable "QmLocal" "QmRemote" (bytes_of "[]")
             (VArray [])); [discriminate | vm_compute; reflexivity |].
    intros H. exact H.
Defined.

(** ** Leaving a room *)

Section ExitFacts.

Context {S : Substrate}.
Implicit Types (w : World S) (r : ChatRoom S) (cr : ref).

(** X26. [Exit] cancels the subscription, then closes the topic on the
    network as the cancellation left it, then cancels the context, and
    returns; an error from closing the topic is dropped and changes
    nothing of this. Of the room only the context changes; the user name,
    the channels and what they hold, every other room, the loops started
    and the UI are as they were. *)
Theorem exit_cancels_then_closes w cr r :
  heap w !! cr = Some r ->
  exists w',
    Exit cr w = Done tt w'
    /\ calls w' = calls w ++ [CCancel; CClose]
    /\ net w' = snd (Close S (psTopic r) (Cancel S (psSub r) (net w)))
    /\ heap w' !! cr = Some (set_psDone r)
    /\ (forall i, i <> cr -> heap w' !! i = heap w !! i)
    /\ length (heap w') = length (heap w)
    /\ spawned w' = spawned w
    /\ ui w' = ui w.
Proof.
  intros Hr. pose proof (lookup_lt_Some _ _ _ Hr) as Hlt.
  eexists. split; [exact (Exit_eq w cr r Hr) |]. cbn [calls net heap spawned ui].
  split; [reflexivity |]. split; [reflexivity |].
  split; [now apply list_lookup_insert_eq |].
  split; [intros i Hne; apply list_lookup_insert_ne; congruence |].
  split; [apply length_insert | split; reflexivity].
Qed.

End ExitFacts.

Lemma exit_cancels_then_closes_witness :
  exists w',
    Exit 0%nat lobbyStuck = Done tt w'
    /\ calls w' = [CJoin "room-peerchat-lobby"; CSubscribe; CCancel; CClose]
    /\ net w' = ["room-peerchat-lobby"]%string
    /\ (psDone <$> heap w' !! 0%nat) = Some true.
Proof.
  destruct (exit_cancels_then_closes lobbyStuck 0%nat
              (mkChatRoom (S := pubsubStuck) make make make "lobby" "alice" "QmLocal" false
                          "room-peerchat-lobby" "room-peerchat-lobby") eq_refl)
    as (w' & He & Hc & Hn & Hr & _).
  exists w'. split; [exact He |]. split; [exact Hc |]. split; [exact Hn |].
  exact (f_equal (fmap psDone) Hr).
Defined.

(** ** A message on its way *)

Section Paths.

Context {S : Substrate}.
Implicit Types (w : World S) (r : ChatRoom S) (cr : ref).

Lemma message_line (line : string) :
  line <> EmptyString -> HasPrefix line "/" = false ->
  inputDone KeyEnter line = ToMsgInputs line.
Proof.
  intros Hne Hpre. unfold inputDone. rewrite Hpre.
  destruct line; [congruence | reflexivity].
Qed.

Lemma set_Outbound_back r (c : chan string) :
  Outbound r = make -> set_Outbound make (set_Outbound c r) = r.
Proof. destruct r. cbn. now intros ->. Qed.

(** X27. A typed line on its way out. In a room whose log and outbound
    channels are free, a committed non-empty line that does not start with
    a slash is put in the outbound channel and displayed under the user's
    own name; the turn of the publish loop that finds it there takes it
    out and publishes it, verbatim, in the envelope with the pretty
    identity of the host and the user name, as the only call on the
    router; the room is then as it was before the line. *)
Theorem typed_line_is_published w r (line : string) :
  heap w !! ui_ChatRoom (ui w) = Some r ->
  drained r ->
  line <> EmptyString ->
  HasPrefix line "/" = false ->
  exists w1 out w2,
    onLine line w = Done true w1
    /\ (Outbound <$> heap w1 !! ui_ChatRoom (ui w)) = Some (mkChan [line] false)
    /\ publishTurn (ui_ChatRoom (ui w)) w1 = Done (Some out) w2
    /\ calls w2
       = calls w ++ [CPublish (encode (mkChatMessage line (Pretty S (selfID r))
                                                     (UserName r)))]
    /\ draws (ui w2) = draws (ui w) ++ [DrawMessage true (UserName r) line]
    /\ heap w2 = heap w.
Proof.
  intros Hr [Hlogs Hout] Hne Hpre. pose proof (lookup_lt_Some _ _ _ Hr) as Hlt.
  set (cur := ui_ChatRoom (ui w)) in *.
  set (r1 := set_Outbound (mkChan [line] false) r).
  set (w1 := set_ui (mkUI cur (InputLabel (ui w))
                          (draws (ui w) ++ [DrawMessage true (UserName r) line])
                          (stopped (ui w)))
                    (set_heap (<[cur := r1]> (heap w)) w)).
  assert (H1 : onLine line w = Done true w1).
  { unfold onLine. rewrite (message_line line Hne Hpre).
    run. fold cur. rewrite Hr, Hout. cbn.
    rewrite list_lookup_insert_eq by assumption. reflexivity. }
  assert (Hr1 : heap w1 !! cur = Some r1).
  { subst w1. cbn. now apply list_lookup_insert_eq. }
  set (w1' := set_heap (<[cur := set_Outbound (mkChan [] false) r1]> (heap w1)) w1).
  assert (Hback : heap w1' = heap w).
  { subst w1' w1 r1. cbn. rewrite list_insert_insert_eq.
    rewrite (set_Outbound_back r _ Hout). now apply list_insert_id. }
  assert (Hr1' : heap w1' !! cur = Some r) by (rewrite Hback; exact Hr).
  pose proof (publishPass_Dequeued w1' cur r line Hr1') as Hp. cbv zeta in Hp.
  exists w1. eexists _, _. split; [exact H1 |].
  split; [now rewrite Hr1 |].
  split.
  { unfold publishTurn. rewrite (bind_Done _ _ _ _ _ (deref_Some _ _ _ Hr1)).
    cbn [recv r1 set_Outbound Outbound buf closed]. cbv iota.
    assert (Hst : store cur (set_Outbound (mkChan [] false) r1) w1 = Done tt w1')
      by reflexivity.
    rewrite (bind_Done _ _ _ _ _ Hst), (bind_Done _ _ _ _ _ Hp). reflexivity. }
  cbn [calls log_call set_net ui draws heap].
  split; [reflexivity |]. split; [reflexivity | exact Hback].
Qed.

(** X28. An envelope on its way in. What another peer published is put by
    the receive loop into the free inbound channel of the room, and the
    inbound pass of the event loop takes it out and displays its text under
    the sender name the envelope carries; neither the sender identity in
    the envelope nor the peer it was received from is displayed or
    compared with it. The room is then as it was. *)
Theorem received_envelope_is_displayed w r (from : peerID) (m : chatMessage) :
  heap w !! ui_ChatRoom (ui w) = Some r ->
  Inbound r = make ->
  from <> selfID r ->
  let cur := ui_ChatRoom (ui w) in
  let shown := coerced m in
  subscribePass (selfID r) (Next (NextMsg from (encode m))) = ([ToInbound shown], true)
  /\ send shown (Inbound r) = Sent (mkChan [shown] false)
  /\ handlePass FromInbound
       (set_heap (<[cur := set_Inbound (mkChan [shown] false) r]> (heap w)) w)
     = Done true (set_ui (mkUI cur (InputLabel (ui w))
                               (draws (ui w)
                                ++ [DrawMessage false (SenderName shown) (Message shown)])
                               (stopped (ui w))) w).
Proof.
  intros Hr Hin Hne cur shown. pose proof (lookup_lt_Some _ _ _ Hr) as Hlt.
  split; [|split].
  - rewrite subscribePass_other by assumption. now rewrite Unmarshal_encode_coerced.
  - now rewrite Hin.
  - run. cbn. fold cur. rewrite list_lookup_insert_eq by assumption. cbn.
    rewrite list_insert_insert_eq.
    replace (set_Inbound (mkChan [] false) (set_Inbound (mkChan [shown] false) r)) with r
      by (destruct r; cbn in *; now subst).
    rewrite list_insert_id by exact Hr. now destruct w.
Qed.

End Paths.

Lemma typed_line_is_published_witness :
  exists w1 out w2,
    onLine "hello world" lobby = Done true w1
    /\ publishTurn 0%nat w1 = Done (Some out) w2
    /\ calls w2 = calls lobby
                  ++ [CPublish (encode (mkChatMessage "hello world" "QmLocal" "alice"))]
    /\ draws (ui w2) = [DrawMessage true "alice" "hello world"]
    /\ heap w2 = [lobbyRoom].
Proof.
  destruct (typed_line_is_published lobby lobbyRoom "hello world" lobby_room
              ltac:(split; reflexivity) ltac:(discriminate) eq_refl)
    as (w1 & out & w2 & H1 & _ & H2 & H3 & H4 & H5).
  exists w1, out, w2. repeat split; assumption.
Defined.

Lemma received_envelope_is_displayed_witness :
  subscribePass "QmLocal" (Next (NextMsg "QmRemote" (encode forged)))
  = ([ToInbound forged], true)
  /\ handlePass FromInbound (set_heap [set_Inbound (mkChan [forged] false) lobbyRoom] lobby)
     = Done true (set_ui (mkUI 0%nat "alice > " [DrawMessage false "mallory" "hi"] false)
                         lobby).
Proof.
  destruct (received_envelope_is_displayed lobby lobbyRoom "QmRemote" forged lobby_room
              eq_refl ltac:(discriminate)) as (H1 & _ & H3).
  split; [exact H1 | exact H3].
Defined.

(** ** Full channels *)

Section FullChannels.

Context {S : Substrate}.
Implicit Types (w : World S) (r : ChatRoom S) (cr : ref).




(** X30. While an entry waits in the log channel of the room the UI points
    to, every command that logs - [/room], with or without a room name,
    [/user] without a name, and every unknown command - parks the event
    loop on its first send to that channel: nothing is joined, nothing
    changes, and since the pass that would take the entry out belongs to
    the same loop, nothing that fires later is handled. *)
Theorem pending_log_entry_blocks_commands w r (cmd : UICommand) :
  heap w !! ui_ChatRoom (ui w) = Some r ->
  closed (Logs r) = false ->
  (capacity <= length (buf (Logs r)))%nat ->
  CommandType cmd <> "/exit"%string ->
  CommandType cmd <> "/clear"%string ->
  (CommandType cmd = "/user"%string -> Argument cmd = EmptyString) ->
  exists l,
    processCommand cmd w = Parked (OnLogs (ui_ChatRoom (ui w)) l) w
    /\ forall later : list fired,
         handleEvents (FromCmdInputs cmd :: later) w
         = Parked (OnLogs (ui_ChatRoom (ui w)) l) w.
Proof.
  intros Hr Hcl Hfull Hexit Hclear Huser.
  assert (Hpark : forall l, sendLog l w = Parked (OnLogs (ui_ChatRoom (ui w)) l) w)
    by (intros l; now apply (sendLog_parked w r)).
  assert (Hcmd : exists l, processCommand cmd w = Parked (OnLogs (ui_ChatRoom (ui w)) l) w).
  { unfold processCommand.
    apply String.eqb_neq in Hexit, Hclear. rewrite Hexit, Hclear.
    destruct (String.eqb_spec (CommandType cmd) "/room") as [_|_].
    - destruct (String.eqb (Argument cmd) ""); [eexists; apply Hpark |].
      eexists. unfold switchRoom. now rewrite (bind_Parked _ _ _ _ _ (Hpark _)).
    - destruct (String.eqb_spec (CommandType cmd) "/user") as [Hu|_];
        [|eexists; apply Hpark].
      rewrite (Huser Hu). cbn. eexists; apply Hpark. }
  destruct Hcmd as [l Hl]. exists l. split; [exact Hl |].
  intros later. apply handleEvents_parked. unfold handlePass.
  now rewrite (bind_Parked _ _ _ _ _ Hl).
Qed.

End FullChannels.


Lemma pending_log_entry_blocks_commands_witness :
  (exists l, forall later,
      handleEvents (FromCmdInputs (mkUICommand "/room" "den") :: later) lobbyLogged
      = Parked (OnLogs 0%nat l) lobbyLogged)
  /\ (exists l, forall later,
        handleEvents (FromCmdInputs (mkUICommand "/help" "") :: later) lobbyLogged
        = Parked (OnLogs 0%nat l) lobbyLogged).
Proof.
  split.
  - destruct (pending_log_entry_blocks_commands lobbyLogged
                (set_Logs (mkChan [mkChatLog "suberr" "failed to unmarshal JSON"] false)
                          lobbyRoom) (mkUICommand "/room" "den") eq_refl eq_refl
                ltac:(cbn; unfold capacity; lia) ltac:(discriminate) ltac:(discriminate)
                ltac:(discriminate)) as (l & _ & H).
    now exists l.
  - destruct (pending_log_entry_blocks_commands lobbyLogged
                (set_Logs (mkChan [mkChatLog "suberr" "failed to unmarshal JSON"] false)
                          lobbyRoom) (mkUICommand "/help" "") eq_refl eq_refl
                ltac:(cbn; unfold capacity; lia) ltac:(discriminate) ltac:(discriminate)
                ltac:(discriminate)) as (l & _ & H).
    now exists l.
Defined.
